(** * MLPA prototype: the scale version graph engine

    A shallow embedding of the graph queries ([logic/scaleGraph.js]), the
    branch layout ([layout/branchPositioning.js]), the adaptation
    validator and item expansion (OpenAI scale adapter), the scale store
    ([state/scaleStore.js]), the invariant checks ([utils/invariants.js])
    and the delete controllers ([controllers/flowEditorController.js],
    [controllers/flowController.js]), followed by the properties checked
    against them.  Beside these: the canvas state operations
    ([state/canvasStateOps.js]), the scale assembler, the fallback
    validator of [services/gptScaleService.js], the line parser of
    [adapters/csvIngest.js] and the CSV export of the application logic.

    Conventions of the embedding:
    - a JS [Map] is the list of its entries in insertion order, a JS
      [Set] the list of its members in insertion order;
    - JS numbers that hold canvas coordinates, depths and indices are
      integers of [Z];
    - a value that may be [null] or [undefined] is an [option];
    - a JS string is the [string] of its UTF-8 bytes, and its [length]
      (a count of UTF-16 code units) is [utf16_length];
    - untrusted payloads (parsed JSON, objects handed to the store) are
      values of [JValue];
    - a [while] loop takes the number of passes it may run and answers
      [None] when that budget is used up. *)

From stdpp Require Import base strings list pretty.
From Stdlib Require Import ZArith Lia.

Open Scope string_scope.
Open Scope list_scope.

(** ** JS collections *)

Section Collections.
Context {K : Type} (keq : K → K → bool).

(** [Set.prototype.has], [Set.prototype.add] and [new Set(iterable)]. *)
Definition Set_has (s : list K) (k : K) : bool := existsb (keq k) s.

Definition Set_add (s : list K) (k : K) : list K :=
  if Set_has s k then s else s ++ [k].

Definition Set_new (xs : list K) : list K := fold_left Set_add xs [].

Context {V : Type}.

(** [Map.prototype.get], [has], [set] and [delete]; [Map_delete] also
    answers whether an entry was removed. *)
Definition Map_get (m : list (K * V)) (k : K) : option V :=
  snd <$> find (λ e, keq k e.1) m.

Definition Map_has (m : list (K * V)) (k : K) : bool :=
  existsb (λ e, keq k e.1) m.

Definition Map_set (m : list (K * V)) (k : K) (v : V) : list (K * V) :=
  if Map_has m k
  then map (λ e, if keq k e.1 then (e.1, v) else e) m
  else m ++ [(k, v)].

Definition Map_delete (m : list (K * V)) (k : K) : list (K * V) * bool :=
  (filter (λ e, keq k e.1 = false) m, Map_has m k).

Definition Map_keys (m : list (K * V)) : list K := map fst m.
End Collections.

(** ** Data model (state/stateManager.js, frozen object shapes) *)

Record Position := { pos_x : Z; pos_y : Z }.

Record Item := {
item_id : string;
origin_item_id : string;
text : string;
baseline_rubric : list string;
current_rubric : list string;
dimension : string;
rubric_source : option string
}.

Record Dimension := { name : string; items : list Item }.

(** [position] and [depth] are options because the layout code guards
  against their absence. *)
Record Scale := {
scale_id : string;
scale_name : string;
parent_scale_id : option string;
is_root : bool;
expanded : bool;
depth : option Z;
branch_index : option Z;
position : option Position;
positionLocked : option bool;
dimensions : list Dimension
}.

(** Truthiness of a string: only the empty string is falsy. *)
Definition truthy_string (s : string) : bool := negb (String.eqb s "").

(** Truthiness of a [string | null] field. *)
Definition truthy_id (o : option string) : bool :=
match o with
| Some s => truthy_string s
| None => false
end.

(** [s.length]: the number of UTF-16 code units of the text whose UTF-8
    bytes [s] holds.  A byte below 128 is a character of one unit; a
    continuation byte (128 to 191) adds nothing; the first byte of a
    sequence of two or three bytes (192 to 239) stands for one unit, and
    the first byte of a sequence of four (240 and above) for the two
    units of a surrogate pair. *)
Fixpoint utf16_length (s : string) : nat :=
  match s with
  | EmptyString => O
  | String c rest =>
      let byte := Ascii.nat_of_ascii c in
      ((if (byte <? 128)%nat then 1
        else if (byte <? 192)%nat then 0
        else if (byte <? 240)%nat then 1
        else 2) + utf16_length rest)%nat
  end.

(** ** logic/scaleGraph.js *)

Module ScaleGraph.

Definition has : list string → string → bool := Set_has String.eqb.
Definition add : list string → string → list string := Set_add String.eqb.

(** The guard of the inner [if] of [buildCascadeDeleteSet]:
    [!toDelete.has(sId) && s.parent_scale_id && toDelete.has(s.parent_scale_id)]. *)
Definition cascade_guard (toDelete : list string) (sId : string) (s : Scale) : bool :=
  negb (has toDelete sId) &&
  match parent_scale_id s with
  | Some p => truthy_string p && has toDelete p
  | None => false
  end.

(** One iteration of [for (const [sId, s] of scales)]; the state is the
    pair of [toDelete] and [modified]. *)
Definition cascade_visit (st : list string * bool) (e : string * Scale)
  : list string * bool :=
  if cascade_guard st.1 e.1 e.2 then (add st.1 e.1, true) else st.

(** One pass of the [while] body: [modified = false] and a full scan. *)
Definition cascade_pass (scales : list (string * Scale)) (toDelete : list string)
  : list string * bool :=
  fold_left cascade_visit scales (toDelete, false).

(** [while (modified) { ... }], allowed to run [passes] passes. *)
Fixpoint cascade_while (passes : nat) (scales : list (string * Scale))
    (toDelete : list string) : option (list string) :=
  match passes with
  | O => None
  | S n =>
      let r := cascade_pass scales toDelete in
      if r.2 then cascade_while n scales r.1 else Some r.1
  end.

Definition buildCascadeDeleteSet_within (passes : nat)
    (scales : list (string * Scale)) (targetId : string) : option (list string) :=
  cascade_while passes scales (Set_new String.eqb [targetId]).

(** The loop is given one pass more than the collection has entries. *)
Definition buildCascadeDeleteSet (scales : list (string * Scale)) (targetId : string)
  : option (list string) :=
  buildCascadeDeleteSet_within (S (length scales)) scales targetId.

Definition findRoots (scales : list (string * Scale)) : list string :=
  fold_left
    (λ roots e,
       if is_root e.2 || negb (truthy_id (parent_scale_id e.2))
       then roots ++ [e.1] else roots)
    scales [].

Definition isRoot (scale : option Scale) : bool :=
  match scale with
  | Some s => is_root s || negb (truthy_id (parent_scale_id s))
  | None => false
  end.

(** *** Parent links, as the loop reads them

    The loop follows a [parent_scale_id] only when it is truthy: to the
    loop a scale has a parent link when its [parent_scale_id] is neither
    [null] nor the empty string.  [descendant] is the closure of these
    links; it is the relation of the code, used to say what the loop
    collects, and not the child relation of the specification, which is
    [spec_cascade] below. *)
Definition parent_link (s : Scale) : option string :=
  if truthy_id (parent_scale_id s) then parent_scale_id s else None.

Inductive descendant (scales : list (string * Scale)) (t : string)
  : string → Prop :=
| descendant_child sId s :
    (sId, s) ∈ scales → parent_link s = Some t → descendant scales t sId
| descendant_below sId s p :
    (sId, s) ∈ scales → parent_link s = Some p →
    descendant scales t p → descendant scales t sId.

(** What the loop collects for target [t]. *)
Definition in_cascade (scales : list (string * Scale)) (t x : string) : Prop :=
  x = t ∨ descendant scales t x.

(** *** The cascade set, in the words of the specification

    The set [{target}] grown by adding any node whose parent id is
    already in the set.  A parent id is whatever [parent_scale_id] holds,
    the empty string included; this is the child relation of
    [getChildren] and [getDescendants]. *)
Inductive spec_cascade (scales : list (string * Scale)) (t : string)
  : string → Prop :=
| spec_cascade_target : spec_cascade scales t t
| spec_cascade_child sId s p :
    (sId, s) ∈ scales → parent_scale_id s = Some p →
    spec_cascade scales t p → spec_cascade scales t sId.

(** *** The other queries of the module *)

Definition getChildren (scales : list (string * Scale)) (parentId : string)
  : list string :=
  fold_left
    (λ children e,
       if bool_decide (parent_scale_id e.2 = Some parentId)
       then children ++ [e.1] else children)
    scales [].

(** [while (queue.length > 0)] of [getDescendants], allowed to take
    [steps] ids off the queue; the state is [queue] and [descendants]. *)
Fixpoint descendants_while (steps : nat) (scales : list (string * Scale))
    (queue descendants : list string) {struct steps} : option (list string) :=
  match queue with
  | [] => Some descendants
  | currentId :: rest =>
      match steps with
      | O => None
      | S n =>
          let children := getChildren scales currentId in
          descendants_while n scales (rest ++ children) (descendants ++ children)
      end
  end.

Definition getDescendants_within (steps : nat) (scales : list (string * Scale))
    (rootId : string) : option (list string) :=
  descendants_while steps scales [rootId] [].

(** [idPrefix] is optional; [!idPrefix] also holds of the empty prefix. *)
Definition countBranches (scales : list (string * Scale)) (parentId : string)
    (idPrefix : option string) : nat :=
  fold_left
    (λ count e,
       if bool_decide (parent_scale_id e.2 = Some parentId) then
         if negb (truthy_id idPrefix) || String.prefix (default "" idPrefix) e.1
         then S count else count
       else count)
    scales O.

Definition getRootScale (scales : list (string * Scale)) : option Scale :=
  snd <$> find (λ e, is_root e.2 || negb (truthy_id (parent_scale_id e.2))) scales.

Definition getSiblings (scales : list (string * Scale)) (scaleId : string)
  : list string :=
  match Map_get String.eqb scales scaleId with
  | None => []
  | Some scale =>
      if negb (truthy_id (parent_scale_id scale)) then []
      else
        fold_left
          (λ siblings e,
             if negb (String.eqb e.1 scaleId) &&
                bool_decide (parent_scale_id e.2 = parent_scale_id scale)
             then siblings ++ [e.1] else siblings)
          scales []
  end.

Definition getParent (scales : list (string * Scale)) (scaleId : string)
  : option Scale :=
  match Map_get String.eqb scales scaleId with
  | None => None
  | Some scale =>
      match parent_scale_id scale with
      | Some p => if truthy_string p then Map_get String.eqb scales p else None
      | None => None
      end
  end.

(** [buildScaleTree]: the map from a parent id to the ids of its children;
    one step of the loop, then the loop. *)
Definition tree_visit (tree : list (string * list string)) (e : string * Scale)
  : list (string * list string) :=
  match parent_scale_id e.2 with
  | Some p =>
      if truthy_string p then
        let tree' := if Map_has String.eqb tree p then tree
                     else Map_set String.eqb tree p [] in
        Map_set String.eqb tree' p (default [] (Map_get String.eqb tree' p) ++ [e.1])
      else tree
  | None => tree
  end.

Definition buildScaleTree (scales : list (string * Scale))
  : list (string * list string) :=
  fold_left tree_visit scales [].

(** [x] is reached from [t] by going down child by child, a child of [p]
    being a member of [getChildren scales p]. *)
Inductive reached (scales : list (string * Scale)) : string → string → Prop :=
| reached_child t x :
    x ∈ getChildren scales t → reached scales t x
| reached_below t c x :
    c ∈ getChildren scales t → reached scales c x → reached scales t x.

End ScaleGraph.

(** The invariant kept by the fixed-point loop of [buildCascadeDeleteSet]
    for target [t]: no member is repeated, the target is a member, every
    member is the target or one of its descendants, and every member but
    the target is the key of an entry. *)
Definition cascade_inv (scales : list (string * Scale)) (t : string)
    (td : list string) : Prop :=
  NoDup td ∧ t ∈ td ∧
  (∀ x, x ∈ td → ScaleGraph.in_cascade scales t x) ∧
  (∀ x, x ∈ td → x = t ∨ x ∈ Map_keys scales).

(** ** layout/branchPositioning.js *)

Module BranchPositioning.

Record LayoutConstants := {
  HORIZONTAL_STEP : Z;
  VERTICAL_GAP : Z;
  ESTIMATED_HEIGHT : Z
}.

(** The getter [ROW_HEIGHT] of [LAYOUT_CONSTANTS].  The function reads
    [constants.ROW_HEIGHT]; a value of [LayoutConstants] stands for a
    constants object that answers it through this getter, which of the
    objects of the application only [LAYOUT_CONSTANTS] does.  Every call
    in the application leaves [constants] out, and the properties below
    are stated at [LAYOUT_CONSTANTS]. *)
Definition ROW_HEIGHT (c : LayoutConstants) : Z :=
  (ESTIMATED_HEIGHT c + VERTICAL_GAP c)%Z.

Definition LAYOUT_CONSTANTS : LayoutConstants :=
  {| HORIZONTAL_STEP := 550; VERTICAL_GAP := 24; ESTIMATED_HEIGHT := 180 |}.

(** The object [{ x, y, branch_index, depth }] the function returns. *)
Record BranchPosition := {
  bp_x : Z;
  bp_y : Z;
  bp_branch_index : Z;
  bp_depth : Z
}.

(** [Math.floor(branch_index / 2)] is [Z.div] and [branch_index % 2] is
    [Z.rem] (the sign of the dividend, as in JS).  A caller that leaves
    out [constants] passes [LAYOUT_CONSTANTS]. *)
Definition getNextBranchPosition (parentScale : option Scale) (branch_index : Z)
    (constants : LayoutConstants) : BranchPosition :=
  match parentScale with
  | None => {| bp_x := 100; bp_y := 100; bp_branch_index := 0; bp_depth := 1 |}
  | Some parent =>
      match position parent with
      | None => {| bp_x := 100; bp_y := 100; bp_branch_index := 0; bp_depth := 1 |}
      | Some pos =>
          let depth := (default 0 (depth parent) + 1)%Z in
          let baseX := (pos_x pos + HORIZONTAL_STEP constants)%Z in
          let layer := (branch_index / 2 + 1)%Z in
          let direction := (2 * Z.rem branch_index 2 - 1)%Z in
          let baseY := (pos_y pos + direction * layer * ROW_HEIGHT constants)%Z in
          {| bp_x := baseX; bp_y := baseY;
             bp_branch_index := branch_index; bp_depth := depth |}
      end
  end.

End BranchPositioning.

(** ** Untrusted values *)

(** A parsed JSON value, or a JS object handed over by a caller.  Numbers
    are only tested for their type, their truthiness and their sign. *)
#[warnings="-register-all"]
Inductive JValue :=
| JUndefined
| JNull
| JBool (b : bool)
| JNum (n : Z)
| JStr (s : string)
| JArr (elems : list JValue)
| JObj (fields : list (string * JValue)).

Definition truthy (v : JValue) : bool :=
  match v with
  | JUndefined | JNull => false
  | JBool b => b
  | JNum n => negb (n =? 0)%Z
  | JStr s => truthy_string s
  | JArr _ | JObj _ => true
  end.

Definition typeof (v : JValue) : string :=
  match v with
  | JUndefined => "undefined"
  | JBool _ => "boolean"
  | JNum _ => "number"
  | JStr _ => "string"
  | JNull | JArr _ | JObj _ => "object"
  end.

Definition isArray (v : JValue) : bool :=
  match v with JArr _ => true | _ => false end.

(** How a call completes: with a value, or with a thrown error. *)
Inductive Completion (A : Type) :=
| Return (a : A)
| Throw (e : string).
Arguments Return {A} a.
Arguments Throw {A} e.

#[global] Instance Completion_bind : MBind Completion :=
  λ A B f c, match c with
             | Return a => f a
             | Throw e => Throw e
             end.

(** Reading the data property [k] of [v]: a [TypeError] on [null] and
    [undefined], [undefined] when an object has no such field or [v] is
    a primitive or an array (the field names read here are never
    [length] or an index). *)
Definition prop (v : JValue) (k : string) : Completion JValue :=
  match v with
  | JUndefined | JNull => Throw "TypeError"
  | JObj fields => Return (default JUndefined (Map_get String.eqb fields k))
  | JBool _ | JNum _ | JStr _ | JArr _ => Return JUndefined
  end.

(** [v === true]. *)
Definition is_true (v : JValue) : bool :=
  match v with JBool true => true | _ => false end.

(** [typeof v === 'string' && v.length > 0]. *)
Definition nonempty_string (v : JValue) : bool :=
  match v with JStr s => truthy_string s | _ => false end.

(** Key equality of a [Map] ([SameValueZero]); arrays and objects are
    compared by reference, and two values of the model never share one. *)
Definition same_value_zero (a b : JValue) : bool :=
  match a, b with
  | JUndefined, JUndefined => true
  | JNull, JNull => true
  | JBool x, JBool y => Bool.eqb x y
  | JNum x, JNum y => (x =? y)%Z
  | JStr x, JStr y => String.eqb x y
  | _, _ => false
  end.

(** ** utils/invariants.js *)

Module Invariants.

Definition DEV : bool := true.

Definition assert (condition : bool) (message : string) : Completion unit :=
  if DEV && negb condition
  then Throw ("[Invariant Violated] " +:+ message)
  else Return tt.

Definition validateScale (scale : JValue) : Completion unit :=
  if negb DEV then Return tt else
  _ ← assert (match scale with JNull => false | _ => true end
              && String.eqb (typeof scale) "object")
             "Scale must be an object" ;
  sid ← prop scale "scale_id" ;
  _ ← assert (nonempty_string sid) "Scale must have scale_id" ;
  sname ← prop scale "scale_name" ;
  _ ← assert (String.eqb (typeof sname) "string") "Scale must have scale_name" ;
  dims ← prop scale "dimensions" ;
  _ ← assert (isArray dims) "Scale must have dimensions array" ;
  pos ← prop scale "position" ;
  ok ← (if truthy pos then
          px ← prop pos "x" ;
          if String.eqb (typeof px) "number" then
            py ← prop pos "y" ;
            Return (String.eqb (typeof py) "number")
          else Return false
        else Return false) ;
  assert ok "Scale must have position {x, y}".

Definition validateBranchedScale (scale : JValue) : Completion unit :=
  if negb DEV then Return tt else
  root ← prop scale "is_root" ;
  if truthy root then Return tt else
  parent ← prop scale "parent_scale_id" ;
  _ ← assert (String.eqb (typeof parent) "string")
             "Non-root scale must have parent_scale_id" ;
  bi ← prop scale "branch_index" ;
  _ ← assert (match bi with JNum n => (0 <=? n)%Z | _ => false end)
             "Branched scale must have non-negative branch_index" ;
  locked ← prop scale "positionLocked" ;
  assert (is_true locked) "Branched scale must have positionLocked=true".

End Invariants.

(** ** state/scaleStore.js *)

(** Which optional globals of [window] are loaded. *)
Record Window := {
  window_ScaleGraph : bool;
  window_Invariants : bool;
  window_CanvasStateOps : bool;
  window_FlowEditorController : bool
}.

(** The canvas state the store is initialised with: [_scales] is its
    [scales] map, so both are one object. *)
Record CanvasState (K V : Type) := {
  scales : list (K * V);
  activeScaleId : option K
}.
Arguments scales {K V} _.
Arguments activeScaleId {K V} _.

(** The store ([_canvasState], absent before [init]) and the console. *)
Record StoreState (K V : Type) := {
  _canvasState : option (CanvasState K V);
  console : list string
}.
Arguments _canvasState {K V} _.
Arguments console {K V} _.

(** The argument of [removeScalesCascade]: a [Set] or an array. *)
Inductive IdCollection (K : Type) :=
| IdSet (s : list K)
| IdArray (a : list K).
Arguments IdSet {K} s.
Arguments IdArray {K} a.

Module ScaleStore.

Section Generic.
Context {K V : Type} (keq : K → K → bool).

Definition init (canvasState : CanvasState K V) (st : StoreState K V)
  : StoreState K V :=
  {| _canvasState := Some canvasState; console := console st |}.

Definition getScale (st : StoreState K V) (scaleId : K) : option V :=
  cs ← _canvasState st; Map_get keq (scales cs) scaleId.

(** One call of the [forEach] callback of [removeScalesCascade]. *)
Definition remove_one (acc : CanvasState K V * nat) (id : K)
  : CanvasState K V * nat :=
  let '(cs, count) := acc in
  let '(scales', deleted) := Map_delete keq (scales cs) id in
  if deleted then
    ({| scales := scales';
        activeScaleId :=
          match activeScaleId cs with
          | Some a => if keq a id then None else Some a
          | None => None
          end |}, S count)
  else ({| scales := scales'; activeScaleId := activeScaleId cs |}, count).

Definition removeScalesCascade (scaleIds : IdCollection K) (st : StoreState K V)
  : StoreState K V * nat :=
  match _canvasState st with
  | None => (st, O)
  | Some cs =>
      let ids := match scaleIds with
                 | IdSet s => s
                 | IdArray a => Set_new keq a
                 end in
      let '(cs', count) := fold_left remove_one ids (cs, O) in
      ({| _canvasState := Some cs';
          console := console st ++
            ["[ScaleStore] Removed " +:+ pretty count +:+ " scales"] |},
       count)
  end.

Definition removeScale (scaleId : K) (st : StoreState K V)
  : StoreState K V * bool :=
  match _canvasState st with
  | None => (st, false)
  | Some cs =>
      let '(scales', deleted) := Map_delete keq (scales cs) scaleId in
      ({| _canvasState :=
            Some {| scales := scales';
                    activeScaleId :=
                      match activeScaleId cs with
                      | Some a => if deleted && keq a scaleId then None else Some a
                      | None => None
                      end |};
          console := console st |}, deleted)
  end.

Definition clear (st : StoreState K V) : StoreState K V :=
  match _canvasState st with
  | None => st
  | Some cs =>
      {| _canvasState := Some {| scales := []; activeScaleId := activeScaleId cs |};
         console := console st |}
  end.

End Generic.

(** [addScale] receives an unchecked object.  The state it answers is the
    state the call leaves behind, also when it throws. *)
Definition addScale (w : Window) (scale : JValue) (st : StoreState JValue JValue)
  : StoreState JValue JValue * Completion bool :=
  match _canvasState st with
  | None =>
      ({| _canvasState := None;
          console := console st ++ ["[ScaleStore] Not initialized"] |},
       Return false)
  | Some cs =>
      let checked :=
        if window_Invariants w then
          _ ← Invariants.validateScale scale ;
          root ← prop scale "is_root" ;
          if truthy root then Return tt
          else Invariants.validateBranchedScale scale
        else Return tt in
      match checked ≫= λ _, prop scale "scale_id" with
      | Throw e => (st, Throw e)
      | Return key =>
          ({| _canvasState :=
                Some {| scales := Map_set same_value_zero (scales cs) key scale;
                        activeScaleId := activeScaleId cs |};
              console := console st |}, Return true)
      end
  end.

End ScaleStore.

(** ** OpenAI scale adapter: response validation and item expansion
    (second document of [logic/scaleGraph.js]) *)

Module OpenAIScaleAdapter.

(** The object [{ valid, error?, warnings? }]. *)
Record Validation := {
  valid : bool;
  error : option JValue;
  warnings : option (list string)
}.

Definition rejected (e : JValue) : Validation :=
  {| valid := false; error := Some e; warnings := None |}.

(** The double quote character of the template literals. *)
Definition dquote : string := String (Ascii.ascii_of_nat 34) EmptyString.

(** [!v || typeof v !== 'string'] fails exactly on a non-empty string. *)
Definition as_nonempty_string (v : JValue) : option string :=
  match v with
  | JStr s => if truthy_string s then Some s else None
  | _ => None
  end.

(** [!Array.isArray(v) || v.length === 0] fails exactly on a non-empty
    array. *)
Definition as_nonempty_array (v : JValue) : option (list JValue) :=
  match v with
  | JArr (x :: l) => Some (x :: l)
  | _ => None
  end.

(** The loop [for (let j = 0; j < dim.items.length; j++)]: the message of
    the first item without text, if there is one. *)
Fixpoint validate_items (dimName : string) (j : nat) (items : list JValue)
  : Completion (option string) :=
  match items with
  | [] => Return None
  | item :: rest =>
      text ← prop item "text";
      match as_nonempty_string text with
      | None =>
          Return (Some ("Item " +:+ pretty (j + 1)%nat +:+ " in " +:+ dquote +:+
                        dimName +:+ dquote +:+ " missing text"))
      | Some _ => validate_items dimName (S j) rest
      end
  end.

(** The loop [for (let i = 0; i < gptResult.dimensions.length; i++)]: the
    message of the first failure, or the name and the items of every
    dimension, which the structure comparison reads again. *)
Fixpoint validate_dimensions (i : nat) (dims : list JValue)
  : Completion (string + list (string * list JValue)) :=
  match dims with
  | [] => Return (inr [])
  | dim :: rest =>
      dname ← prop dim "name";
      match as_nonempty_string dname with
      | None => Return (inl ("Dimension " +:+ pretty (i + 1)%nat +:+ " missing name"))
      | Some dimName =>
          ditems ← prop dim "items";
          match as_nonempty_array ditems with
          | None =>
              Return (inl ("Dimension " +:+ dquote +:+ dimName +:+ dquote +:+
                           " has no items"))
          | Some its =>
              bad ← validate_items dimName 0 its;
              match bad with
              | Some msg => Return (inl msg)
              | None =>
                  more ← validate_dimensions (S i) rest;
                  Return match more with
                         | inl msg => inl msg
                         | inr ds => inr ((dimName, its) :: ds)
                         end
              end
          end
      end
  end.

(** The loop over [Math.min(gptResult.dimensions.length,
    sourceScale.dimensions.length)] positions. *)
Fixpoint item_count_warnings (gptDims : list (string * list JValue))
    (sourceDims : list Dimension) : list string :=
  match gptDims, sourceDims with
  | gptDim :: gs, sourceDim :: ss =>
      (if bool_decide (length gptDim.2 = length (items sourceDim)) then []
       else ["Item count mismatch in dimension " +:+ dquote +:+ gptDim.1 +:+ dquote +:+
             ": expected=" +:+ pretty (length (items sourceDim)) +:+
             ", got=" +:+ pretty (length gptDim.2)])
      ++ item_count_warnings gs ss
  | _, _ => []
  end.

Definition structure_warnings (gptDims : list (string * list JValue))
    (sourceScale : option Scale) : list string :=
  match sourceScale with
  | None => []
  | Some src =>
      (if bool_decide (length gptDims = length (dimensions src)) then []
       else ["Dimension count mismatch: expected=" +:+
             pretty (length (dimensions src)) +:+
             ", got=" +:+ pretty (length gptDims)])
      ++ item_count_warnings gptDims (dimensions src)
  end.

Definition validateAdaptScaleResponse (gptResult : JValue) (sourceScale : option Scale)
  : Completion Validation :=
  if negb (truthy gptResult) then Return (rejected (JStr "No response")) else
  err ← prop gptResult "error";
  if truthy err then Return (rejected err) else
  sname ← prop gptResult "scale_name";
  match as_nonempty_string sname with
  | None => Return (rejected (JStr "Missing scale_name"))
  | Some _ =>
      dims ← prop gptResult "dimensions";
      match as_nonempty_array dims with
      | None => Return (rejected (JStr "Missing or empty dimensions"))
      | Some ds =>
          checked ← validate_dimensions 0 ds;
          match checked with
          | inl msg => Return (rejected (JStr msg))
          | inr gptDims =>
              let warnings := structure_warnings gptDims sourceScale in
              Return {| valid := true; error := None;
                        warnings := match warnings with
                                    | [] => None
                                    | _ :: _ => Some warnings
                                    end |}
          end
      end
  end.

(** A validated adaptation, as [expandWithRubrics] receives it:
    [{ name, items: [{ text, current_rubric? }] }]. *)
Record GptItem := {
  gpt_text : string;
  gpt_current_rubric : option (list string)
}.

Record GptDimension := { gpt_name : string; gpt_items : list GptItem }.

(** The callback of [dim.items.map]; [itemCounter] is threaded through.
    The [baseline_rubric] of a source item is an array, hence truthy, so
    ["Mock Rubric"] is taken only when there is no source item; an
    [item_id] is falsy when it is the empty string. *)
Definition expand_item (scaleId dimName : string) (sourceItems : list Item)
    (itemCounter : nat) (itemIndex : nat) (item : GptItem) : Item * nat :=
  let sourceItem := sourceItems !! itemIndex in
  let baseline :=
    match sourceItem with
    | Some si => baseline_rubric si
    | None => ["Mock Rubric"]
    end in
  let current :=
    match gpt_current_rubric item with
    | Some (tag :: tags) => tag :: tags
    | Some [] | None => baseline
    end in
  ({| item_id := scaleId +:+ "-item-" +:+ pretty itemCounter;
      origin_item_id :=
        match sourceItem with
        | Some si => if truthy_string (item_id si) then item_id si else "unknown"
        | None => "unknown"
        end;
      text := gpt_text item;
      baseline_rubric := baseline;
      current_rubric := current;
      dimension := dimName;
      rubric_source :=
        Some match gpt_current_rubric item with
             | Some _ => "gpt"
             | None => "parent"
             end |},
   S itemCounter).

Fixpoint expand_items (scaleId dimName : string) (sourceItems : list Item)
    (itemCounter : nat) (itemIndex : nat) (gptItems : list GptItem)
  : list Item * nat :=
  match gptItems with
  | [] => ([], itemCounter)
  | item :: rest =>
      let '(it, c1) := expand_item scaleId dimName sourceItems itemCounter itemIndex item in
      let '(its, c2) := expand_items scaleId dimName sourceItems c1 (S itemIndex) rest in
      (it :: its, c2)
  end.

(** The callback of [gptDimensions.map]. *)
Fixpoint expand_dimensions (scaleId : string) (sourceDimensions : list Dimension)
    (itemCounter : nat) (dimIndex : nat) (gptDimensions : list GptDimension)
  : list Dimension * nat :=
  match gptDimensions with
  | [] => ([], itemCounter)
  | dim :: rest =>
      let sourceItems :=
        match sourceDimensions !! dimIndex with
        | Some sd => items sd
        | None => []
        end in
      let '(its, c1) :=
        expand_items scaleId (gpt_name dim) sourceItems itemCounter 0 (gpt_items dim) in
      let '(ds, c2) :=
        expand_dimensions scaleId sourceDimensions c1 (S dimIndex) rest in
      ({| name := gpt_name dim; items := its |} :: ds, c2)
  end.

Definition expandWithRubrics (gptDimensions : list GptDimension) (scaleId : string)
    (sourceDimensions : list Dimension) : list Dimension :=
  (expand_dimensions scaleId sourceDimensions 1 0 gptDimensions).1.

(** The object [{ valid, isValidScale?, rejectionReason?, error? }] of the
    validation of a CSV structuring response. *)
Record StructureValidation := {
  sv_valid : bool;
  sv_isValidScale : option bool;
  sv_rejectionReason : option JValue;
  sv_error : option string
}.

(** [v === false]. *)
Definition is_false (v : JValue) : bool :=
  match v with JBool false => true | _ => false end.

Definition validateStructureCSVResponse (gptResult : JValue)
  : Completion StructureValidation :=
  if negb (truthy gptResult) then
    Return {| sv_valid := false; sv_isValidScale := None;
              sv_rejectionReason := None; sv_error := Some "No response" |}
  else
  isValid ← prop gptResult "is_valid_scale";
  if is_false isValid then
    reason ← prop gptResult "rejection_reason";
    Return {| sv_valid := true; sv_isValidScale := Some false;
              sv_rejectionReason :=
                Some (if truthy reason then reason else JStr "Invalid scale data");
              sv_error := None |}
  else
  sname ← prop gptResult "scale_name";
  match as_nonempty_string sname with
  | None =>
      Return {| sv_valid := false; sv_isValidScale := None;
                sv_rejectionReason := None; sv_error := Some "Missing scale_name" |}
  | Some _ =>
      dims ← prop gptResult "dimensions";
      if negb (isArray dims) then
        Return {| sv_valid := false; sv_isValidScale := None;
                  sv_rejectionReason := None;
                  sv_error := Some "Missing dimensions array" |}
      else
        Return {| sv_valid := true; sv_isValidScale := Some true;
                  sv_rejectionReason := None; sv_error := None |}
  end.

End OpenAIScaleAdapter.

(** ** Scale assembler *)

Module ScaleAssembler.
Import OpenAIScaleAdapter.

(** The callback of [dim.items.map] in [expandDimensionsBasic]:
    [item.current_rubric || baseline] takes any supplied array, also an
    empty one. *)
Definition basic_item (scaleId dimName : string) (sourceItems : list Item)
    (itemCounter : nat) (itemIndex : nat) (item : GptItem) : Item * nat :=
  let sourceItem := sourceItems !! itemIndex in
  let baseline :=
    match sourceItem with
    | Some si => baseline_rubric si
    | None => ["Placeholder"]
    end in
  ({| item_id := scaleId +:+ "-item-" +:+ pretty itemCounter;
      origin_item_id :=
        match sourceItem with
        | Some si => if truthy_string (item_id si) then item_id si else "unknown"
        | None => "unknown"
        end;
      text := gpt_text item;
      baseline_rubric := baseline;
      current_rubric := default baseline (gpt_current_rubric item);
      dimension := dimName;
      rubric_source :=
        Some match gpt_current_rubric item with
             | Some _ => "gpt"
             | None => "parent"
             end |},
   S itemCounter).

Fixpoint basic_items (scaleId dimName : string) (sourceItems : list Item)
    (itemCounter : nat) (itemIndex : nat) (gptItems : list GptItem)
  : list Item * nat :=
  match gptItems with
  | [] => ([], itemCounter)
  | item :: rest =>
      let '(it, c1) := basic_item scaleId dimName sourceItems itemCounter itemIndex item in
      let '(its, c2) := basic_items scaleId dimName sourceItems c1 (S itemIndex) rest in
      (it :: its, c2)
  end.

Fixpoint basic_dimensions (scaleId : string) (sourceDimensions : list Dimension)
    (itemCounter : nat) (dimIndex : nat) (gptDimensions : list GptDimension)
  : list Dimension * nat :=
  match gptDimensions with
  | [] => ([], itemCounter)
  | dim :: rest =>
      let sourceItems :=
        match sourceDimensions !! dimIndex with
        | Some sd => items sd
        | None => []
        end in
      let '(its, c1) :=
        basic_items scaleId (gpt_name dim) sourceItems itemCounter 0 (gpt_items dim) in
      let '(ds, c2) :=
        basic_dimensions scaleId sourceDimensions c1 (S dimIndex) rest in
      ({| name := gpt_name dim; items := its |} :: ds, c2)
  end.

Definition expandDimensionsBasic (gptDimensions : list GptDimension) (scaleId : string)
    (sourceDimensions : list Dimension) : list Dimension :=
  (basic_dimensions scaleId sourceDimensions 1 0 gptDimensions).1.

(** A validated response [{ scale_name, dimensions }]. *)
Record GptResult := {
  gpt_scale_name : string;
  gpt_dimensions : list GptDimension
}.

(** [adapterLoaded] is whether [window.OpenAIScaleAdapter] is there. *)
Definition assembleNewScale (adapterLoaded : bool) (gptResult : GptResult)
    (sourceScale : Scale) (position : BranchPositioning.BranchPosition)
    (scaleId : string) : Scale :=
  let expandedDimensions :=
    if adapterLoaded
    then expandWithRubrics (gpt_dimensions gptResult) scaleId (dimensions sourceScale)
    else expandDimensionsBasic (gpt_dimensions gptResult) scaleId (dimensions sourceScale) in
  {| scale_id := scaleId;
     scale_name := gpt_scale_name gptResult;
     parent_scale_id := Some (scale_id sourceScale);
     is_root := false;
     expanded := false;
     depth := Some (BranchPositioning.bp_depth position);
     branch_index := Some (BranchPositioning.bp_branch_index position);
     position := Some {| pos_x := BranchPositioning.bp_x position;
                         pos_y := BranchPositioning.bp_y position |};
     positionLocked := Some true;
     dimensions := expandedDimensions |}.

Definition generateBranchId (parentScaleId : string) (branchNumber : nat) : string :=
  parentScaleId +:+ "-branch-" +:+ pretty branchNumber.

End ScaleAssembler.

(** ** Controllers *)

(** What controller code does besides computing: the calls of
    [ScaleGraph.buildCascadeDeleteSet] it makes and its dialogs. *)
Inductive Effect :=
| CascadeSetBuilt (targetId : string)
| Alert (message : string)
| Confirm (message : string)
| ClosePopup
| Render
| Log (message : string).

(** A run of controller code: its effects in order and how it completes;
    no completion when a loop used up its passes. *)
Record Run (A : Type) := mkRun {
  effects : list Effect;
  completion : option (Completion A)
}.
Arguments mkRun {A} _ _.
Arguments effects {A} _.
Arguments completion {A} _.

#[global] Instance Run_ret : MRet Run := λ A a, mkRun [] (Some (Return a)).

#[global] Instance Run_bind : MBind Run :=
  λ A B f m,
    match completion m with
    | Some (Return a) => mkRun (effects m ++ effects (f a)) (completion (f a))
    | Some (Throw e) => mkRun (effects m) (Some (Throw e))
    | None => mkRun (effects m) None
    end.

Definition emit (e : Effect) : Run unit := mkRun [e] (Some (Return tt)).

Definition raise {A : Type} (e : string) : Run A := mkRun [] (Some (Throw e)).

(** A call of [window.ScaleGraph.buildCascadeDeleteSet]. *)
Definition call_buildCascadeDeleteSet (scales : list (string * Scale))
    (scaleId : string) : Run (list string) :=
  mkRun [CascadeSetBuilt scaleId]
        (Return <$> ScaleGraph.buildCascadeDeleteSet scales scaleId).

Module CanvasStateOps.

Definition removeScales (scales : list (string * Scale))
    (scaleIds : IdCollection string) : list (string * Scale) :=
  let ids := match scaleIds with
             | IdSet s => s
             | IdArray a => Set_new String.eqb a
             end in
  fold_left (λ m id, (Map_delete String.eqb m id).1) ids scales.

Definition clearActiveScaleIfDeleted (activeScaleId : option string)
    (deletedIds : IdCollection string) : option string :=
  let ids := match deletedIds with
             | IdSet s => s
             | IdArray a => Set_new String.eqb a
             end in
  match activeScaleId with
  | Some a => if truthy_string a && Set_has String.eqb ids a then None else Some a
  | None => None
  end.

(** [addScale(scales, scale)]: the map it leaves and what it writes to
    the console.  An object is truthy, so [!scale] holds of [null]
    only. *)
Definition addScale (scales : list (string * Scale)) (scale : option Scale)
  : list (string * Scale) * list string :=
  match scale with
  | Some s =>
      if truthy_string (scale_id s)
      then (Map_set String.eqb scales (scale_id s) s, [])
      else (scales, ["[CanvasStateOps] Cannot add scale without scale_id"])
  | None => (scales, ["[CanvasStateOps] Cannot add scale without scale_id"])
  end.

End CanvasStateOps.

Module FlowEditorController.

(** [{ canDelete: false, error }] or [{ canDelete: true, toDelete, count }]. *)
Inductive PrepareDelete :=
| CannotDelete (error : string)
| CanDelete (toDelete : list string) (count : nat).

Definition prepareDelete (w : Window) (scaleId : string)
    (scales : list (string * Scale)) : Run PrepareDelete :=
  if negb (truthy_string scaleId) then mret (CannotDelete "no_scale_id") else
  match Map_get String.eqb scales scaleId with
  | None => mret (CannotDelete "scale_not_found")
  | Some scale =>
      if is_root scale then mret (CannotDelete "root_protected") else
      toDelete ← (if window_ScaleGraph w
                   then call_buildCascadeDeleteSet scales scaleId
                   else mret (Set_new String.eqb [scaleId]));
      mret (CanDelete toDelete (length toDelete))
  end.

(** [executeDelete(toDelete, scales, canvasState, renderFn)], called with
    the canvas state and its own [scales] map. *)
Definition executeDelete (w : Window) (toDelete : list string)
    (cs : CanvasState string Scale) (renderFn : bool)
  : Run (CanvasState string Scale) :=
  let cs' :=
    if window_CanvasStateOps w then
      {| scales := CanvasStateOps.removeScales (scales cs) (IdSet toDelete);
         activeScaleId :=
           CanvasStateOps.clearActiveScaleIfDeleted (activeScaleId cs) (IdSet toDelete) |}
    else
      fold_left
        (λ c id,
           {| scales := (Map_delete String.eqb (scales c) id).1;
              activeScaleId :=
                match activeScaleId c with
                | Some a => if String.eqb a id then None else Some a
                | None => None
                end |})
        toDelete cs in
  _ ← emit (Log ("[FlowEditorController] Deleted " +:+ pretty (length toDelete) +:+
                 " scales via cascade."));
  _ ← (if renderFn then emit Render else mret tt);
  mret cs'.

End FlowEditorController.

Module FlowController.

(** The three shapes of the answer of [handleDeleteScale]:
    [{ deleted: false, count: 0 }], the same with an [error], and the
    pending deletion [{ deleted: false, count, toDelete, execute }]. *)
Inductive DeleteHandle (S : Type) :=
| NothingToDelete
| DeleteRefused (error : string)
| DeletePending (count : nat) (toDelete : list string)
                (execute : S → S * (bool * nat)).
Arguments NothingToDelete {S}.
Arguments DeleteRefused {S} error.
Arguments DeletePending {S} count toDelete execute.

Definition handleDeleteScale {S : Type} (w : Window) (scaleId : string)
    (scales : list (string * Scale)) (deleteScaleFn : string → S → S)
    (renderFn : option (S → S)) : Run (DeleteHandle S) :=
  if negb (truthy_string scaleId) then mret NothingToDelete else
  match Map_get String.eqb scales scaleId with
  | None => mret NothingToDelete
  | Some scale =>
      if is_root scale then mret (DeleteRefused "root_protected") else
      toDelete ← (if window_ScaleGraph w
                   then call_buildCascadeDeleteSet scales scaleId
                   else raise "TypeError");
      let count := length toDelete in
      mret (DeletePending count toDelete
              (λ st,
                 let st' := fold_left (λ s id, deleteScaleFn id s) toDelete st in
                 (match renderFn with Some render => render st' | None => st' end,
                  (true, count))))
  end.

(** [assembleBranch(sourceScaleId, gptResult, scales)], with the graph,
    layout and assembler modules loaded; [null] when the source is not
    there.  [adapterLoaded] is passed on to the assembler. *)
Definition assembleBranch (adapterLoaded : bool) (sourceScaleId : string)
    (gptResult : ScaleAssembler.GptResult) (scales : list (string * Scale))
  : option Scale :=
  match Map_get String.eqb scales sourceScaleId with
  | None => None
  | Some sourceScale =>
      let branchCount := ScaleGraph.countBranches scales sourceScaleId None in
      let position :=
        BranchPositioning.getNextBranchPosition (Some sourceScale)
          (Z.of_nat branchCount) BranchPositioning.LAYOUT_CONSTANTS in
      let newScaleId :=
        sourceScaleId +:+ "-branch-" +:+ pretty (branchCount + 1)%nat in
      Some (ScaleAssembler.assembleNewScale adapterLoaded gptResult sourceScale
              position newScaleId)
  end.

End FlowController.

(** The delete flow of the flow editor ([handleDeleteScale] of the
    application logic): prepare, confirm, execute.  [confirm] is the
    answer of the user to the dialog. *)
Module FlowEditor.

Definition handleDeleteScale (w : Window) (confirm : string → bool)
    (scaleId : string) (cs : CanvasState string Scale)
  : Run (CanvasState string Scale) :=
  if negb (truthy_string scaleId) then mret cs else
  prep ← (if window_FlowEditorController w
           then FlowEditorController.prepareDelete w scaleId (scales cs)
           else mret (FlowEditorController.CannotDelete "controller_not_found"));
  match prep with
  | FlowEditorController.CannotDelete error =>
      _ ← (if String.eqb error "root_protected"
            then emit (Alert "Skala utama (Root) tidak dapat dihapus.")
            else mret tt);
      mret cs
  | FlowEditorController.CanDelete toDelete count =>
      let message :=
        if (1 <? count)%nat
        then "Apakah Anda yakin ingin menghapus skala ini dan " +:+
             pretty (count - 1)%nat +:+ " turunannya?"
        else "Apakah Anda yakin ingin menghapus skala ini?" in
      _ ← emit (Confirm message);
      if negb (confirm message) then mret cs else
      _ ← emit ClosePopup;
      if window_FlowEditorController w
      then FlowEditorController.executeDelete w toDelete cs true
      else mret cs
  end.

End FlowEditor.

(** ** Predicates of the statements *)

(** Parent closure in the words of the specification: every scale whose
    [is_root] flag is not set names, in its [parent_scale_id], a key of
    the collection. *)
Definition parents_present (scales : list (string * Scale)) : bool :=
  forallb
    (λ e, is_root e.2 ||
          match parent_scale_id e.2 with
          | Some p => Map_has String.eqb scales p
          | None => false
          end)
    scales.

(** The same under the classification of the code: every scale that
    [isRoot] does not class as a root names a parent that is a key of the
    collection.  A scale without the flag whose [parent_scale_id] is
    [null] or empty is exempt here, and is not in [parents_present]. *)
Definition parent_closed (scales : list (string * Scale)) : bool :=
  forallb
    (λ e, ScaleGraph.isRoot (Some e.2) ||
          match parent_scale_id e.2 with
          | Some p => Map_has String.eqb scales p
          | None => false
          end)
    scales.

(** ** Example data *)

(** A scale reduced to what the graph reads: its id, parent and root flag,
    at a position. *)
Definition example_scale (id : string) (parent : option string) (root : bool)
    (px py : Z) : Scale :=
  {| scale_id := id; scale_name := id; parent_scale_id := parent;
     is_root := root; expanded := false;
     depth := Some 0%Z; branch_index := None;
     position := Some {| pos_x := px; pos_y := py |};
     positionLocked := None; dimensions := [] |}.

(** The chain root → A → B → C of the specification, with a second
    branch of the root. *)
Definition example_chain : list (string * Scale) :=
  [ ("root", example_scale "root" None true 100 250);
    ("A", example_scale "A" (Some "root") false 650 46);
    ("boomer", example_scale "boomer" (Some "root") false 650 454);
    ("B", example_scale "B" (Some "A") false 1200 46);
    ("C", example_scale "C" (Some "B") false 1750 46) ].

(** Parent links that form a cycle, and one that names an absent scale. *)
Definition example_cycle : list (string * Scale) :=
  [ ("a", example_scale "a" (Some "b") false 0 0);
    ("b", example_scale "b" (Some "a") false 0 0);
    ("c", example_scale "c" (Some "gone") false 0 0) ].

(** Two scales without a parent, one of them not flagged as root. *)
Definition example_two_roots : list (string * Scale) :=
  [ ("a", example_scale "a" None true 0 0);
    ("b", example_scale "b" None false 0 0);
    ("c", example_scale "c" (Some "a") false 0 0) ].

(** Every optional global loaded; the store in strict mode. *)
Definition window_loaded : Window :=
  {| window_ScaleGraph := true; window_Invariants := true;
     window_CanvasStateOps := true; window_FlowEditorController := true |}.

(** A scale stored under the empty id, below the root, with a child and
    a grandchild. *)
Definition example_under_empty_id : list (string * Scale) :=
  [ ("root", example_scale "root" None true 100 250);
    ("", example_scale "" (Some "root") false 650 46);
    ("x", example_scale "x" (Some "") false 1200 46);
    ("y", example_scale "y" (Some "x") false 1750 46) ].

(** A collection whose root is stored under the empty id. *)
Definition example_empty_id : list (string * Scale) :=
  [ ("", example_scale "" None true 100 250) ].

(** An initialised, empty store of unchecked objects. *)
Definition example_store : StoreState JValue JValue :=
  {| _canvasState := Some {| scales := []; activeScaleId := None |};
     console := [] |}.


(** The source item at dimension [d], position [j]. *)
Definition source_item (sourceDimensions : list Dimension) (d j : nat) : option Item :=
  sd ← sourceDimensions !! d; items sd !! j.

(** A source dimension with two items, the second without an id. *)
Definition example_source : list Dimension :=
  [ {| name := "Optimisme";
       items :=
         [ {| item_id := "8"; origin_item_id := "8";
              text := "Saya merasa optimis tentang masa depan saya";
              baseline_rubric := ["Optimisme"; "Merasa"];
              current_rubric := ["Optimisme"; "Merasa"];
              dimension := "Optimisme"; rubric_source := None |};
           {| item_id := ""; origin_item_id := "9";
              text := "Saya merasa memiliki tujuan hidup yang jelas";
              baseline_rubric := ["Tujuan hidup"];
              current_rubric := ["Tujuan hidup"];
              dimension := "Optimisme"; rubric_source := None |} ] |} ].

(** An adaptation of it: tags supplied, an empty list of tags, no tags. *)
Definition example_adaptation : list OpenAIScaleAdapter.GptDimension :=
  [ {| OpenAIScaleAdapter.gpt_name := "Optimisme";
       OpenAIScaleAdapter.gpt_items :=
         [ {| OpenAIScaleAdapter.gpt_text := "Aku optimis soal masa depan";
              OpenAIScaleAdapter.gpt_current_rubric := Some ["Optimisme"; "Masa depan"] |};
           {| OpenAIScaleAdapter.gpt_text := "Aku punya tujuan hidup";
              OpenAIScaleAdapter.gpt_current_rubric := Some [] |};
           {| OpenAIScaleAdapter.gpt_text := "Aku siap mencoba";
              OpenAIScaleAdapter.gpt_current_rubric := None |} ] |} ].

(** *** The required shape of an adaptation, in the words of the
    specification *)

(** The field [k] of [v], [undefined] when there is none. *)
Definition field (v : JValue) (k : string) : JValue :=
  match prop v k with
  | Return x => x
  | Throw _ => JUndefined
  end.

Definition nonempty_array (v : JValue) : bool :=
  match v with JArr (_ :: _) => true | _ => false end.

Definition elements (v : JValue) : list JValue :=
  match v with JArr l => l | _ => [] end.

(** An item has a non-empty string [text]. *)
Definition item_ok (item : JValue) : bool := nonempty_string (field item "text").

(** A dimension has a non-empty string [name] and a non-empty list
    [items] of such items. *)
Definition dimension_ok (dim : JValue) : bool :=
  nonempty_string (field dim "name") &&
  nonempty_array (field dim "items") &&
  forallb item_ok (elements (field dim "items")).

(** A payload has a non-empty string [scale_name] and a non-empty list
    [dimensions] of such dimensions. *)
Definition required_fields_ok (p : JValue) : bool :=
  nonempty_string (field p "scale_name") &&
  nonempty_array (field p "dimensions") &&
  forallb dimension_ok (elements (field p "dimensions")).

Inductive Field := F_scale_name | F_dimensions | F_name | F_items | F_text.

(** The diagnostics of the validator and the field each one names. *)
Inductive FieldDiagnostic : Field → string → Prop :=
| diagnostic_scale_name : FieldDiagnostic F_scale_name "Missing scale_name"
| diagnostic_dimensions : FieldDiagnostic F_dimensions "Missing or empty dimensions"
| diagnostic_name (i : nat) :
    FieldDiagnostic F_name ("Dimension " +:+ pretty i +:+ " missing name")
| diagnostic_items (dimName : string) :
    FieldDiagnostic F_items
      ("Dimension " +:+ OpenAIScaleAdapter.dquote +:+ dimName +:+
       OpenAIScaleAdapter.dquote +:+ " has no items")
| diagnostic_text (j : nat) (dimName : string) :
    FieldDiagnostic F_text
      ("Item " +:+ pretty j +:+ " in " +:+ OpenAIScaleAdapter.dquote +:+ dimName +:+
       OpenAIScaleAdapter.dquote +:+ " missing text").

(** Field [f] is missing or mistyped somewhere in the dimensions [dims]. *)
Definition offending_in (dims : list JValue) (f : Field) : Prop :=
  match f with
  | F_name => ∃ dim, dim ∈ dims ∧ nonempty_string (field dim "name") = false
  | F_items => ∃ dim, dim ∈ dims ∧ nonempty_array (field dim "items") = false
  | F_text =>
      ∃ dim item, dim ∈ dims ∧ item ∈ elements (field dim "items") ∧
                  item_ok item = false
  | F_scale_name | F_dimensions => False
  end.

(** Field [f] is missing or mistyped somewhere in the payload [p]. *)
Definition offending (p : JValue) (f : Field) : Prop :=
  match f with
  | F_scale_name => nonempty_string (field p "scale_name") = false
  | F_dimensions => nonempty_array (field p "dimensions") = false
  | F_name | F_items | F_text => offending_in (elements (field p "dimensions")) f
  end.

Definition defined (v : JValue) : bool :=
  match v with JUndefined | JNull => false | _ => true end.

(** No entry of a list of dimensions, and no entry of their [items], is
    [null]. *)
Definition all_defined (dims : list JValue) : bool :=
  forallb (λ dim, defined dim && forallb defined (elements (field dim "items"))) dims.

Definition entries_defined (p : JValue) : bool :=
  all_defined (elements (field p "dimensions")).

Definition item_count (dim : JValue) : nat := length (elements (field dim "items")).

(** The payload has another number of dimensions than the source scale,
    or a dimension with another number of items than the source
    dimension at its position. *)
Definition structure_differs (p : JValue) (src : Scale) : Prop :=
  length (elements (field p "dimensions")) ≠ length (dimensions src) ∨
  ∃ i dim sd,
    elements (field p "dimensions") !! i = Some dim ∧
    dimensions src !! i = Some sd ∧
    item_count dim ≠ length (items sd).

(** A well-formed adaptation that also carries an [error] field. *)
Definition payload_with_error : JValue :=
  JObj [ ("error", JStr "rate limited");
         ("scale_name", JStr "Skala Gen-Z");
         ("dimensions",
          JArr [ JObj [ ("name", JStr "Optimisme");
                        ("items", JArr [ JObj [("text", JStr "Aku optimis")] ]) ] ]) ].

(** A well-formed adaptation with one dimension of one item. *)
Definition payload_valid : JValue :=
  JObj [ ("scale_name", JStr "Skala Gen-Z");
         ("dimensions",
          JArr [ JObj [ ("name", JStr "Optimisme");
                        ("items", JArr [ JObj [("text", JStr "Aku optimis")] ]) ] ]) ].

(** ** services/gptScaleService.js *)

Module GPTScaleService.
Import OpenAIScaleAdapter.

(** The validation [adaptScale] falls back on when the adapter is not
    loaded. *)
Definition validateBasic (gptResult : JValue) : Completion Validation :=
  if negb (truthy gptResult) then Return (rejected (JStr "No response")) else
  sname ← prop gptResult "scale_name";
  if negb (truthy sname) then Return (rejected (JStr "Missing scale_name")) else
  dims ← prop gptResult "dimensions";
  if negb (isArray dims) then Return (rejected (JStr "Missing dimensions")) else
  Return {| valid := true; error := None; warnings := None |}.

End GPTScaleService.

(** ** adapters/csvIngest.js *)

Module CsvIngest.

Definition quote_char : Ascii.ascii := Ascii.ascii_of_nat 34.

(** The default delimiter, and the line feed. *)
Definition comma : Ascii.ascii := Ascii.ascii_of_nat 44.
Definition line_feed : Ascii.ascii := Ascii.ascii_of_nat 10.

(** The loop of [parseCSVLine] over the characters left of the line;
    an escaped quote takes two characters. *)
Fixpoint parse_chars (delimiter : Ascii.ascii) (line : string)
    (result : list string) (current : string) (inQuotes : bool) {struct line}
  : list string :=
  match line with
  | EmptyString => result ++ [current]
  | String char rest =>
      if Ascii.eqb char quote_char then
        match rest with
        | String next rest' =>
            if inQuotes && Ascii.eqb next quote_char
            then parse_chars delimiter rest' result
                   (current +:+ String quote_char EmptyString) inQuotes
            else parse_chars delimiter rest result current (negb inQuotes)
        | EmptyString => parse_chars delimiter rest result current (negb inQuotes)
        end
      else if Ascii.eqb char delimiter && negb inQuotes then
        parse_chars delimiter rest (result ++ [current]) EmptyString inQuotes
      else
        parse_chars delimiter rest result
          (current +:+ String char EmptyString) inQuotes
  end.

Definition parseCSVLine (line : string) (delimiter : Ascii.ascii) : list string :=
  parse_chars delimiter line [] EmptyString false.

(** [inferItemText], over [Object.values(item)]. *)
Definition inferItemText (values : list JValue) : string :=
  fold_left
    (λ longestText value,
       match value with
       | JStr s =>
           if (utf16_length longestText <? utf16_length s)%nat
              && (10 <? utf16_length s)%nat
           then s else longestText
       | _ => longestText
       end)
    values EmptyString.

End CsvIngest.

(** ** CSV export of the application logic *)

Module CsvExport.
Import CsvIngest.

(** [Array.prototype.join]. *)
Fixpoint join (sep : string) (cells : list string) : string :=
  match cells with
  | [] => EmptyString
  | [cell] => cell
  | cell :: rest => cell +:+ sep +:+ join sep rest
  end.

(** [s.includes(c)] for a single character. *)
Fixpoint includes (c : Ascii.ascii) (s : string) : bool :=
  match s with
  | EmptyString => false
  | String x rest => Ascii.eqb x c || includes c rest
  end.

(** The global [replace] of the export: every quote character is doubled. *)
Fixpoint double_quotes (s : string) : string :=
  match s with
  | EmptyString => EmptyString
  | String x rest =>
      if Ascii.eqb x quote_char
      then String quote_char (String quote_char (double_quotes rest))
      else String x (double_quotes rest)
  end.

Definition quoted (cell : string) : string :=
  String quote_char (double_quotes cell +:+ String quote_char EmptyString).

(** One row of [downloadCSV]: every cell quoted. *)
Definition downloadCSV_row (row : list string) : string :=
  join "," (map quoted row).

(** One data row of [convertToCSV], its values in column order: a value
    is quoted when it holds a comma, a quote or a line feed. *)
Definition convertToCSV_row (values : list string) : string :=
  join ","
    (map (λ value,
            if includes comma value || includes quote_char value
               || includes line_feed value
            then quoted value else value)
         values).

(** How the export writes a cell: quoted, or as it is when it holds no
    quote and no delimiter. *)
Definition written (d : Ascii.ascii) (cell encoded : string) : Prop :=
  encoded = quoted cell ∨
  (encoded = cell ∧ includes quote_char cell = false ∧ includes d cell = false).

End CsvExport.

(** * Properties *)

(** ** The cascade delete set *)

Section CascadeFacts.
Import ScaleGraph.

Lemma has_spec (s : list string) (x : string) : has s x = true ↔ x ∈ s.
Proof.
  unfold has, Set_has. rewrite existsb_exists. split.
  - intros (y & Hy & Heq). apply String.eqb_eq in Heq. subst y.
    by apply list_elem_of_In.
  - intros Hx. exists x. split; [by apply list_elem_of_In | apply String.eqb_refl].
Qed.

Lemma has_false (s : list string) (x : string) : has s x = false ↔ x ∉ s.
Proof.
  rewrite <- has_spec. destruct (has s x); split; intros; congruence.
Qed.

Lemma add_spec (s : list string) (x y : string) : y ∈ add s x ↔ y ∈ s ∨ y = x.
Proof.
  unfold add, Set_add. fold (has s x). destruct (has s x) eqn:Hx.
  - apply has_spec in Hx. split; [auto | intros [H | ->]; done].
  - rewrite elem_of_app, list_elem_of_singleton. tauto.
Qed.

Lemma add_NoDup (s : list string) (x : string) : NoDup s → NoDup (add s x).
Proof.
  intros Hs. unfold add, Set_add. fold (has s x). destruct (has s x) eqn:Hx; [done |].
  apply has_false in Hx. apply NoDup_app. split; [done |]. split.
  - intros y Hy Hy'. apply list_elem_of_singleton in Hy'. by subst y.
  - apply NoDup_singleton.
Qed.

Lemma add_length_fresh (s : list string) (x : string) :
  has s x = false → length (add s x) = S (length s).
Proof.
  intros Hx. unfold add, Set_add. fold (has s x). rewrite Hx, length_app. simpl. lia.
Qed.

Lemma parent_link_Some (s : Scale) (p : string) :
  parent_link s = Some p ↔ parent_scale_id s = Some p ∧ truthy_string p = true.
Proof.
  unfold parent_link, truthy_id. destruct (parent_scale_id s) as [q |].
  - destruct (truthy_string q) eqn:Hq.
    + split; [intros [= ->]; done | intros [[= ->] _]; done].
    + split; [done | intros [[= ->] Hp]; congruence].
  - split; [done | intros [? _]; done].
Qed.

Lemma cascade_guard_true (td : list string) (sId : string) (s : Scale) :
  cascade_guard td sId s = true ↔
  (sId ∉ td) ∧ (∃ p, parent_link s = Some p ∧ p ∈ td).
Proof.
  unfold cascade_guard. rewrite andb_true_iff, negb_true_iff, has_false.
  split.
  - intros [Hn Hp]. split; [done |].
    destruct (parent_scale_id s) as [p |] eqn:Hps; [| done].
    apply andb_true_iff in Hp as [Ht Hh]. exists p. split.
    + apply parent_link_Some. by rewrite Hps.
    + by apply has_spec.
  - intros [Hn (p & Hl & Hp)]. split; [done |].
    apply parent_link_Some in Hl as [-> Ht]. rewrite Ht. simpl. by apply has_spec.
Qed.

Lemma cascade_guard_false (td : list string) (sId : string) (s : Scale) (p : string) :
  cascade_guard td sId s = false → parent_link s = Some p → p ∈ td → sId ∈ td.
Proof.
  intros Hg Hl Hp. destruct (decide (sId ∈ td)) as [| Hn]; [done |].
  assert (cascade_guard td sId s = true) as Ht; [| congruence].
  apply cascade_guard_true. eauto.
Qed.

(** What one visit of the scan does to [toDelete] and [modified]. *)
Lemma cascade_visit_cases (td : list string) (m : bool) (e : string * Scale) :
  (cascade_guard td e.1 e.2 = true ∧ cascade_visit (td, m) e = (add td e.1, true)) ∨
  (cascade_guard td e.1 e.2 = false ∧ cascade_visit (td, m) e = (td, m)).
Proof.
  unfold cascade_visit. simpl. destruct (cascade_guard td e.1 e.2); auto.
Qed.

Lemma scan_grows (l : list (string * Scale)) (td : list string) (m : bool) :
  let r := fold_left cascade_visit l (td, m) in
  (∀ x, x ∈ td → x ∈ r.1) ∧ (NoDup td → NoDup r.1) ∧
  (length td ≤ length r.1)%nat ∧ (m = true → r.2 = true).
Proof.
  revert td m. induction l as [| e l IH]; intros td m; simpl; [auto |].
  destruct (cascade_visit_cases td m e) as [[Hg ->] | [Hg ->]].
  - destruct (IH (add td e.1) true) as (H1 & H2 & H3 & H4).
    apply cascade_guard_true in Hg as [Hn _]. apply has_false in Hn.
    rewrite (add_length_fresh _ _ Hn) in H3.
    split; [| split; [| split]].
    + intros x Hx. apply H1, add_spec. auto.
    + intros Hnd. by apply H2, add_NoDup.
    + lia.
    + auto.
  - apply IH.
Qed.

(** A pass that leaves [modified] false changed nothing, and no entry
    passed the guard. *)
Lemma scan_unmodified (l : list (string * Scale)) (td : list string) :
  let r := fold_left cascade_visit l (td, false) in
  r.2 = false → r.1 = td ∧ ∀ e, e ∈ l → cascade_guard td e.1 e.2 = false.
Proof.
  revert td. induction l as [| e l IH]; intros td; simpl.
  - intros _. split; [done |]. intros e He. by apply elem_of_nil in He.
  - destruct (cascade_visit_cases td false e) as [[Hg ->] | [Hg ->]].
    + intros Hr. destruct (scan_grows l (add td e.1) true) as (_ & _ & _ & H4).
      simpl in H4. rewrite H4 in Hr; done.
    + intros Hr. destruct (IH td Hr) as [H1 H2]. split; [done |].
      intros e' He'. apply elem_of_cons in He' as [-> | He']; auto.
Qed.

(** A pass that sets [modified] made the set strictly larger. *)
Lemma scan_modified (l : list (string * Scale)) (td : list string) :
  let r := fold_left cascade_visit l (td, false) in
  r.2 = true → (length td < length r.1)%nat.
Proof.
  revert td. induction l as [| e l IH]; intros td; simpl; [done |].
  destruct (cascade_visit_cases td false e) as [[Hg ->] | [Hg ->]].
  - intros _. destruct (scan_grows l (add td e.1) true) as (_ & _ & H3 & _).
    simpl in H3. apply cascade_guard_true in Hg as [Hn _]. apply has_false in Hn.
    rewrite (add_length_fresh _ _ Hn) in H3. lia.
  - apply IH.
Qed.

(** Every id a pass adds is the key of an entry of the collection. *)
Lemma scan_adds_keys (l : list (string * Scale)) (td : list string) (m : bool) :
  ∀ x, x ∈ (fold_left cascade_visit l (td, m)).1 → x ∈ td ∨ x ∈ Map_keys l.
Proof.
  revert td m. induction l as [| e l IH]; intros td m x; simpl; [auto |].
  destruct (cascade_visit_cases td m e) as [[Hg ->] | [Hg ->]]; intros Hx.
  - apply IH in Hx as [Hx | Hx].
    + apply add_spec in Hx as [Hx | ->]; [auto |]. right. apply elem_of_cons. auto.
    + right. apply elem_of_cons. auto.
  - apply IH in Hx as [Hx | Hx]; [auto |]. right. apply elem_of_cons. auto.
Qed.

Variable scales : list (string * Scale).
Variable t : string.

(** A pass only adds descendants of the target. *)
Lemma scan_sound (l : list (string * Scale)) (td : list string) (m : bool) :
  (∀ e, e ∈ l → e ∈ scales) →
  (∀ x, x ∈ td → in_cascade scales t x) →
  ∀ x, x ∈ (fold_left cascade_visit l (td, m)).1 → in_cascade scales t x.
Proof.
  revert td m. induction l as [| e l IH]; intros td m Hl Htd; simpl; [auto |].
  assert (∀ e', e' ∈ l → e' ∈ scales) as Hl'.
  { intros e' He'. apply Hl, elem_of_cons. auto. }
  destruct (cascade_visit_cases td m e) as [[Hg ->] | [Hg ->]].
  - apply IH; [done |]. intros x Hx. apply add_spec in Hx as [Hx | ->]; [auto |].
    apply cascade_guard_true in Hg as [_ (p & Hp & Hin)]. right.
    assert ((e.1, e.2) ∈ scales) as He.
    { destruct e. apply Hl, elem_of_cons. auto. }
    destruct (Htd p Hin) as [-> | Hd].
    + by eapply descendant_child.
    + by eapply descendant_below.
  - by apply IH.
Qed.

(** A set that contains the target and is closed under the guard holds
    every descendant. *)
Lemma closed_complete (td : list string) :
  t ∈ td →
  (∀ e, e ∈ scales → cascade_guard td e.1 e.2 = false) →
  ∀ x, in_cascade scales t x → x ∈ td.
Proof.
  intros Ht Hc x [-> | Hd]; [done |].
  induction Hd as [sId s Hin Hl | sId s p Hin Hl Hd IH].
  - by apply (cascade_guard_false td sId s t (Hc (sId, s) Hin)).
  - by apply (cascade_guard_false td sId s p (Hc (sId, s) Hin)).
Qed.

Lemma cascade_inv_init : cascade_inv scales t (Set_new String.eqb [t]).
Proof.
  unfold cascade_inv. simpl. change (Set_add String.eqb [] t) with [t].
  split; [apply NoDup_singleton |]. split; [apply list_elem_of_singleton; done |].
  split; intros x Hx; apply list_elem_of_singleton in Hx; subst; [by left | by left].
Qed.

Lemma cascade_inv_pass (td : list string) :
  cascade_inv scales t td → cascade_inv scales t (cascade_pass scales td).1.
Proof.
  intros (Hnd & Ht & Hs & Hk). unfold cascade_pass.
  destruct (scan_grows scales td false) as (H1 & H2 & _ & _).
  split; [auto |]. split; [auto |]. split.
  - by apply scan_sound.
  - intros x Hx. apply scan_adds_keys in Hx as [Hx | Hx]; auto.
Qed.

Lemma cascade_inv_length (td : list string) :
  cascade_inv scales t td → (length td ≤ S (length scales))%nat.
Proof.
  intros (Hnd & _ & _ & Hk).
  assert (td ⊆+ t :: Map_keys scales) as Hsub.
  { apply NoDup_submseteq; [done |]. intros x Hx. apply elem_of_cons.
    destruct (Hk x Hx); auto. }
  apply submseteq_length in Hsub. simpl in Hsub. unfold Map_keys in Hsub.
  rewrite length_map in Hsub. done.
Qed.

(** With enough passes the loop returns, and what it returns is the
    cascade set. *)
Lemma cascade_while_returns (n : nat) (td : list string) :
  cascade_inv scales t td → (S (length scales) - length td < n)%nat →
  ∃ r, cascade_while n scales td = Some r ∧ NoDup r ∧
       ∀ x, x ∈ r ↔ in_cascade scales t x.
Proof.
  revert td. induction n as [| n IH]; intros td Hinv Hn; [lia |].
  simpl. pose proof (cascade_inv_pass td Hinv) as Hinv'.
  pose proof (cascade_inv_length _ Hinv') as Hlen.
  destruct (cascade_pass scales td).2 eqn:Hm.
  - apply IH; [done |]. pose proof (scan_modified scales td Hm) as Hlt.
    fold (cascade_pass scales td) in Hlt. lia.
  - destruct (scan_unmodified scales td Hm) as [Heq Hc].
    fold (cascade_pass scales td) in Heq. rewrite Heq.
    destruct Hinv as (Hnd & Ht & Hs & _). exists td.
    split; [done |]. split; [done |]. intros x. split; [auto |].
    by apply closed_complete.
Qed.

End CascadeFacts.

Section CascadeResults.
Import ScaleGraph.

Lemma descendant_incl (l1 l2 : list (string * Scale)) (t x : string) :
  (∀ e, e ∈ l1 → e ∈ l2) → descendant l1 t x → descendant l2 t x.
Proof.
  intros Hincl Hd. induction Hd as [sId s Hin Hl | sId s p Hin Hl Hd IH].
  - eapply descendant_child; eauto.
  - eapply descendant_below; eauto.
Qed.

Lemma cascade_while_more (n k : nat) (scales : list (string * Scale))
    (td r : list string) :
  cascade_while n scales td = Some r → cascade_while (n + k) scales td = Some r.
Proof.
  revert td. induction n as [| n IH]; intros td; simpl; [done |].
  destruct (cascade_pass scales td).2; auto.
Qed.

Lemma buildCascadeDeleteSet_returns (scales : list (string * Scale)) (t : string) :
  ∃ r, buildCascadeDeleteSet scales t = Some r ∧ NoDup r ∧
       ∀ x, x ∈ r ↔ in_cascade scales t x.
Proof.
  apply cascade_while_returns; [apply cascade_inv_init |].
  simpl. change (Set_add String.eqb [] t) with [t]. simpl. lia.
Qed.

Lemma descendant_key (scales : list (string * Scale)) (t x : string) :
  descendant scales t x → x ∈ Map_keys scales.
Proof.
  intros Hd. destruct Hd as [sId s Hin _ | sId s p Hin _ _];
    apply list_elem_of_In, in_map_iff; exists (sId, s);
    (split; [done | by apply list_elem_of_In]).
Qed.

Lemma nonempty_truthy (s : string) : s ≠ "" → truthy_string s = true.
Proof.
  intros Hs. unfold truthy_string. apply negb_true_iff. by apply String.eqb_neq.
Qed.

(** What the loop collects is in the set of the specification. *)
Lemma in_cascade_spec (scales : list (string * Scale)) (t x : string) :
  in_cascade scales t x → spec_cascade scales t x.
Proof.
  intros [-> | Hd]; [constructor |].
  induction Hd as [sId s Hin Hl | sId s p Hin Hl Hd IH].
  - apply parent_link_Some in Hl as [Hp _].
    eapply spec_cascade_child; [done | done | constructor].
  - apply parent_link_Some in Hl as [Hp _]. by eapply spec_cascade_child.
Qed.

(** The loop collects all of it when the empty string is no id. *)
Lemma spec_in_cascade (scales : list (string * Scale)) (t x : string) :
  t ≠ "" → "" ∉ Map_keys scales →
  spec_cascade scales t x → in_cascade scales t x.
Proof.
  intros Ht Hkeys Hs. induction Hs as [| sId s p Hin Hp Hs IH]; [by left |].
  right. destruct IH as [-> | Hd].
  - eapply descendant_child; [done |]. apply parent_link_Some.
    split; [done | by apply nonempty_truthy].
  - eapply descendant_below; [done | | done]. apply parent_link_Some.
    split; [done |]. apply nonempty_truthy. intros ->.
    by apply Hkeys, (descendant_key scales t).
Qed.

(** C1, as stated, fails when the target is the empty id: the loop does
    not follow an empty [parent_scale_id], so the scale stored under the
    empty id is deleted alone, while its child is a node whose parent id
    is in the set, and [getDescendants] lists that child and the
    grandchild. *)
Lemma cascade_of_empty_id_misses_children :
  buildCascadeDeleteSet example_under_empty_id "" = Some [""] ∧
  spec_cascade example_under_empty_id "" "x" ∧
  getDescendants_within 5 example_under_empty_id "" = Some ["x"; "y"].
Proof.
  split; [reflexivity |]. split; [| reflexivity].
  apply (spec_cascade_child example_under_empty_id "" "x"
           (example_scale "x" (Some "") false 1200 46) "").
  - do 2 apply list_elem_of_further. apply list_elem_of_here.
  - reflexivity.
  - constructor.
Qed.

(** C1, amended. For every collection and target id,
    [buildCascadeDeleteSet] returns a set without repetition, every
    member of which is the target or a transitive descendant of it (a
    node whose parent id is in the set), and on the collection iterated
    in reverse order it returns the same set: the same members, each
    once.  When the target id is not empty and no scale is stored under
    the empty id, the set is exactly the target and all its transitive
    descendants.  On the chain root → A → B → C, deleting A gives A, B
    and C in both orders. *)
Theorem buildCascadeDeleteSet_exact (scales : list (string * Scale)) (targetId : string) :
  (∃ r r',
     buildCascadeDeleteSet scales targetId = Some r ∧
     (∀ x, x ∈ r → spec_cascade scales targetId x) ∧
     (targetId ≠ "" → "" ∉ Map_keys scales →
      ∀ x, x ∈ r ↔ spec_cascade scales targetId x) ∧
     NoDup r ∧
     buildCascadeDeleteSet (reverse scales) targetId = Some r' ∧
     r' ≡ₚ r) ∧
  ("A" ≠ "" ∧ ("" ∉ Map_keys example_chain) ∧
   buildCascadeDeleteSet example_chain "A" = Some ["A"; "B"; "C"] ∧
   buildCascadeDeleteSet (reverse example_chain) "A" = Some ["A"; "B"; "C"]).
Proof.
  split.
  2: { split; [done |]. split; [| split; reflexivity].
       refine (bool_decide_unpack _ _). exact I. }
  destruct (buildCascadeDeleteSet_returns scales targetId) as (r & Hr & Hnd & Hm).
  destruct (buildCascadeDeleteSet_returns (reverse scales) targetId)
    as (r' & Hr' & Hnd' & Hm').
  exists r, r'. split; [done |]. split; [| split; [| split; [done |]]].
  - intros x Hx. by apply in_cascade_spec, Hm.
  - intros Ht Hkeys x. rewrite Hm. split; [apply in_cascade_spec |].
    by apply spec_in_cascade.
  - split; [done |].
    apply NoDup_Permutation; [done | done |]. intros x. rewrite Hm, Hm'.
    unfold in_cascade. split; (intros [-> | Hd]; [by left | right]).
    + apply (descendant_incl (reverse scales)); [| done].
      intros e He. by apply elem_of_reverse.
    + apply (descendant_incl scales); [| done].
      intros e He. by apply elem_of_reverse.
Qed.

(** C9. [buildCascadeDeleteSet] terminates on every collection and
    target, whatever the parent links (cyclic, dangling): a pass of the
    loop that sets [modified] keeps the members, adds at least one id, and
    adds only keys of the collection; a pass that does not is the last
    one; and the loop returns within [length scales + 1] passes, with the
    same answer under any larger bound. *)
Theorem buildCascadeDeleteSet_terminates (scales : list (string * Scale))
    (targetId : string) :
  (∀ toDelete,
     let r := cascade_pass scales toDelete in
     (r.2 = true →
        (length toDelete < length r.1)%nat ∧
        (∀ x, x ∈ toDelete → x ∈ r.1) ∧
        (∀ x, x ∈ r.1 → x ∈ toDelete ∨ x ∈ Map_keys scales)) ∧
     (r.2 = false →
        r.1 = toDelete ∧
        ∀ n, cascade_while (S n) scales toDelete = Some toDelete)) ∧
  (∃ r,
     buildCascadeDeleteSet_within (length scales + 1) scales targetId = Some r ∧
     ∀ passes, (length scales + 1 ≤ passes)%nat →
       buildCascadeDeleteSet_within passes scales targetId = Some r) ∧
  buildCascadeDeleteSet example_cycle "a" = Some ["a"; "b"] ∧
  buildCascadeDeleteSet example_cycle "gone" = Some ["gone"; "c"].
Proof.
  split; [| split; [| split; reflexivity]].
  - intros toDelete r. split; intros Hm.
    + split; [by apply scan_modified |]. split.
      * apply (scan_grows scales toDelete false).
      * intros x Hx. by apply scan_adds_keys in Hx.
    + destruct (scan_unmodified scales toDelete Hm) as [Heq _].
      split; [done |]. intros n. simpl. fold r. rewrite Hm. by f_equal.
  - destruct (buildCascadeDeleteSet_returns scales targetId) as (r & Hr & _).
    unfold buildCascadeDeleteSet in Hr. exists r.
    replace (length scales + 1)%nat with (S (length scales)) by lia.
    split; [done |]. intros passes Hp.
    replace passes with (S (length scales) + (passes - S (length scales)))%nat by lia.
    by apply cascade_while_more.
Qed.

End CascadeResults.

(** ** Root classification *)

Section Roots.
Import ScaleGraph.

Lemma findRoots_from (scales : list (string * Scale)) (roots : list string) :
  fold_left
    (λ roots e,
       if is_root e.2 || negb (truthy_id (parent_scale_id e.2))
       then roots ++ [e.1] else roots)
    scales roots
  = roots ++ map fst (List.filter (λ e, isRoot (Some e.2)) scales).
Proof.
  revert roots. induction scales as [| e l IH]; intros roots; simpl.
  - by rewrite app_nil_r.
  - rewrite IH. destruct (is_root e.2 || negb (truthy_id (parent_scale_id e.2))); simpl.
    + by rewrite <- app_assoc.
    + done.
Qed.

Lemma truthy_id_false (o : option string) :
  truthy_id o = false ↔ o = None ∨ o = Some "".
Proof.
  destruct o as [s |]; simpl.
  - unfold truthy_string. rewrite negb_false_iff, String.eqb_eq. split.
    + intros ->. by right.
    + intros [H | [= ->]]; done.
  - split; [by left | done].
Qed.

(** C10. Root classification is a disjunction: [isRoot] holds of a scale
    exactly when its [is_root] flag is set or its [parent_scale_id] is
    absent or empty, so a scale with [is_root] false and no parent is a
    root; [isRoot] of [null] is false; [findRoots] lists, in iteration
    order, the keys of the scales so classified; and a collection can
    report several roots. *)
Theorem root_classification_disjunctive :
  (∀ s, isRoot (Some s) = true ↔
        is_root s = true ∨ parent_scale_id s = None ∨ parent_scale_id s = Some "") ∧
  (∀ s, is_root s = false →
        parent_scale_id s = None ∨ parent_scale_id s = Some "" →
        isRoot (Some s) = true) ∧
  isRoot None = false ∧
  (∀ scales,
     findRoots scales = map fst (List.filter (λ e, isRoot (Some e.2)) scales)) ∧
  findRoots example_two_roots = ["a"; "b"].
Proof.
  assert (∀ s, isRoot (Some s) = true ↔
               is_root s = true ∨ parent_scale_id s = None ∨
               parent_scale_id s = Some "") as Hiff.
  { intros s. simpl. rewrite orb_true_iff, negb_true_iff, truthy_id_false. tauto. }
  split; [exact Hiff |]. split; [| split; [| split]].
  - intros s _ Hp. apply Hiff. by right.
  - reflexivity.
  - intros scales. unfold findRoots. by rewrite findRoots_from.
  - reflexivity.
Qed.

End Roots.

(** ** Branch positions *)

Section Layout.
Import BranchPositioning.

(** C4. For a parent with position [(px, py)] and depth [d] and a branch
    index [k >= 0], [getNextBranchPosition] returns depth [d + 1],
    [x = px + 550] and [y = py + direction * layer * 204] with
    [layer = floor(k / 2) + 1] and [direction] -1 for even [k], +1 for odd
    [k]; for a parent at (100, 250) the indices 0, 1 and 2 give
    (650, 46), (650, 454) and (650, -158). *)
Theorem getNextBranchPosition_formula (parent : Scale) (px py d k : Z) :
  position parent = Some {| pos_x := px; pos_y := py |} →
  depth parent = Some d →
  (0 ≤ k)%Z →
  getNextBranchPosition (Some parent) k LAYOUT_CONSTANTS =
    {| bp_x := px + 550;
       bp_y := py + (if Z.even k then -1 else 1) * (k / 2 + 1) * 204;
       bp_branch_index := k;
       bp_depth := d + 1 |} ∧
  (px = 100%Z → py = 250%Z →
   let at_index i := getNextBranchPosition (Some parent) i LAYOUT_CONSTANTS in
   (bp_x (at_index 0%Z), bp_y (at_index 0%Z)) = (650, 46)%Z ∧
   (bp_x (at_index 1%Z), bp_y (at_index 1%Z)) = (650, 454)%Z ∧
   (bp_x (at_index 2%Z), bp_y (at_index 2%Z)) = (650, -158)%Z).
Proof.
  intros Hpos Hd Hk. split.
  - unfold getNextBranchPosition. rewrite Hpos, Hd. simpl.
    rewrite Z.rem_mod_nonneg by lia. rewrite Zmod_even.
    unfold ROW_HEIGHT. simpl. destruct (Z.even k); f_equal; lia.
  - intros -> ->. unfold getNextBranchPosition. rewrite Hpos. simpl.
    repeat split.
Qed.

Lemma getNextBranchPosition_formula_witness :
  (0 ≤ 3)%Z ∧
  getNextBranchPosition (Some (example_scale "root" None true 100 250)) 3
    LAYOUT_CONSTANTS =
    {| bp_x := 650; bp_y := 658; bp_branch_index := 3; bp_depth := 1 |}.
Proof.
  split; [lia |].
  apply (getNextBranchPosition_formula
           (example_scale "root" None true 100 250) 100 250 0 3);
    [reflexivity | reflexivity | lia].
Defined.

End Layout.

(** ** Cascade removal through the store *)

Section CascadeRemoval.
Import ScaleGraph.

Lemma Map_has_keys {V : Type} (m : list (string * V)) (k : string) :
  Map_has String.eqb m k = true ↔ k ∈ Map_keys m.
Proof.
  unfold Map_has, Map_keys. rewrite existsb_exists. split.
  - intros (e & He & Heq). apply String.eqb_eq in Heq. subst k.
    apply list_elem_of_In, in_map, He.
  - intros Hk. apply list_elem_of_In, in_map_iff in Hk as (e & <- & He).
    exists e. split; [done | apply String.eqb_refl].
Qed.

Lemma remove_one_scales {V : Type} (cs : CanvasState string V) (c : nat) (id : string) :
  scales (ScaleStore.remove_one String.eqb (cs, c) id).1
  = filter (λ e, String.eqb id e.1 = false) (scales cs).
Proof.
  unfold ScaleStore.remove_one, Map_delete.
  destruct (Map_has String.eqb (scales cs) id); reflexivity.
Qed.

Lemma remove_all_scales {V : Type} (ids : list string) (cs : CanvasState string V)
    (c : nat) (e : string * V) :
  e ∈ scales (fold_left (ScaleStore.remove_one String.eqb) ids (cs, c)).1
  ↔ e ∈ scales cs ∧ e.1 ∉ ids.
Proof.
  revert cs c. induction ids as [| id ids IH]; intros cs c; cbn [fold_left].
  - split; [intros He; split; [done | apply not_elem_of_nil] | by intros [He _]].
  - destruct (ScaleStore.remove_one String.eqb (cs, c) id) as [cs1 c1] eqn:Hone.
    rewrite IH. pose proof (remove_one_scales cs c id) as Hs.
    rewrite Hone in Hs. simpl in Hs. rewrite Hs, list_elem_of_filter, not_elem_of_cons.
    assert (String.eqb id e.1 = false ↔ e.1 ≠ id) as ->.
    { rewrite <- not_true_iff_false, String.eqb_eq.
      split; intros H Heq; apply H; by symmetry. }
    tauto.
Qed.

Lemma parent_closed_spec (l : list (string * Scale)) :
  parent_closed l = true ↔
  ∀ e, e ∈ l →
    isRoot (Some e.2) = true ∨
    ∃ p, parent_scale_id e.2 = Some p ∧ p ∈ Map_keys l.
Proof.
  unfold parent_closed. rewrite forallb_forall. split.
  - intros H e He. apply list_elem_of_In in He. specialize (H e He).
    apply orb_true_iff in H as [H | H]; [by left | right].
    destruct (parent_scale_id e.2) as [p |]; [| done].
    exists p. split; [done | by apply Map_has_keys].
  - intros H e He. apply list_elem_of_In in He. apply orb_true_iff.
    destruct (H e He) as [Hr | (p & Hp & Hk)]; [by left | right].
    rewrite Hp. by apply Map_has_keys.
Qed.

Lemma parents_present_spec (l : list (string * Scale)) :
  parents_present l = true ↔
  ∀ e, e ∈ l →
    is_root e.2 = true ∨
    ∃ p, parent_scale_id e.2 = Some p ∧ p ∈ Map_keys l.
Proof.
  unfold parents_present. rewrite forallb_forall. split.
  - intros H e He. apply list_elem_of_In in He. specialize (H e He).
    apply orb_true_iff in H as [H | H]; [by left | right].
    destruct (parent_scale_id e.2) as [p |]; [| done].
    exists p. split; [done | by apply Map_has_keys].
  - intros H e He. apply list_elem_of_In in He. apply orb_true_iff.
    destruct (H e He) as [Hr | (p & Hp & Hk)]; [by left | right].
    rewrite Hp. by apply Map_has_keys.
Qed.

(** C2, as stated, fails when a scale is stored under the empty id: the
    scale under the empty id below is not a root and is present, every
    scale without the root flag names a stored parent, and removing its
    cascade set, which is that id alone, leaves its child naming a
    parent that is no longer stored. *)
Lemma cascade_removal_strands_child_of_empty_id :
  parents_present example_under_empty_id = true ∧
  (is_root <$> Map_get String.eqb example_under_empty_id "") = Some false ∧
  isRoot (Map_get String.eqb example_under_empty_id "") = false ∧
  buildCascadeDeleteSet example_under_empty_id "" = Some [""] ∧
  (scales <$>
     _canvasState
       (ScaleStore.removeScalesCascade String.eqb (IdSet [""])
          {| _canvasState :=
               Some {| scales := example_under_empty_id; activeScaleId := None |};
             console := [] |}).1)
  = Some [ ("root", example_scale "root" None true 100 250);
           ("x", example_scale "x" (Some "") false 1200 46);
           ("y", example_scale "y" (Some "x") false 1750 46) ] ∧
  parents_present
    [ ("root", example_scale "root" None true 100 250);
      ("x", example_scale "x" (Some "") false 1200 46);
      ("y", example_scale "y" (Some "x") false 1750 46) ] = false.
Proof. repeat split; reflexivity. Qed.

(** C2, amended. Cascade removal preserves parent closure when no scale
    is stored under the empty id: in such a collection, where every
    scale whose [is_root] flag is not set names a parent present in the
    collection, removing every id of [buildCascadeDeleteSet scales
    targetId] with [removeScalesCascade] leaves exactly the entries
    outside the set, and each of them whose [is_root] flag is not set
    still names a parent present in what is left. *)
Theorem removeScalesCascade_keeps_parents (collection : list (string * Scale))
    (targetId : string) (active : option string) (out : list string) :
  parents_present collection = true →
  "" ∉ Map_keys collection →
  ∃ ids cs',
    buildCascadeDeleteSet collection targetId = Some ids ∧
    _canvasState
      (ScaleStore.removeScalesCascade String.eqb (IdSet ids)
         {| _canvasState := Some {| scales := collection; activeScaleId := active |};
            console := out |}).1 = Some cs' ∧
    (∀ e, e ∈ scales cs' ↔ e ∈ collection ∧ e.1 ∉ ids) ∧
    parents_present (scales cs') = true.
Proof.
  intros Hclosed Hkeys.
  destruct (buildCascadeDeleteSet_returns collection targetId) as (ids & Hids & _ & Hm).
  destruct (fold_left (ScaleStore.remove_one String.eqb) ids
              ({| scales := collection; activeScaleId := active |}, O))
    as [cs1 n] eqn:Hfold.
  exists ids, cs1. split; [done |]. split.
  { unfold ScaleStore.removeScalesCascade. simpl. by rewrite Hfold. }
  assert (∀ e, e ∈ scales cs1 ↔ e ∈ collection ∧ e.1 ∉ ids) as Hleft.
  { intros e.
    pose proof (remove_all_scales ids
                  {| scales := collection; activeScaleId := active |} O e) as H.
    by rewrite Hfold in H. }
  split; [exact Hleft |].
  apply parents_present_spec. intros e He. apply Hleft in He as [He Hout].
  destruct (proj1 (parents_present_spec collection) Hclosed e He)
    as [Hr | (p & Hp & Hk)]; [by left | right].
  exists p. split; [done |].
  assert (parent_link e.2 = Some p) as Hl.
  { apply parent_link_Some. split; [done |]. apply nonempty_truthy. by intros ->. }
  apply list_elem_of_In, in_map_iff in Hk as ([k v] & Hkp & Hin). simpl in Hkp. subst k.
  apply list_elem_of_In in Hin.
  assert (p ∉ ids) as Hp_out.
  { intros Hp_in. apply Hout, Hm. right.
    destruct e as [sId s]. simpl in *.
    apply Hm in Hp_in as [-> | Hd].
    - by eapply descendant_child.
    - by eapply descendant_below. }
  apply list_elem_of_In, in_map_iff. exists (p, v). split; [done |].
  apply list_elem_of_In, Hleft. by split.
Qed.

Lemma removeScalesCascade_keeps_parents_witness :
  parents_present example_chain = true ∧
  ("" ∉ Map_keys example_chain) ∧
  ∃ ids cs',
    buildCascadeDeleteSet example_chain "A" = Some ids ∧
    _canvasState
      (ScaleStore.removeScalesCascade String.eqb (IdSet ids)
         {| _canvasState := Some {| scales := example_chain; activeScaleId := Some "B" |};
            console := [] |}).1 = Some cs' ∧
    (∀ e, e ∈ scales cs' ↔ e ∈ example_chain ∧ e.1 ∉ ids) ∧
    parents_present (scales cs') = true.
Proof.
  assert ("" ∉ Map_keys example_chain) as Hkeys
    by (refine (bool_decide_unpack _ _); exact I).
  split; [reflexivity |]. split; [exact Hkeys |].
  exact (removeScalesCascade_keeps_parents example_chain "A" (Some "B") []
           eq_refl Hkeys).
Defined.

End CascadeRemoval.

(** ** Root protection *)

Section RootProtection.

Lemma truthy_string_true (s : string) : truthy_string s = true ↔ s ≠ "".
Proof.
  unfold truthy_string. rewrite negb_true_iff, <- not_true_iff_false, String.eqb_eq.
  done.
Qed.

(** C3, as stated, fails for a root stored under the empty id: both
    controllers stop at their first guard, [prepareDelete] answers
    [no_scale_id] and [handleDeleteScale] answers without an error. *)
Lemma root_under_empty_id_not_protected :
  Map_get String.eqb example_empty_id "" = Some (example_scale "" None true 100 250) ∧
  is_root (example_scale "" None true 100 250) = true ∧
  FlowEditorController.prepareDelete window_loaded "" example_empty_id
    = mkRun [] (Some (Return (FlowEditorController.CannotDelete "no_scale_id"))) ∧
  FlowEditorController.CannotDelete "no_scale_id"
    ≠ FlowEditorController.CannotDelete "root_protected" ∧
  FlowController.handleDeleteScale (S := unit) window_loaded "" example_empty_id
      (λ _ st, st) None
    = mkRun [] (Some (Return FlowController.NothingToDelete)).
Proof.
  repeat split; try reflexivity. discriminate.
Qed.

(** C3, amended. For every collection and every id whose scale has
    [is_root] true, [prepareDelete] and [handleDeleteScale] answer a
    refusal without any call of [buildCascadeDeleteSet], and the delete
    flow of the editor leaves the canvas state as it was; for a non-empty
    id the refusal carries [root_protected] (and the editor shows its
    alert), for the empty id [prepareDelete] answers [no_scale_id] and
    [handleDeleteScale] answers without an error. *)
Theorem root_delete_refused (S : Type) (w : Window) (confirm : string → bool)
    (cs : CanvasState string Scale) (scaleId : string) (scale : Scale)
    (deleteScaleFn : string → S → S) (renderFn : option (S → S)) :
  Map_get String.eqb (scales cs) scaleId = Some scale →
  is_root scale = true →
  FlowEditorController.prepareDelete w scaleId (scales cs)
    = mkRun [] (Some (Return (FlowEditorController.CannotDelete
                                (if decide (scaleId = "") then "no_scale_id"
                                 else "root_protected")))) ∧
  FlowController.handleDeleteScale w scaleId (scales cs) deleteScaleFn renderFn
    = mkRun [] (Some (Return (if decide (scaleId = "")
                              then FlowController.NothingToDelete
                              else FlowController.DeleteRefused "root_protected"))) ∧
  FlowEditor.handleDeleteScale w confirm scaleId cs
    = mkRun (if decide (scaleId = "") then []
             else if window_FlowEditorController w
                  then [Alert "Skala utama (Root) tidak dapat dihapus."] else [])
            (Some (Return cs)).
Proof.
  intros Hget Hroot.
  unfold FlowEditorController.prepareDelete, FlowController.handleDeleteScale,
    FlowEditor.handleDeleteScale.
  destruct (decide (scaleId = "")) as [-> | Hid]; [done |].
  apply truthy_string_true in Hid.
  unfold FlowEditorController.prepareDelete. rewrite Hid, Hget, Hroot. cbn [negb].
  split; [done |]. split; [done |].
  by destruct (window_FlowEditorController w).
Qed.

Lemma root_delete_refused_witness :
  FlowEditorController.prepareDelete window_loaded "root" example_chain
    = mkRun [] (Some (Return (FlowEditorController.CannotDelete "root_protected"))) ∧
  FlowController.handleDeleteScale (S := unit) window_loaded "root" example_chain
      (λ _ st, st) None
    = mkRun [] (Some (Return (FlowController.DeleteRefused "root_protected"))) ∧
  FlowEditor.handleDeleteScale window_loaded (λ _, true) "root"
      {| scales := example_chain; activeScaleId := Some "root" |}
    = mkRun [Alert "Skala utama (Root) tidak dapat dihapus."]
            (Some (Return {| scales := example_chain; activeScaleId := Some "root" |})).
Proof.
  apply (root_delete_refused unit window_loaded (λ _, true)
           {| scales := example_chain; activeScaleId := Some "root" |}
           "root" (example_scale "root" None true 100 250) (λ _ st, st) None);
    reflexivity.
Defined.

End RootProtection.

(** ** The store's add in strict mode *)

Section StrictAdd.

Lemma bind_Return {A B : Type} (a : A) (f : A → Completion B) :
  (Return a ≫= f) = f a.
Proof. reflexivity. Qed.

Lemma assert_holds (condition : bool) (message : string) :
  condition = true → Invariants.assert condition message = Return tt.
Proof. by intros ->. Qed.

Lemma assert_fails (condition : bool) (message : string) :
  condition = false →
  Invariants.assert condition message = Throw ("[Invariant Violated] " +:+ message).
Proof. by intros ->. Qed.





End StrictAdd.

(** ** Item expansion *)

Section Expansion.
Import OpenAIScaleAdapter.

Lemma expand_items_spec (scaleId dimName : string) (sourceItems : list Item)
    (gptItems : list GptItem) (c i : nat) :
  (expand_items scaleId dimName sourceItems c i gptItems).2 = (c + length gptItems)%nat ∧
  length (expand_items scaleId dimName sourceItems c i gptItems).1 = length gptItems ∧
  ∀ j gi, gptItems !! j = Some gi →
    (expand_items scaleId dimName sourceItems c i gptItems).1 !! j
    = Some (expand_item scaleId dimName sourceItems (c + j) (i + j) gi).1.
Proof.
  revert c i. induction gptItems as [| g l IH]; intros c i.
  - simpl. split; [lia |]. split; [done |]. intros j gi Hj. done.
  - cbn [expand_items].
    destruct (expand_item scaleId dimName sourceItems c i g) as [it c1] eqn:Hit.
    assert (c1 = S c) as -> by (by injection Hit as _ <-).
    destruct (expand_items scaleId dimName sourceItems (S c) (S i) l) as [its c2] eqn:Hl.
    destruct (IH (S c) (S i)) as (H1 & H2 & H3). rewrite Hl in H1, H2, H3.
    cbn [fst snd length] in *.
    split; [lia |]. split; [lia |]. intros [| j] gi Hj.
    + injection Hj as <-. rewrite !Nat.add_0_r, Hit. done.
    + change ((it :: its) !! S j) with (its !! j).
      change ((g :: l) !! S j = Some gi) with (l !! j = Some gi) in Hj.
      rewrite (H3 j gi Hj). by replace (S c + j)%nat with (c + S j)%nat by lia;
        replace (S i + j)%nat with (i + S j)%nat by lia.
Qed.

(** Items of the first [d] adapted dimensions. *)
Lemma expand_dimensions_spec (scaleId : string) (sourceDimensions : list Dimension)
    (gptDimensions : list GptDimension) (c k : nat) :
  let out := (expand_dimensions scaleId sourceDimensions c k gptDimensions).1 in
  length out = length gptDimensions ∧
  (∀ d gd, gptDimensions !! d = Some gd →
     ∃ c',
       out !! d
       = Some {| name := gpt_name gd;
                 items := (expand_items scaleId (gpt_name gd)
                             (match sourceDimensions !! (k + d)%nat with
                              | Some sd => items sd
                              | None => []
                              end) c' 0 (gpt_items gd)).1 |}) ∧
  (∀ n it, concat (map items out) !! n = Some it →
     item_id it = scaleId +:+ "-item-" +:+ pretty (c + n)%nat).
Proof.
  revert c k. induction gptDimensions as [| g l IH]; intros c k.
  - simpl. split; [done |]. split; [done |]. intros n it Hn. done.
  - cbn [expand_dimensions]. cbv zeta.
    set (src := match sourceDimensions !! k with Some sd => items sd | None => [] end).
    destruct (expand_items scaleId (gpt_name g) src c 0 (gpt_items g)) as [its c1] eqn:Hits.
    destruct (expand_dimensions scaleId sourceDimensions c1 (S k) l) as [ds c2] eqn:Hds.
    destruct (expand_items_spec scaleId (gpt_name g) src (gpt_items g) c 0)
      as (E1 & E2 & E3).
    rewrite Hits in E1, E2, E3. simpl in E1, E2, E3.
    destruct (IH c1 (S k)) as (H1 & H2 & H3). rewrite Hds in H1, H2, H3. simpl in H1, H2, H3.
    cbn [fst]. split; [simpl; lia |]. split.
    + intros [| d] gd Hd; simpl in Hd.
      * injection Hd as <-. exists c. simpl. rewrite Nat.add_0_r. fold src.
        by rewrite Hits.
      * destruct (H2 d gd Hd) as [c' Hc']. exists c'. simpl. rewrite Hc'.
        by replace (k + S d)%nat with (S k + d)%nat by lia.
    + intros n it Hn. simpl in Hn.
      destruct (decide (n < length its)%nat) as [Hlt | Hge].
      * rewrite lookup_app_l in Hn by done.
        destruct (lookup_lt_is_Some_2 (gpt_items g) n) as [gi Hgi]; [lia |].
        rewrite (E3 n gi Hgi) in Hn. injection Hn as <-. done.
      * rewrite lookup_app_r in Hn by lia. apply H3 in Hn. rewrite Hn.
        do 3 f_equal. lia.
Qed.

Lemma expandWithRubrics_lookup (gptDimensions : list GptDimension) (scaleId : string)
    (sourceDimensions : list Dimension) (d j : nat) (gd : GptDimension) (gi : GptItem) :
  gptDimensions !! d = Some gd → gpt_items gd !! j = Some gi →
  ∃ od c,
    expandWithRubrics gptDimensions scaleId sourceDimensions !! d = Some od ∧
    name od = gpt_name gd ∧
    length (items od) = length (gpt_items gd) ∧
    items od !! j
    = Some (expand_item scaleId (gpt_name gd)
              (match sourceDimensions !! d with Some sd => items sd | None => [] end)
              c j gi).1.
Proof.
  intros Hd Hj.
  destruct (expand_dimensions_spec scaleId sourceDimensions gptDimensions 1 0)
    as (_ & H2 & _).
  destruct (H2 d gd Hd) as [c' Hc']. simpl in Hc'.
  set (src := match sourceDimensions !! d with Some sd => items sd | None => [] end) in *.
  destruct (expand_items_spec scaleId (gpt_name gd) src (gpt_items gd) c' 0)
    as (_ & E2 & E3).
  eexists _, (c' + j)%nat. split; [exact Hc' |]. split; [done |]. split; [done |].
  simpl. by rewrite (E3 j gi Hj).
Qed.

(** C6, as stated, fails for an item that supplies an empty list of tags:
    its [current_rubric] is the baseline of the source item, and its
    [rubric_source] is the marker of generated tags, not of inherited
    ones. *)
Lemma empty_rubric_marked_generated :
  ∃ od oi,
    expandWithRubrics example_adaptation "skala-asli-branch-1" example_source !! 0%nat
      = Some od ∧
    items od !! 1%nat = Some oi ∧
    current_rubric oi = ["Tujuan hidup"] ∧
    rubric_source oi = Some "gpt" ∧
    rubric_source oi ≠ Some "parent".
Proof.
  eexists _, _. split; [reflexivity |]. split; [reflexivity |].
  split; [reflexivity |]. split; [reflexivity | discriminate].
Qed.

(** C6, amended. For every adaptation item, the assembled item at the
    same position exists; if there is a source item at that position and
    the adaptation item omits [current_rubric], the assembled
    [current_rubric] is the [baseline_rubric] of the source item and
    [rubric_source] is "parent"; if it supplies an empty list, the
    assembled [current_rubric] is again that baseline; and if it supplies
    a non-empty list of tags, [current_rubric] is that list and
    [rubric_source] is "gpt". *)
Theorem expandWithRubrics_rubrics (gptDimensions : list GptDimension) (scaleId : string)
    (sourceDimensions : list Dimension) (d j : nat) (gd : GptDimension) (gi : GptItem) :
  gptDimensions !! d = Some gd →
  gpt_items gd !! j = Some gi →
  ∃ od oi,
    expandWithRubrics gptDimensions scaleId sourceDimensions !! d = Some od ∧
    items od !! j = Some oi ∧
    (∀ si, source_item sourceDimensions d j = Some si →
       (gpt_current_rubric gi = None →
          current_rubric oi = baseline_rubric si ∧ rubric_source oi = Some "parent") ∧
       (gpt_current_rubric gi = Some [] → current_rubric oi = baseline_rubric si)) ∧
    (∀ tags, gpt_current_rubric gi = Some tags → tags ≠ [] →
       current_rubric oi = tags ∧ rubric_source oi = Some "gpt").
Proof.
  intros Hd Hj.
  destruct (expandWithRubrics_lookup gptDimensions scaleId sourceDimensions d j gd gi Hd Hj)
    as (od & c & Hod & _ & _ & Hoi).
  eexists od, _. split; [exact Hod |]. split; [exact Hoi |]. split.
  - intros si Hsi. unfold source_item in Hsi.
    destruct (sourceDimensions !! d) as [sd |]; [| done]. simpl in Hsi.
    unfold expand_item. cbn [fst current_rubric rubric_source]. rewrite Hsi.
    split; intros Hg; rewrite Hg; done.
  - intros tags Hg Hne. unfold expand_item. cbn [fst current_rubric rubric_source].
    rewrite Hg. destruct tags; done.
Qed.

Lemma expandWithRubrics_rubrics_witness :
  ∃ od oi,
    expandWithRubrics example_adaptation "skala-asli-branch-1" example_source !! 0%nat
      = Some od ∧
    items od !! 0%nat = Some oi ∧
    (∀ si, source_item example_source 0 0 = Some si →
       (Some ["Optimisme"; "Masa depan"] = None →
          current_rubric oi = baseline_rubric si ∧ rubric_source oi = Some "parent") ∧
       (Some ["Optimisme"; "Masa depan"] = Some [] →
          current_rubric oi = baseline_rubric si)) ∧
    (∀ tags, Some ["Optimisme"; "Masa depan"] = Some tags → tags ≠ [] →
       current_rubric oi = tags ∧ rubric_source oi = Some "gpt").
Proof.
  apply (expandWithRubrics_rubrics example_adaptation "skala-asli-branch-1"
           example_source 0 0
           {| gpt_name := "Optimisme";
              gpt_items :=
                [ {| gpt_text := "Aku optimis soal masa depan";
                     gpt_current_rubric := Some ["Optimisme"; "Masa depan"] |};
                  {| gpt_text := "Aku punya tujuan hidup";
                     gpt_current_rubric := Some [] |};
                  {| gpt_text := "Aku siap mencoba";
                     gpt_current_rubric := None |} ] |}
           {| gpt_text := "Aku optimis soal masa depan";
              gpt_current_rubric := Some ["Optimisme"; "Masa depan"] |});
    reflexivity.
Defined.

(** C7, as stated, fails for a source item whose [item_id] is empty: the
    assembled item at its position gets the origin "unknown", not the
    (empty) id of the source item. *)
Lemma empty_source_id_gives_unknown :
  ∃ si od oi,
    source_item example_source 0 1 = Some si ∧
    item_id si = "" ∧
    expandWithRubrics example_adaptation "skala-asli-branch-1" example_source !! 0%nat
      = Some od ∧
    items od !! 1%nat = Some oi ∧
    origin_item_id oi = "unknown" ∧
    origin_item_id oi ≠ item_id si.
Proof.
  eexists _, _, _. split; [reflexivity |]. split; [reflexivity |].
  split; [reflexivity |]. split; [reflexivity |]. split; [reflexivity | discriminate].
Qed.

(** C7, amended. In every assembled node the n-th item overall, counted
    through all dimensions in order without a reset, has [item_id]
    "{new_id}-item-{n}"; the assembled dimensions and items match the
    adaptation in number; and the [origin_item_id] of the item at
    dimension [d], position [j] is the [item_id] of the source item at
    that position when there is one and its id is not empty, and
    "unknown" when the source has no item there or its id is empty. *)
Theorem expandWithRubrics_ids (gptDimensions : list GptDimension) (scaleId : string)
    (sourceDimensions : list Dimension) :
  let out := expandWithRubrics gptDimensions scaleId sourceDimensions in
  (∀ n it, concat (map items out) !! n = Some it →
     item_id it = scaleId +:+ "-item-" +:+ pretty (S n)) ∧
  length out = length gptDimensions ∧
  (∀ d j gd gi, gptDimensions !! d = Some gd → gpt_items gd !! j = Some gi →
     ∃ od oi,
       out !! d = Some od ∧ length (items od) = length (gpt_items gd) ∧
       items od !! j = Some oi ∧
       (∀ si, source_item sourceDimensions d j = Some si → item_id si ≠ "" →
          origin_item_id oi = item_id si) ∧
       (∀ si, source_item sourceDimensions d j = Some si → item_id si = "" →
          origin_item_id oi = "unknown") ∧
       (source_item sourceDimensions d j = None → origin_item_id oi = "unknown")).
Proof.
  intros out.
  destruct (expand_dimensions_spec scaleId sourceDimensions gptDimensions 1 0)
    as (H1 & _ & H3).
  split; [exact H3 |]. split; [exact H1 |].
  intros d j gd gi Hd Hj.
  destruct (expandWithRubrics_lookup gptDimensions scaleId sourceDimensions d j gd gi Hd Hj)
    as (od & c & Hod & _ & Hlen & Hoi).
  eexists od, _. split; [exact Hod |]. split; [exact Hlen |]. split; [exact Hoi |].
  unfold source_item. destruct (sourceDimensions !! d) as [sd |]; simpl.
  - destruct (items sd !! j) as [si |] eqn:Hsi; simpl.
    + split; [| split; [| done]].
      * intros si' [= <-] Hne. apply truthy_string_true in Hne. by rewrite Hne.
      * intros si' [= <-] He. rewrite He. done.
    + split; [done |]. split; done.
  - split; [done |]. split; done.
Qed.

End Expansion.

(** ** The adaptation validator *)

Section Validator.
Import OpenAIScaleAdapter.

(** Instantiate a [forallb] hypothesis at a member of the list. *)
Ltac forallb_at H member :=
  rewrite forallb_forall in H;
  specialize (H member ltac:(by apply list_elem_of_In)).

Lemma prop_defined (v : JValue) (k : string) :
  defined v = true → prop v k = Return (field v k).
Proof. unfold field. destruct v; simpl; done. Qed.

Lemma as_nonempty_string_None (v : JValue) :
  as_nonempty_string v = None ↔ nonempty_string v = false.
Proof.
  destruct v as [| | b | n | s | l | fs]; simpl; try done.
  destruct (truthy_string s); done.
Qed.

Lemma as_nonempty_string_Some (v : JValue) (s : string) :
  as_nonempty_string v = Some s → nonempty_string v = true.
Proof.
  destruct v as [| | b | n | s' | l | fs]; simpl; try done.
  destruct (truthy_string s'); done.
Qed.

Lemma as_nonempty_array_None (v : JValue) :
  as_nonempty_array v = None ↔ nonempty_array v = false.
Proof. destruct v as [| | b | n | s | [| x l] | fs]; simpl; done. Qed.

Lemma as_nonempty_array_Some (v : JValue) (l : list JValue) :
  as_nonempty_array v = Some l → nonempty_array v = true ∧ elements v = l.
Proof.
  destruct v as [| | b | n | s | [| x l'] | fs]; simpl; try done.
  by intros [= <-].
Qed.

(** The inner loop: it passes exactly when every item has its text, and
    otherwise names [text]. *)
Lemma validate_items_spec (dimName : string) (its : list JValue) (j : nat) :
  forallb defined its = true →
  (forallb item_ok its = true ∧ validate_items dimName j its = Return None) ∨
  (∃ msg item,
     validate_items dimName j its = Return (Some msg) ∧
     FieldDiagnostic F_text msg ∧ item ∈ its ∧ item_ok item = false).
Proof.
  revert j. induction its as [| item rest IH]; intros j Hdef.
  - left. done.
  - simpl in Hdef. apply andb_true_iff in Hdef as [Hitem Hrest].
    cbn [validate_items]. rewrite (prop_defined item "text" Hitem), bind_Return.
    destruct (as_nonempty_string (field item "text")) as [s |] eqn:Htext.
    + apply as_nonempty_string_Some in Htext.
      destruct (IH (S j) Hrest) as [[Hok Hret] | (msg & bad & Hret & Hdiag & Hin & Hbad)].
      * left. split; [| done]. simpl. unfold item_ok at 1. by rewrite Htext.
      * right. exists msg, bad. split; [done |]. split; [done |].
        split; [by apply list_elem_of_further | done].
    + apply as_nonempty_string_None in Htext. right.
      eexists _, item. split; [reflexivity |]. split; [apply diagnostic_text |].
      split; [apply list_elem_of_here | done].
Qed.

(** The outer loop: it passes exactly when every dimension is well
    formed, handing over the item lists it read, and otherwise names a
    field that is missing or mistyped in some dimension. *)
Lemma validate_dimensions_spec (dims : list JValue) (i : nat) :
  all_defined dims = true →
  (forallb dimension_ok dims = true ∧
   ∃ checked,
     validate_dimensions i dims = Return (inr checked) ∧
     checked.*2 = (λ dim, elements (field dim "items")) <$> dims) ∨
  (∃ f msg,
     validate_dimensions i dims = Return (inl msg) ∧
     FieldDiagnostic f msg ∧ offending_in dims f).
Proof.
  revert i. induction dims as [| dim rest IH]; intros i Hdef.
  - left. split; [done |]. by exists [].
  - unfold all_defined in Hdef. simpl in Hdef.
    apply andb_true_iff in Hdef as [Hdim Hrest].
    apply andb_true_iff in Hdim as [Hdim Hitems].
    cbn [validate_dimensions]. rewrite (prop_defined dim "name" Hdim), bind_Return.
    destruct (as_nonempty_string (field dim "name")) as [dimName |] eqn:Hname.
    2: { apply as_nonempty_string_None in Hname. right.
         eexists F_name, _. split; [reflexivity |]. split; [apply diagnostic_name |].
         exists dim. split; [apply list_elem_of_here | done]. }
    apply as_nonempty_string_Some in Hname.
    rewrite (prop_defined dim "items" Hdim), bind_Return.
    destruct (as_nonempty_array (field dim "items")) as [its |] eqn:Harr.
    2: { apply as_nonempty_array_None in Harr. right.
         eexists F_items, _. split; [reflexivity |]. split; [apply diagnostic_items |].
         exists dim. split; [apply list_elem_of_here | done]. }
    apply as_nonempty_array_Some in Harr as [Harr Hels]. rewrite Hels in Hitems.
    destruct (validate_items_spec dimName its 0 Hitems)
      as [[Hok Hret] | (msg & bad & Hret & Hdiag & Hin & Hbad)].
    2: { right. rewrite Hret, bind_Return. exists F_text, msg.
         split; [done |]. split; [done |]. exists dim, bad.
         split; [apply list_elem_of_here |]. by rewrite Hels. }
    rewrite Hret, bind_Return.
    destruct (IH (S i) Hrest)
      as [[Hoks (checked & Hc & Hmap)] | (f & msg & Hc & Hdiag & Hoff)].
    + left. split.
      * simpl. unfold dimension_ok at 1. by rewrite Hname, Harr, Hels, Hok.
      * exists ((dimName, its) :: checked). rewrite Hc, bind_Return.
        split; [done |]. by rewrite !fmap_cons, Hels, Hmap.
    + right. exists f, msg. rewrite Hc, bind_Return. split; [done |].
      split; [done |]. destruct f; simpl in *; try done.
      * destruct Hoff as (d & Hd & Hb). exists d. split; [by apply list_elem_of_further | done].
      * destruct Hoff as (d & Hd & Hb). exists d. split; [by apply list_elem_of_further | done].
      * destruct Hoff as (d & it & Hd & Hb). exists d, it.
        split; [by apply list_elem_of_further | done].
Qed.

Lemma item_count_warnings_cases (gptDims : list (string * list JValue))
    (sourceDims : list Dimension) :
  (item_count_warnings gptDims sourceDims = [] ∧
   ∀ i g sd, gptDims !! i = Some g → sourceDims !! i = Some sd →
     length g.2 = length (items sd)) ∨
  (item_count_warnings gptDims sourceDims ≠ [] ∧
   ∃ i g sd, gptDims !! i = Some g ∧ sourceDims !! i = Some sd ∧
     length g.2 ≠ length (items sd)).
Proof.
  revert sourceDims. induction gptDims as [| g gs IH]; intros [| sd ss]; simpl.
  - left. split; [done |]. intros i g' sd' Hg. done.
  - left. split; [done |]. intros i g' sd' Hg. done.
  - left. split; [done |]. intros i g' sd' _ Hs. done.
  - case_bool_decide as Hlen; simpl.
    + destruct (IH ss) as [[Hnil Hall] | [Hne (i & g' & sd' & Hg & Hs & Hd)]].
      * left. split; [done |].
        intros [| i] g' sd' Hg Hs; simpl in *; [by simplify_eq | eauto].
      * right. split; [done |]. by exists (S i), g', sd'.
    + right. split; [done |]. by exists O, g, sd.
Qed.

Lemma structure_warnings_cases (p : JValue) (checked : list (string * list JValue))
    (src : Scale) :
  checked.*2 = (λ dim, elements (field dim "items")) <$>
                 elements (field p "dimensions") →
  (structure_warnings checked (Some src) = [] ∧ ¬ structure_differs p src) ∨
  (structure_warnings checked (Some src) ≠ [] ∧ structure_differs p src).
Proof.
  intros Hmap. set (dims := elements (field p "dimensions")) in *.
  assert (length checked = length dims) as Hlen.
  { by rewrite <- (length_fmap snd checked), Hmap, length_fmap. }
  assert (∀ i g, checked !! i = Some g →
                 ∃ dim, dims !! i = Some dim ∧ length g.2 = item_count dim) as Hfwd.
  { intros i g Hg.
    assert (checked.*2 !! i = Some g.2) as Hs by (by rewrite list_lookup_fmap, Hg).
    rewrite Hmap, list_lookup_fmap in Hs.
    destruct (dims !! i) as [dim |]; [| done]. exists dim. split; [done |].
    simpl in Hs. injection Hs as Hs. unfold item_count. by rewrite Hs. }
  assert (∀ i dim, dims !! i = Some dim →
                   ∃ g, checked !! i = Some g ∧ length g.2 = item_count dim) as Hbwd.
  { intros i dim Hd.
    destruct (lookup_lt_is_Some_2 checked i) as [g Hg].
    { rewrite Hlen. by eapply lookup_lt_Some. }
    exists g. split; [done |]. destruct (Hfwd i g Hg) as (dim' & Hd' & Hl).
    by simplify_eq. }
  unfold structure_warnings, structure_differs. fold dims.
  rewrite Hlen. case_bool_decide as Hn; simpl.
  - destruct (item_count_warnings_cases checked (dimensions src))
      as [[Hnil Hall] | [Hne (i & g & sd & Hg & Hs & Hd)]].
    + left. split; [done |].
      intros [Hne | (i & dim & sd & Hd & Hs & Hc)]; [done |].
      destruct (Hbwd i dim Hd) as (g & Hg & Hl). apply Hc. rewrite <- Hl. eauto.
    + right. split; [done |]. right.
      destruct (Hfwd i g Hg) as (dim & Hdim & Hl).
      exists i, dim, sd. split; [done |]. split; [done |]. by rewrite <- Hl.
  - right. split; [done |]. by left.
Qed.

(** C5, as stated, fails for a payload whose required fields are all
    present and well typed and which also carries a truthy [error]: the
    validator rejects it with that error. *)
Lemma well_formed_payload_with_error_rejected :
  required_fields_ok payload_with_error = true ∧
  validateAdaptScaleResponse payload_with_error None
    = Return {| valid := false; error := Some (JStr "rate limited"); warnings := None |}.
Proof. split; reflexivity. Qed.

(** C5, amended. A falsy payload is rejected with "No response".  For a
    truthy payload: if it carries a truthy [error], the validator returns
    [valid: false] with that error, whatever its other fields; if it does
    not, and has no [null] among its dimensions and items, then when a
    required field is missing or mistyped ([scale_name] not a non-empty
    string, [dimensions] not a non-empty list, a dimension's [name] not a
    non-empty string or its [items] not a non-empty list, an item's [text]
    not a non-empty string) the validator returns [valid: false] with a
    diagnostic that names a field that is so, and when all are present and
    well typed it returns [valid: true], attaching warnings exactly when a
    source scale is given and the number of dimensions, or the number of
    items of a dimension at a position both have, differs from the
    source. *)
Theorem validateAdaptScaleResponse_verdict (gptResult : JValue) (sourceScale : option Scale) :
  (truthy gptResult = false →
     validateAdaptScaleResponse gptResult sourceScale
       = Return (rejected (JStr "No response"))) ∧
  (truthy gptResult = true →
  (truthy (field gptResult "error") = true →
     validateAdaptScaleResponse gptResult sourceScale
       = Return (rejected (field gptResult "error"))) ∧
  (truthy (field gptResult "error") = false →
   entries_defined gptResult = true →
     (required_fields_ok gptResult = false →
        ∃ f msg,
          validateAdaptScaleResponse gptResult sourceScale
            = Return (rejected (JStr msg)) ∧
          FieldDiagnostic f msg ∧ offending gptResult f) ∧
     (required_fields_ok gptResult = true →
        ∃ ws,
          validateAdaptScaleResponse gptResult sourceScale
            = Return {| valid := true; error := None; warnings := ws |} ∧
          (is_Some ws ↔
           ∃ src, sourceScale = Some src ∧ structure_differs gptResult src)))).
Proof.
  split.
  { intros Hfalsy. unfold validateAdaptScaleResponse. by rewrite Hfalsy. }
  intros Htruthy.
  assert (defined gptResult = true) as Hd by (by destruct gptResult).
  unfold validateAdaptScaleResponse. rewrite Htruthy. cbn [negb].
  rewrite (prop_defined gptResult "error" Hd), bind_Return.
  split; [by intros -> |]. intros Herr Hdef. rewrite Herr.
  rewrite (prop_defined gptResult "scale_name" Hd), bind_Return.
  unfold required_fields_ok.
  destruct (as_nonempty_string (field gptResult "scale_name")) as [sname |] eqn:Hname.
  2: { apply as_nonempty_string_None in Hname. rewrite Hname. split; [| done].
       intros _. exists F_scale_name, "Missing scale_name".
       split; [done |]. split; [constructor | done]. }
  apply as_nonempty_string_Some in Hname. rewrite Hname.
  rewrite (prop_defined gptResult "dimensions" Hd), bind_Return.
  destruct (as_nonempty_array (field gptResult "dimensions")) as [ds |] eqn:Harr.
  2: { apply as_nonempty_array_None in Harr. rewrite Harr. split; [| done].
       intros _. exists F_dimensions, "Missing or empty dimensions".
       split; [done |]. split; [constructor | done]. }
  apply as_nonempty_array_Some in Harr as [Harr Hels]. rewrite Harr. cbn [andb].
  unfold entries_defined in Hdef. rewrite Hels in *.
  destruct (validate_dimensions_spec ds 0 Hdef)
    as [[Hok (checked & Hc & Hmap)] | (f & msg & Hc & Hdiag & Hoff)].
  - rewrite Hok, Hc, bind_Return. split; [done |]. intros _.
    eexists. split; [reflexivity |].
    destruct sourceScale as [src |].
    + pose proof (structure_warnings_cases gptResult checked src) as Hw.
      rewrite Hels in Hw. destruct (Hw Hmap) as [[Hnil Hsame] | [Hne Hdiff]].
      * rewrite Hnil. split; [intros [? ?]; done |].
        intros (src' & [= <-] & Hdiff). done.
      * destruct (structure_warnings checked (Some src)) as [| w ws]; [done |].
        split; [| by eauto]. intros _. by exists src.
    + simpl. split; [intros [? ?]; done | intros (src & ? & _); done].
  - rewrite Hc, bind_Return. split; [| intros Hok].
    + intros _. exists f, msg. split; [done |]. split; [done |].
      destruct f; simpl in *; try done; by rewrite Hels.
    + exfalso. clear Hc Hdiag. destruct f; simpl in Hoff; try done.
      * destruct Hoff as (dim & Hin & Hb). forallb_at Hok dim.
        unfold dimension_ok in Hok. rewrite Hb in Hok. done.
      * destruct Hoff as (dim & Hin & Hb). forallb_at Hok dim.
        unfold dimension_ok in Hok. rewrite Hb, andb_false_r in Hok. done.
      * destruct Hoff as (dim & item & Hin & Hit & Hb). forallb_at Hok dim.
        unfold dimension_ok in Hok. apply andb_true_iff in Hok as [_ Hok].
        forallb_at Hok item. congruence.
Qed.

Lemma validateAdaptScaleResponse_verdict_witness :
  truthy payload_valid = true ∧
  ∃ ws,
    validateAdaptScaleResponse payload_valid
      (Some (example_scale "root" None true 100 250))
      = Return {| valid := true; error := None; warnings := ws |} ∧
    (is_Some ws ↔
     ∃ src, Some (example_scale "root" None true 100 250) = Some src ∧
            structure_differs payload_valid src).
Proof.
  split; [reflexivity |].
  apply (proj2 (proj2 (validateAdaptScaleResponse_verdict payload_valid
                         (Some (example_scale "root" None true 100 250))) eq_refl)
               eq_refl eq_refl).
  reflexivity.
Defined.

End Validator.

(** * Further properties of the code *)

(** ** Maps and loops that collect *)

Section MapFacts.
Context {V : Type}.

Lemma Map_get_elem (m : list (string * V)) (k : string) (v : V) :
  Map_get String.eqb m k = Some v → (k, v) ∈ m.
Proof.
  unfold Map_get. induction m as [| [k' v'] m IH]; simpl; [done |].
  destruct (String.eqb k k') eqn:Hk; simpl.
  - apply String.eqb_eq in Hk. intros [= ->]. subst. apply list_elem_of_here.
  - intros H. apply list_elem_of_further. by apply IH.
Qed.

Lemma Map_get_None (m : list (string * V)) (k : string) :
  Map_get String.eqb m k = None ↔ k ∉ Map_keys m.
Proof.
  unfold Map_get, Map_keys. induction m as [| [k' v'] m IH]; simpl.
  - split; [intros _; apply not_elem_of_nil | done].
  - rewrite not_elem_of_cons. destruct (String.eqb k k') eqn:Hk; simpl.
    + apply String.eqb_eq in Hk. split; [done | intros [Hne _]; done].
    + apply String.eqb_neq in Hk. rewrite IH. tauto.
Qed.

Lemma Map_get_unique (m : list (string * V)) (k : string) (v : V) :
  NoDup (Map_keys m) → (k, v) ∈ m → Map_get String.eqb m k = Some v.
Proof.
  unfold Map_get, Map_keys. induction m as [| [k' v'] m IH]; simpl.
  - intros _ H. by apply elem_of_nil in H.
  - intros Hnd Hin. apply NoDup_cons in Hnd as [Hfresh Hnd].
    apply elem_of_cons in Hin as [[= <- <-] | Hin].
    + by rewrite (proj2 (String.eqb_eq k k) eq_refl).
    + destruct (String.eqb k k') eqn:Hk; simpl; [| by apply IH].
      apply String.eqb_eq in Hk. subst k'. exfalso. apply Hfresh.
      apply list_elem_of_In, in_map_iff. exists (k, v).
      split; [done | by apply list_elem_of_In].
Qed.

Lemma Map_entry_unique (m : list (string * V)) (k : string) (v v' : V) :
  NoDup (Map_keys m) → (k, v) ∈ m → (k, v') ∈ m → v = v'.
Proof.
  intros Hnd H1 H2. apply (Map_get_unique m k v Hnd) in H1.
  apply (Map_get_unique m k v' Hnd) in H2. congruence.
Qed.

(** What a lookup finds after [Map.set], for string keys. *)
Lemma Map_get_set (m : list (string * V)) (k k' : string) (v : V) :
  Map_get String.eqb (Map_set String.eqb m k v) k'
  = if String.eqb k k' then Some v else Map_get String.eqb m k'.
Proof.
  assert (∀ l,
    Map_get String.eqb (map (λ e, if String.eqb k e.1 then (e.1, v) else e) l) k'
    = if String.eqb k k'
      then (if Map_has String.eqb l k then Some v else None)
      else Map_get String.eqb l k') as Hmap.
  { unfold Map_get, Map_has. induction l as [| [a b] l IH]; simpl.
    - by destruct (String.eqb k k').
    - destruct (String.eqb k a) eqn:Hka; simpl.
      + apply String.eqb_eq in Hka. subst a.
        rewrite (String.eqb_sym k' k). destruct (String.eqb k k') eqn:Hkk; simpl;
          [done | exact IH].
      + destruct (String.eqb k' a) eqn:Hk'a; simpl.
        * apply String.eqb_eq in Hk'a. subst a. by rewrite Hka.
        * rewrite IH. done. }
  assert (∀ l,
    Map_get String.eqb (l ++ [(k, v)]) k'
    = match Map_get String.eqb l k' with
      | Some x => Some x
      | None => if String.eqb k k' then Some v else None
      end) as Happ.
  { unfold Map_get. induction l as [| [a b] l IH]; simpl.
    - rewrite (String.eqb_sym k' k). by destruct (String.eqb k k').
    - destruct (String.eqb k' a); simpl; [done | exact IH]. }
  unfold Map_set. destruct (Map_has String.eqb m k) eqn:Hhas.
  - rewrite Hmap, Hhas. done.
  - rewrite Happ. destruct (String.eqb k k') eqn:Hkk.
    + apply String.eqb_eq in Hkk. subst k'.
      assert (Map_get String.eqb m k = None) as ->; [| done].
      apply Map_get_None. intros Hin. apply Map_has_keys in Hin. congruence.
    + by destruct (Map_get String.eqb m k').
Qed.

End MapFacts.

(** A loop that pushes [f e] for the entries [e] that pass [P]. *)
Lemma fold_push_filter {A B : Type} (P : A → bool) (f : A → B) (l : list A)
    (acc : list B) :
  fold_left (λ acc e, if P e then acc ++ [f e] else acc) l acc
  = acc ++ map f (List.filter P l).
Proof.
  revert acc. induction l as [| e l IH]; intros acc; simpl.
  - by rewrite app_nil_r.
  - rewrite IH. destruct (P e); simpl; [by rewrite <- app_assoc | done].
Qed.

(** ** Children, parents, siblings *)

Section Relatives.
Import ScaleGraph.

Lemma getChildren_filter (scales : list (string * Scale)) (p : string) :
  getChildren scales p
  = map fst (List.filter (λ e, bool_decide (parent_scale_id e.2 = Some p)) scales).
Proof.
  unfold getChildren.
  by rewrite (fold_push_filter (λ e, bool_decide (parent_scale_id e.2 = Some p)) fst).
Qed.

Lemma getChildren_spec (scales : list (string * Scale)) (p x : string) :
  x ∈ getChildren scales p ↔ ∃ s, (x, s) ∈ scales ∧ parent_scale_id s = Some p.
Proof.
  rewrite getChildren_filter, list_elem_of_In, in_map_iff. split.
  - intros ([k s] & <- & Hin). apply filter_In in Hin as [Hin Hp].
    apply bool_decide_eq_true in Hp. exists s. split; [by apply list_elem_of_In | done].
  - intros (s & Hin & Hp). exists (x, s). split; [done |].
    apply filter_In. split; [by apply list_elem_of_In | by apply bool_decide_eq_true].
Qed.

Lemma getChildren_keys (scales : list (string * Scale)) (p x : string) :
  x ∈ getChildren scales p → x ∈ Map_keys scales.
Proof.
  intros (s & Hin & _)%getChildren_spec.
  apply list_elem_of_In, in_map_iff. exists (x, s). split; [done | by apply list_elem_of_In].
Qed.

(** X1. [getParent] and [getChildren] are two views of one relation: an
    unknown id has no parent; the parent that [getParent] returns is
    stored under a non-empty id whose children include the scale; and,
    when keys are unique, a scale listed among the children of a non-empty
    id under which a scale is stored has that scale as its parent. *)
Theorem getParent_getChildren (scales : list (string * Scale)) (childId : string) :
  (Map_get String.eqb scales childId = None → getParent scales childId = None) ∧
  (∀ parent, getParent scales childId = Some parent →
     ∃ pid, pid ≠ "" ∧ Map_get String.eqb scales pid = Some parent ∧
            childId ∈ getChildren scales pid) ∧
  (NoDup (Map_keys scales) →
   ∀ pid parent, pid ≠ "" → childId ∈ getChildren scales pid →
     Map_get String.eqb scales pid = Some parent →
     getParent scales childId = Some parent).
Proof.
  unfold getParent. split; [by intros -> |]. split.
  - intros parent Hp.
    destruct (Map_get String.eqb scales childId) as [s |] eqn:Hget; [| done].
    destruct (parent_scale_id s) as [pid |] eqn:Hpid; [| done].
    destruct (truthy_string pid) eqn:Ht; [| done].
    exists pid. split; [by apply truthy_string_true |]. split; [done |].
    apply getChildren_spec. exists s. split; [by apply Map_get_elem | done].
  - intros Hnd pid parent Hne (s & Hin & Hpid)%getChildren_spec Hparent.
    rewrite (Map_get_unique scales childId s Hnd Hin), Hpid.
    apply truthy_string_true in Hne. by rewrite Hne.
Qed.

Lemma getSiblings_spec (scales : list (string * Scale)) (x y : string) :
  y ∈ getSiblings scales x ↔
  ∃ sx sy, Map_get String.eqb scales x = Some sx ∧
           truthy_id (parent_scale_id sx) = true ∧
           (y, sy) ∈ scales ∧ y ≠ x ∧ parent_scale_id sy = parent_scale_id sx.
Proof.
  unfold getSiblings. destruct (Map_get String.eqb scales x) as [sx |] eqn:Hx.
  2: { split; [intros H; by apply elem_of_nil in H | intros (? & ? & ? & _); done]. }
  destruct (truthy_id (parent_scale_id sx)) eqn:Ht; simpl.
  2: { split; [intros H; by apply elem_of_nil in H |].
       intros (sx' & ? & [= <-] & Ht' & _). congruence. }
  rewrite (fold_push_filter
             (λ e, negb (String.eqb e.1 x) &&
                   bool_decide (parent_scale_id e.2 = parent_scale_id sx)) fst).
  simpl. rewrite list_elem_of_In, in_map_iff. split.
  - intros ([k sy] & <- & Hin). apply filter_In in Hin as [Hin Hc].
    apply andb_true_iff in Hc as [Hne Hp]. apply negb_true_iff, String.eqb_neq in Hne.
    apply bool_decide_eq_true in Hp. exists sx, sy.
    split; [done |]. split; [done |]. split; [by apply list_elem_of_In | done].
  - intros (sx' & sy & [= <-] & _ & Hin & Hne & Hp). exists (y, sy). split; [done |].
    apply filter_In. split; [by apply list_elem_of_In |]. apply andb_true_iff. split.
    + by apply negb_true_iff, String.eqb_neq.
    + by apply bool_decide_eq_true.
Qed.

(** X2. Siblings: when keys are unique, [y] among the siblings of [x]
    means that [x] is among the siblings of [y], and a scale is never its
    own sibling. *)
Theorem getSiblings_symmetric (scales : list (string * Scale)) (x y : string) :
  NoDup (Map_keys scales) →
  y ∈ getSiblings scales x →
  x ∈ getSiblings scales y ∧ x ≠ y.
Proof.
  intros Hnd (sx & sy & Hx & Ht & Hin & Hne & Hp)%getSiblings_spec.
  split; [| by intros ->]. apply getSiblings_spec. exists sy, sx.
  split; [by apply Map_get_unique |]. split; [by rewrite Hp |].
  split; [by apply Map_get_elem |]. split; [by intros -> | done].
Qed.

Lemma getSiblings_symmetric_witness :
  NoDup (Map_keys example_chain) ∧ "boomer" ∈ getSiblings example_chain "A" ∧
  "A" ∈ getSiblings example_chain "boomer" ∧ "A" ≠ "boomer".
Proof.
  assert (NoDup (Map_keys example_chain)) as Hnd
    by (refine (bool_decide_unpack _ _); exact I).
  assert ("boomer" ∈ getSiblings example_chain "A") as Hin
    by (refine (bool_decide_unpack _ _); exact I).
  split; [exact Hnd |]. split; [exact Hin |].
  exact (getSiblings_symmetric example_chain "A" "boomer" Hnd Hin).
Defined.

(** X3. Without a prefix, or with the empty prefix, [countBranches] is the
    number of ids [getChildren] lists; with a prefix it never exceeds that
    number. *)
Theorem countBranches_getChildren (scales : list (string * Scale)) (parentId : string) :
  countBranches scales parentId None = length (getChildren scales parentId) ∧
  countBranches scales parentId (Some "") = length (getChildren scales parentId) ∧
  ∀ idPrefix,
    (countBranches scales parentId idPrefix ≤ length (getChildren scales parentId))%nat.
Proof.
  assert (∀ idPrefix l c acc,
    let count :=
      fold_left
        (λ count e,
           if bool_decide (parent_scale_id e.2 = Some parentId) then
             if negb (truthy_id idPrefix) || String.prefix (default "" idPrefix) e.1
             then S count else count
           else count) l c in
    let children :=
      fold_left
        (λ children e,
           if bool_decide (parent_scale_id e.2 = Some parentId)
           then children ++ [e.1] else children) l acc in
    (count + length acc ≤ c + length children)%nat ∧
    (truthy_id idPrefix = false → count + length acc = c + length children)%nat)
    as Hfold.
  { intros idPrefix l. induction l as [| e l IH]; intros c acc; simpl; [lia |].
    destruct (bool_decide (parent_scale_id e.2 = Some parentId)); [| apply IH].
    destruct (truthy_id idPrefix) eqn:Ht; simpl.
    - destruct (String.prefix (default "" idPrefix) e.1).
      + destruct (IH (S c) (acc ++ [e.1])) as [H1 H2]. rewrite length_app in *.
        simpl in *. split; [lia | done].
      + destruct (IH c (acc ++ [e.1])) as [H1 H2]. rewrite length_app in *.
        simpl in *. split; [lia | done].
    - destruct (IH (S c) (acc ++ [e.1])) as [H1 H2]. rewrite length_app in *.
      simpl in *. split; [lia |]. intros _. specialize (H2 eq_refl). lia. }
  unfold countBranches, getChildren. split; [| split].
  - destruct (Hfold None scales O []) as [_ H]. specialize (H eq_refl).
    cbv zeta in H. rewrite Nat.add_0_r in H. exact H.
  - destruct (Hfold (Some "") scales O []) as [_ H]. specialize (H eq_refl).
    cbv zeta in H. rewrite Nat.add_0_r in H. exact H.
  - intros idPrefix. destruct (Hfold idPrefix scales O []) as [H _].
    cbv zeta in H. rewrite Nat.add_0_r in H. exact H.
Qed.

End Relatives.

(** ** Descendants by breadth-first search *)

Section Descendants.
Import ScaleGraph.
Variable scales : list (string * Scale).

Lemma reached_snoc (t p x : string) :
  reached scales t p → x ∈ getChildren scales p → reached scales t x.
Proof.
  intros Hr Hx. induction Hr as [t p Hp | t c p Hc Hr IH].
  - eapply reached_below; [exact Hp | by apply reached_child].
  - eapply reached_below; [exact Hc | by apply IH].
Qed.

Lemma reached_key (t x : string) : reached scales t x → x ∈ Map_keys scales.
Proof.
  intros Hr. induction Hr as [t x Hx | t c x Hc Hr IH]; [| done].
  by eapply getChildren_keys.
Qed.

(** Whatever the search returns is the set of the ids reached. *)
Lemma descendants_while_sound (root : string) (steps : nat) :
  ∀ (processed queue desc r : list string),
    (∀ x, x ∈ desc → reached scales root x) →
    (∀ x, x ∈ queue → x = root ∨ x ∈ desc) →
    (∀ x, x = root ∨ x ∈ desc → x ∈ processed ∨ x ∈ queue) →
    (∀ d c, d ∈ processed → c ∈ getChildren scales d → c ∈ desc) →
    descendants_while steps scales queue desc = Some r →
    ∀ x, x ∈ r ↔ reached scales root x.
Proof.
  assert (∀ (processed desc : list string),
            (∀ x, x ∈ desc → reached scales root x) →
            (∀ x, x = root ∨ x ∈ desc → x ∈ processed ∨ x ∈ (@nil string)) →
            (∀ d c, d ∈ processed → c ∈ getChildren scales d → c ∈ desc) →
            ∀ x, x ∈ desc ↔ reached scales root x) as Hdone.
  { intros processed desc H1 H3 H4 x. split; [apply H1 |].
    assert (∀ t y, reached scales t y → t = root ∨ t ∈ desc → y ∈ desc) as Hclosed.
    { intros t y Hr. induction Hr as [t y Hy | t c y Hc Hr IH]; intros Ht.
      - destruct (H3 t Ht) as [Hp | Hq]; [| by apply elem_of_nil in Hq]. eauto.
      - apply IH. right. destruct (H3 t Ht) as [Hp | Hq]; [| by apply elem_of_nil in Hq].
        eauto. }
    intros Hr. apply (Hclosed root x Hr). by left. }
  induction steps as [| n IH]; intros processed queue desc r H1 H2 H3 H4 Hrun.
  - destruct queue as [| h rest]; [| done]. injection Hrun as <-. by eapply Hdone.
  - destruct queue as [| h rest].
    { injection Hrun as <-. by eapply Hdone. }
    simpl in Hrun.
    apply (IH (h :: processed) (rest ++ getChildren scales h)
              (desc ++ getChildren scales h) r); [| | | | exact Hrun].
    + intros x [Hx | Hx]%elem_of_app; [by apply H1 |].
      destruct (H2 h (list_elem_of_here _ _)) as [-> | Hh].
      * by apply reached_child.
      * eapply reached_snoc; [by apply H1 | done].
    + intros x [Hx | Hx]%elem_of_app.
      * destruct (H2 x (list_elem_of_further _ _ _ Hx)) as [-> | Hd]; [by left |].
        right. apply elem_of_app. by left.
      * right. apply elem_of_app. by right.
    + intros x [-> | [Hx | Hx]%elem_of_app].
      * destruct (H3 root (or_introl eq_refl)) as [Hp | [-> | Hq]%elem_of_cons].
        -- left. by apply list_elem_of_further.
        -- left. apply list_elem_of_here.
        -- right. apply elem_of_app. by left.
      * destruct (H3 x (or_intror Hx)) as [Hp | [-> | Hq]%elem_of_cons].
        -- left. by apply list_elem_of_further.
        -- left. apply list_elem_of_here.
        -- right. apply elem_of_app. by left.
      * right. apply elem_of_app. by right.
    + intros d c [-> | Hd]%elem_of_cons Hc; apply elem_of_app; [by right |].
      left. by eapply H4.
Qed.

Lemma getDescendants_sound (steps : nat) (root : string) (r : list string) :
  getDescendants_within steps scales root = Some r →
  ∀ x, x ∈ r ↔ reached scales root x.
Proof.
  intros Hrun. apply (descendants_while_sound root steps [] [root] [] r); [| | | | done].
  - intros x Hx. by apply elem_of_nil in Hx.
  - intros x Hx. left. by apply list_elem_of_singleton in Hx.
  - intros x [-> | Hx]; [right; apply list_elem_of_here | by apply elem_of_nil in Hx].
  - intros d c Hd. by apply elem_of_nil in Hd.
Qed.

Lemma getChildren_NoDup (p : string) :
  NoDup (Map_keys scales) → NoDup (getChildren scales p).
Proof.
  intros Hnd. rewrite getChildren_filter. unfold Map_keys in Hnd.
  induction scales as [| e l IH]; simpl; [constructor |].
  simpl in Hnd. apply NoDup_cons in Hnd as [Hfresh Hnd].
  destruct (bool_decide (parent_scale_id e.2 = Some p)); simpl; [| by apply IH].
  apply NoDup_cons. split; [| by apply IH]. intros Hin. apply Hfresh.
  apply list_elem_of_In, in_map_iff in Hin as (e' & He' & Hin).
  apply filter_In in Hin as [Hin _]. rewrite <- He'.
  apply list_elem_of_In, in_map. done.
Qed.

(** The search returns when keys are unique and no path leads from the
    root id back to it. *)
Lemma descendants_while_returns (root : string) :
  NoDup (Map_keys scales) → ¬ reached scales root root →
  ∀ (steps : nat) (processed queue desc : list string),
    processed ++ queue = root :: desc →
    NoDup (root :: desc) →
    (∀ x, x ∈ desc → ∃ d, d ∈ processed ∧ x ∈ getChildren scales d) →
    (∀ x, x ∈ desc → reached scales root x) →
    (S (length scales) - length processed ≤ steps)%nat →
    ∃ r, descendants_while steps scales queue desc = Some r ∧ NoDup r.
Proof.
  intros Hkeys Hacyclic.
  induction steps as [| n IH]; intros processed queue desc Heq Hnd Hpar Hreach Hsteps;
    (destruct queue as [| h rest];
     [exists desc; split; [done | by apply NoDup_cons in Hnd as [_ ?]] |]).
  - exfalso.
    assert (length desc ≤ length scales)%nat as Hlen.
    { apply NoDup_cons in Hnd as [_ Hnd].
      assert (desc ⊆+ Map_keys scales) as Hsub.
      { apply NoDup_submseteq; [done |]. intros x Hx. by eapply reached_key, Hreach. }
      apply submseteq_length in Hsub. unfold Map_keys in Hsub.
      by rewrite length_map in Hsub. }
    assert (length (processed ++ h :: rest) = S (length desc)) as Hl by (by rewrite Heq).
    rewrite length_app in Hl. simpl in Hl. lia.
  - simpl.
    assert (h = root ∨ h ∈ desc) as Hh.
    { assert (h ∈ root :: desc) as Hin.
      { rewrite <- Heq. apply elem_of_app. right. apply list_elem_of_here. }
      by apply elem_of_cons in Hin. }
    assert (∀ c, c ∈ getChildren scales h → reached scales root c) as Hchild.
    { intros c Hc. destruct Hh as [-> | Hh]; [by apply reached_child |].
      eapply reached_snoc; [by apply Hreach | done]. }
    apply (IH (processed ++ [h]) (rest ++ getChildren scales h)
              (desc ++ getChildren scales h)).
    + change (root :: desc ++ getChildren scales h)
        with ((root :: desc) ++ getChildren scales h).
      rewrite <- Heq, <- !app_assoc. done.
    + change (root :: desc ++ getChildren scales h)
        with ((root :: desc) ++ getChildren scales h).
      apply NoDup_app. split; [done |]. split; [| by apply getChildren_NoDup].
      intros x Hx Hc. apply elem_of_cons in Hx as [-> | Hx].
      * apply Hacyclic. by apply Hchild.
      * destruct (Hpar x Hx) as (d & Hd & Hxd).
        apply getChildren_spec in Hxd as (s & Hs & Hps).
        apply getChildren_spec in Hc as (s' & Hs' & Hps').
        assert (s = s') as <- by (by eapply Map_entry_unique).
        assert (d = h) as -> by congruence.
        rewrite <- Heq in Hnd. apply NoDup_app in Hnd as (_ & Hdisj & _).
        apply (Hdisj h Hd). apply list_elem_of_here.
    + intros x [Hx | Hx]%elem_of_app.
      * destruct (Hpar x Hx) as (d & Hd & Hxd). exists d. split; [| done].
        apply elem_of_app. by left.
      * exists h. split; [| done]. apply elem_of_app. right. apply list_elem_of_here.
    + intros x [Hx | Hx]%elem_of_app; [by apply Hreach | by apply Hchild].
    + rewrite length_app. simpl. lia.
Qed.

(** X4. When keys are unique and no chain of children leads from
    [rootId] back to [rootId], [getDescendants] returns after taking at
    most [length scales + 1] ids off its queue; what it returns has no
    repeated id and holds exactly the ids reached from [rootId] child by
    child, [rootId] itself not among them. *)
Theorem getDescendants_returns (rootId : string) :
  NoDup (Map_keys scales) →
  ¬ reached scales rootId rootId →
  ∃ r,
    getDescendants_within (S (length scales)) scales rootId = Some r ∧
    NoDup r ∧ (rootId ∉ r) ∧
    ∀ x, x ∈ r ↔ reached scales rootId x.
Proof.
  intros Hkeys Hacyclic.
  destruct (descendants_while_returns rootId Hkeys Hacyclic
              (S (length scales)) [] [rootId] []) as (r & Hr & Hnd).
  - done.
  - apply NoDup_singleton.
  - intros x Hx. by apply elem_of_nil in Hx.
  - intros x Hx. by apply elem_of_nil in Hx.
  - simpl. lia.
  - exists r. pose proof (getDescendants_sound _ _ _ Hr) as Hs.
    split; [done |]. split; [done |]. split; [| done].
    intros Hin. by apply Hacyclic, Hs.
Qed.

Lemma cycle_child (h : string) :
  reached scales h h → ∃ c, c ∈ getChildren scales h ∧ reached scales c c.
Proof.
  intros Hr. inversion Hr as [t x Hx | t c x Hc Hcx]; subst.
  - exists h. done.
  - exists c. split; [done |]. by eapply reached_snoc.
Qed.

Lemma descendants_while_diverges (steps : nat) :
  ∀ (queue desc : list string),
    (∃ c, c ∈ queue ∧ reached scales c c) →
    descendants_while steps scales queue desc = None.
Proof.
  induction steps as [| n IH]; intros queue desc (c & Hc & Hcyc);
    (destruct queue as [| h rest]; [by apply elem_of_nil in Hc |]); [done |].
  simpl. apply IH. apply elem_of_cons in Hc as [-> | Hc].
  - destruct (cycle_child h Hcyc) as (c' & Hc' & Hcyc').
    exists c'. split; [| done]. apply elem_of_app. by right.
  - exists c. split; [| done]. apply elem_of_app. by left.
Qed.

(** X5. When a chain of children leads from [rootId] back to [rootId]
    (the parent links form a cycle through it), [getDescendants] does not
    return: whatever number of queue steps it is given, the queue is not
    empty at the end. *)
Theorem getDescendants_cycle (rootId : string) :
  reached scales rootId rootId →
  ∀ steps, getDescendants_within steps scales rootId = None.
Proof.
  intros Hcyc steps. apply descendants_while_diverges.
  exists rootId. split; [apply list_elem_of_here | done].
Qed.

Lemma descendant_trans (a b c : string) :
  descendant scales a b → descendant scales b c → descendant scales a c.
Proof.
  intros Hab Hbc. induction Hbc as [x s Hin Hl | x s p Hin Hl Hd IH].
  - by eapply descendant_below.
  - by eapply descendant_below.
Qed.

Lemma descendant_reached (t x : string) :
  descendant scales t x → reached scales t x.
Proof.
  intros Hd. induction Hd as [x s Hin Hl | x s p Hin Hl Hd IH].
  - apply reached_child, getChildren_spec. exists s. split; [done |].
    by apply parent_link_Some in Hl as [? _].
  - eapply reached_snoc; [exact IH |]. apply getChildren_spec. exists s.
    split; [done |]. by apply parent_link_Some in Hl as [? _].
Qed.

Lemma reached_descendant (t x : string) :
  "" ∉ Map_keys scales → t ≠ "" → reached scales t x → descendant scales t x.
Proof.
  intros Hkeys Ht Hr. induction Hr as [t x Hx | t c x Hc Hr IH].
  - apply getChildren_spec in Hx as (s & Hin & Hp). eapply descendant_child; [done |].
    apply parent_link_Some. split; [done | by apply truthy_string_true].
  - apply (descendant_trans t c x).
    + apply getChildren_spec in Hc as (s & Hin & Hp). eapply descendant_child; [done |].
      apply parent_link_Some. split; [done | by apply truthy_string_true].
    + apply IH. intros ->. apply Hkeys. by eapply getChildren_keys.
Qed.

End Descendants.

Section DescendantsAndCascade.
Import ScaleGraph.

Lemma getDescendants_returns_witness :
  ∃ r,
    getDescendants_within (S (length example_chain)) example_chain "A" = Some r ∧
    NoDup r ∧ ("A" ∉ r) ∧
    ∀ x, x ∈ r ↔ reached example_chain "A" x.
Proof.
  apply (getDescendants_returns example_chain "A").
  - refine (bool_decide_unpack _ _). exact I.
  - intros Hcyc.
    apply (getDescendants_sound example_chain 10 "A" ["B"; "C"] eq_refl) in Hcyc.
    revert Hcyc. refine (bool_decide_unpack _ _). exact I.
Defined.

Lemma getDescendants_cycle_witness :
  reached example_cycle "a" "a" ∧
  ∀ steps, getDescendants_within steps example_cycle "a" = None.
Proof.
  assert (reached example_cycle "a" "a") as Hcyc.
  { apply (reached_below example_cycle "a" "b" "a").
    - refine (bool_decide_unpack _ _). exact I.
    - apply reached_child. refine (bool_decide_unpack _ _). exact I. }
  split; [exact Hcyc |]. exact (getDescendants_cycle example_cycle "a" Hcyc).
Defined.

(** X6. For a non-empty target id, in a collection where no scale is
    stored under the empty id, the cascade delete set is the target
    together with what [getDescendants] returns, whenever the latter
    returns. *)
Theorem cascade_is_target_and_descendants (scales : list (string * Scale))
    (targetId : string) (steps : nat) (ds : list string) :
  targetId ≠ "" →
  "" ∉ Map_keys scales →
  getDescendants_within steps scales targetId = Some ds →
  ∃ r, buildCascadeDeleteSet scales targetId = Some r ∧
       ∀ x, x ∈ r ↔ x = targetId ∨ x ∈ ds.
Proof.
  intros Ht Hkeys Hds.
  destruct (buildCascadeDeleteSet_returns scales targetId) as (r & Hr & _ & Hm).
  exists r. split; [done |]. intros x. rewrite Hm, (getDescendants_sound scales _ _ _ Hds).
  unfold in_cascade. split; (intros [-> | Hd]; [by left | right]).
  - by apply descendant_reached.
  - by apply reached_descendant.
Qed.

Lemma cascade_is_target_and_descendants_witness :
  ∃ r, buildCascadeDeleteSet example_chain "A" = Some r ∧
       ∀ x, x ∈ r ↔ x = "A" ∨ x ∈ ["B"; "C"].
Proof.
  apply (cascade_is_target_and_descendants example_chain "A" 10 ["B"; "C"]).
  - discriminate.
  - refine (bool_decide_unpack _ _). exact I.
  - reflexivity.
Defined.

End DescendantsAndCascade.

(** ** The parent-to-children tree *)

Section Tree.
Import ScaleGraph.

Lemma Map_has_get {V : Type} (m : list (string * V)) (k : string) :
  Map_has String.eqb m k
  = match Map_get String.eqb m k with Some _ => true | None => false end.
Proof.
  unfold Map_has, Map_get. induction m as [| [k' v'] m IH]; simpl; [done |].
  by destruct (String.eqb k k').
Qed.

Lemma getChildren_snoc (l : list (string * Scale)) (e : string * Scale) (p : string) :
  getChildren (l ++ [e]) p
  = getChildren l p ++ (if bool_decide (parent_scale_id e.2 = Some p) then [e.1] else []).
Proof.
  rewrite !getChildren_filter, List.filter_app, map_app. simpl.
  by destruct (bool_decide (parent_scale_id e.2 = Some p)).
Qed.

(** X7. [buildScaleTree] files every scale under its parent: looking a
    non-empty id up in the tree gives the list [getChildren] gives for
    it, in the same order, when that list is not empty; an id without
    children, and the empty id, have no entry. *)
Theorem buildScaleTree_getChildren (scales : list (string * Scale)) (p : string) :
  Map_get String.eqb (buildScaleTree scales) p
  = if truthy_string p && bool_decide (getChildren scales p ≠ [])
    then Some (getChildren scales p) else None.
Proof.
  revert p. induction scales as [| e l IH] using rev_ind; intros p.
  - simpl. by destruct (truthy_string p).
  - unfold buildScaleTree. rewrite fold_left_app. simpl.
    fold (buildScaleTree l). rewrite getChildren_snoc.
    assert (∀ q, truthy_string q = true →
                 default [] (Map_get String.eqb (buildScaleTree l) q) = getChildren l q)
      as Hdefault.
    { intros q Hq. rewrite (IH q), Hq. simpl.
      case_bool_decide as Hch; [done |].
      destruct (getChildren l q); [done |]. exfalso. first [done | by apply Hch]. }
    unfold tree_visit. destruct (parent_scale_id e.2) as [q |] eqn:Hq.
    + destruct (truthy_string q) eqn:Htq.
      * rewrite Map_get_set. destruct (String.eqb q p) eqn:Hqp.
        -- apply String.eqb_eq in Hqp. subst p.
           rewrite (bool_decide_eq_true_2 (Some q = Some q)) by done.
           rewrite Htq.
           rewrite (bool_decide_eq_true_2 (getChildren l q ++ [e.1] ≠ []))
             by (by destruct (getChildren l q)).
           simpl. f_equal. f_equal. rewrite Map_has_get.
           specialize (Hdefault q Htq).
           destruct (Map_get String.eqb (buildScaleTree l) q) eqn:Hg;
             simpl in Hdefault; [by rewrite Hg |].
           rewrite Map_get_set, (proj2 (String.eqb_eq q q) eq_refl). done.
        -- assert (Map_get String.eqb
                     (if Map_has String.eqb (buildScaleTree l) q
                      then buildScaleTree l
                      else Map_set String.eqb (buildScaleTree l) q []) p
                   = Map_get String.eqb (buildScaleTree l) p) as ->.
           { destruct (Map_has String.eqb (buildScaleTree l) q); [done |].
             by rewrite Map_get_set, Hqp. }
           apply String.eqb_neq in Hqp.
           rewrite (bool_decide_eq_false_2 (Some q = Some p))
             by (intros [= Heq]; by apply Hqp).
           rewrite app_nil_r. apply IH.
      * destruct (bool_decide (Some q = Some p)) eqn:Hp.
        -- apply bool_decide_eq_true_1 in Hp.
           assert (q = p) as -> by congruence. rewrite IH, Htq. done.
        -- rewrite app_nil_r. apply IH.
    + rewrite (bool_decide_eq_false_2 (None = Some p)) by done.
      rewrite app_nil_r. apply IH.
Qed.

End Tree.

(** ** Layout of sibling branches *)

Section LayoutFacts.
Import BranchPositioning.

(** The signed number of rows between a branch and its parent. *)
Lemma branch_offset (k : Z) :
  (0 ≤ k)%Z →
  ((2 * Z.rem k 2 - 1) * (k / 2 + 1)
   = if Z.even k then - (k / 2 + 1) else k / 2 + 1)%Z.
Proof.
  intros Hk. rewrite Z.rem_mod_nonneg by lia. rewrite Zmod_even.
  destruct (Z.even k); lia.
Qed.

Lemma branch_offset_inj (j k : Z) :
  (0 ≤ j)%Z → (0 ≤ k)%Z → j ≠ k →
  ((2 * Z.rem j 2 - 1) * (j / 2 + 1) ≠ (2 * Z.rem k 2 - 1) * (k / 2 + 1))%Z.
Proof.
  intros Hj Hk Hne. rewrite !branch_offset by done.
  pose proof (Z.div_mod j 2 ltac:(lia)) as Ej.
  pose proof (Z.div_mod k 2 ltac:(lia)) as Ek.
  rewrite Zmod_even in Ej, Ek.
  pose proof (Z.div_pos j 2 Hj ltac:(lia)).
  pose proof (Z.div_pos k 2 Hk ltac:(lia)).
  destruct (Z.even j), (Z.even k); lia.
Qed.

(** X8. Sibling branches never share a row, and none sits on the row of
    its parent: with the layout constants of the application, for a
    parent with a position, the positions computed for two different
    non-negative branch indices are in the same column and at the same
    depth, at least one row height (204) apart, and each is at least one
    row height from the parent. *)
Theorem getNextBranchPosition_separated (parent : Scale) (pos : Position) (j k : Z) :
  position parent = Some pos →
  (0 ≤ j)%Z → (0 ≤ k)%Z → j ≠ k →
  let pj := getNextBranchPosition (Some parent) j LAYOUT_CONSTANTS in
  let pk := getNextBranchPosition (Some parent) k LAYOUT_CONSTANTS in
  bp_x pj = bp_x pk ∧ bp_depth pj = bp_depth pk ∧
  (204 ≤ Z.abs (bp_y pj - bp_y pk))%Z ∧
  (204 ≤ Z.abs (bp_y pj - pos_y pos))%Z.
Proof.
  intros Hpos Hj Hk Hne. unfold getNextBranchPosition. rewrite Hpos. simpl.
  split; [done |]. split; [done |].
  pose proof (branch_offset_inj j k Hj Hk Hne) as Hinj.
  assert ((2 * Z.rem j 2 - 1) * (j / 2 + 1) ≠ 0)%Z as Hnz.
  { rewrite branch_offset by done. pose proof (Z.div_pos j 2 Hj ltac:(lia)).
    destruct (Z.even j); lia. }
  change (ROW_HEIGHT LAYOUT_CONSTANTS) with 204%Z.
  set (a := ((2 * Z.rem j 2 - 1) * (j / 2 + 1))%Z) in *.
  set (b := ((2 * Z.rem k 2 - 1) * (k / 2 + 1))%Z) in *.
  split; lia.
Qed.

Lemma getNextBranchPosition_separated_witness :
  let parent := example_scale "root" None true 100 250 in
  let pj := getNextBranchPosition (Some parent) 2 LAYOUT_CONSTANTS in
  let pk := getNextBranchPosition (Some parent) 5 LAYOUT_CONSTANTS in
  bp_x pj = bp_x pk ∧ bp_depth pj = bp_depth pk ∧
  (204 ≤ Z.abs (bp_y pj - bp_y pk))%Z ∧
  (204 ≤ Z.abs (bp_y pj - 250))%Z.
Proof.
  apply (getNextBranchPosition_separated
           (example_scale "root" None true 100 250)
           {| pos_x := 100; pos_y := 250 |} 2 5);
    [reflexivity | lia | lia | lia].
Defined.

(** X9. The layout alternates symmetrically about the row of the parent:
    with the layout constants of the application, for every [m >= 0]
    the branch of index [2m] is [m + 1] rows of 204 above the parent and
    the branch of index [2m + 1] is [m + 1] rows below it, in the same
    column. *)
Theorem getNextBranchPosition_mirror (parent : Scale) (pos : Position) (m : Z) :
  position parent = Some pos →
  (0 ≤ m)%Z →
  let up := getNextBranchPosition (Some parent) (2 * m) LAYOUT_CONSTANTS in
  let down := getNextBranchPosition (Some parent) (2 * m + 1) LAYOUT_CONSTANTS in
  bp_y up = (pos_y pos - (m + 1) * 204)%Z ∧
  bp_y down = (pos_y pos + (m + 1) * 204)%Z ∧
  (bp_y up + bp_y down = 2 * pos_y pos)%Z ∧
  bp_x up = bp_x down.
Proof.
  intros Hpos Hm. unfold getNextBranchPosition. rewrite Hpos. simpl.
  assert ((2 * Z.rem (2 * m) 2 - 1) * (2 * m / 2 + 1) = - (m + 1))%Z as Hup.
  { rewrite branch_offset by lia.
    replace (Z.even (2 * m)) with true
      by (symmetry; rewrite Z.even_spec; by exists m).
    replace (2 * m / 2)%Z with m by (apply Z.div_unique with 0%Z; lia).
    done. }
  assert ((2 * Z.rem (2 * m + 1) 2 - 1) * ((2 * m + 1) / 2 + 1) = m + 1)%Z as Hdown.
  { rewrite branch_offset by lia.
    replace (Z.even (2 * m + 1)) with false
      by (symmetry; rewrite <- Z.negb_odd, negb_false_iff, Z.odd_spec; by exists m).
    replace ((2 * m + 1) / 2)%Z with m by (apply Z.div_unique with 1%Z; lia).
    done. }
  change (ROW_HEIGHT LAYOUT_CONSTANTS) with 204%Z.
  rewrite Hup, Hdown. repeat split; lia.
Qed.

Lemma getNextBranchPosition_mirror_witness :
  let parent := example_scale "root" None true 100 250 in
  let up := getNextBranchPosition (Some parent) (2 * 3) LAYOUT_CONSTANTS in
  let down := getNextBranchPosition (Some parent) (2 * 3 + 1) LAYOUT_CONSTANTS in
  bp_y up = (250 - (3 + 1) * 204)%Z ∧
  bp_y down = (250 + (3 + 1) * 204)%Z ∧
  (bp_y up + bp_y down = 2 * 250)%Z ∧
  bp_x up = bp_x down.
Proof.
  apply (getNextBranchPosition_mirror
           (example_scale "root" None true 100 250)
           {| pos_x := 100; pos_y := 250 |} 3);
    [reflexivity | lia].
Defined.

End LayoutFacts.

(** ** The three response validators *)

Section Validators.
Import OpenAIScaleAdapter GPTScaleService.

(** Reading a field of a truthy value does not throw. *)
Lemma prop_truthy (v : JValue) (k : string) :
  truthy v = true → ∃ x, prop v k = Return x.
Proof.
  destruct v; simpl; intros H; try done; eauto.
Qed.

Lemma as_nonempty_string_truthy (v : JValue) (s : string) :
  as_nonempty_string v = Some s → truthy v = true.
Proof.
  destruct v; simpl; try done. destruct (truthy_string s0); done.
Qed.

Lemma as_nonempty_array_isArray (v : JValue) (l : list JValue) :
  as_nonempty_array v = Some l → isArray v = true.
Proof.
  destruct v; simpl; done.
Qed.

(** X10. The adapter's validator is the strictest of the three: a
    response [validateAdaptScaleResponse] accepts, against any source
    scale, is accepted by the fallback [validateBasic], and
    [validateStructureCSVResponse] reports it valid without an error. *)
Theorem adapter_accepts_then_all_accept (gptResult : JValue)
    (sourceScale : option Scale) (v : Validation) :
  validateAdaptScaleResponse gptResult sourceScale = Return v →
  valid v = true →
  validateBasic gptResult = Return {| valid := true; error := None; warnings := None |} ∧
  ∃ sv, validateStructureCSVResponse gptResult = Return sv ∧
        sv_valid sv = true ∧ sv_error sv = None.
Proof.
  unfold validateAdaptScaleResponse, validateBasic, validateStructureCSVResponse.
  destruct (truthy gptResult) eqn:Ht; simpl; [| by intros [= <-]].
  destruct (prop_truthy gptResult "error" Ht) as [err ->].
  destruct (prop_truthy gptResult "scale_name" Ht) as [sname ->].
  destruct (prop_truthy gptResult "dimensions" Ht) as [dims ->].
  destruct (prop_truthy gptResult "is_valid_scale" Ht) as [isValid ->].
  destruct (prop_truthy gptResult "rejection_reason" Ht) as [reason ->].
  simpl. destruct (truthy err); [by intros [= <-] |].
  destruct (as_nonempty_string sname) as [s |] eqn:Hs; [| by intros [= <-]].
  rewrite (as_nonempty_string_truthy sname s Hs). simpl.
  destruct (as_nonempty_array dims) as [ds |] eqn:Hd; [| by intros [= <-]].
  rewrite (as_nonempty_array_isArray dims ds Hd). simpl.
  intros _ _. split; [done |]. destruct (is_false isValid); eauto.
Qed.

Lemma adapter_accepts_then_all_accept_witness :
  validateBasic payload_valid
  = Return {| valid := true; error := None; warnings := None |} ∧
  ∃ sv, validateStructureCSVResponse payload_valid = Return sv ∧
        sv_valid sv = true ∧ sv_error sv = None.
Proof.
  apply (adapter_accepts_then_all_accept payload_valid None
           {| valid := true; error := None; warnings := None |});
    reflexivity.
Defined.

(** X11. [validateStructureCSVResponse] and [validateBasic] return for
    every payload, no property read of theirs throws; and a payload the
    former reports as a valid scale has a non-empty string [scale_name]
    and an array [dimensions], which may be empty, so that the latter
    accepts it too. *)
Theorem structure_validator_returns (gptResult : JValue) :
  ∃ sv v,
    validateStructureCSVResponse gptResult = Return sv ∧
    validateBasic gptResult = Return v ∧
    (sv_valid sv = false ↔ is_Some (sv_error sv)) ∧
    (sv_isValidScale sv = Some true →
       nonempty_string (field gptResult "scale_name") = true ∧
       isArray (field gptResult "dimensions") = true ∧
       valid v = true).
Proof.
  unfold validateBasic, validateStructureCSVResponse, field.
  destruct (truthy gptResult) eqn:Ht; simpl.
  2: { eexists _, _. split; [done |]. split; [done |]. simpl.
       split; [split; [eauto | done] | done]. }
  destruct (prop_truthy gptResult "scale_name" Ht) as [sname ->].
  destruct (prop_truthy gptResult "dimensions" Ht) as [dims ->].
  destruct (prop_truthy gptResult "is_valid_scale" Ht) as [isValid ->].
  destruct (prop_truthy gptResult "rejection_reason" Ht) as [reason ->].
  simpl.
  assert (∃ v, (if negb (truthy sname)
                then Return (rejected (JStr "Missing scale_name"))
                else if negb (isArray dims)
                     then Return (rejected (JStr "Missing dimensions"))
                     else Return {| valid := true; error := None; warnings := None |})
               = Return v) as [v0 Hv0].
  { destruct (truthy sname), (isArray dims); simpl; eauto. }
  destruct (is_false isValid).
  { eexists _, v0. split; [done |]. split; [exact Hv0 |]. simpl.
    split; [split; [done | by intros [? ?]] | done]. }
  destruct (as_nonempty_string sname) as [s |] eqn:Hs.
  2: { eexists _, v0. split; [done |]. split; [exact Hv0 |]. simpl.
       split; [split; [eauto | done] | done]. }
  simpl. destruct (isArray dims) eqn:Hd; simpl.
  2: { eexists _, v0. split; [done |]. split; [exact Hv0 |]. simpl.
       split; [split; [eauto | done] | done]. }
  eexists _, _. split; [done |].
  rewrite (as_nonempty_string_truthy sname s Hs). simpl. split; [done |]. simpl.
  split; [split; [done | by intros [? ?]] |]. intros _.
  split; [| done]. destruct sname; simpl in *; try done.
  by destruct (truthy_string s0).
Qed.

End Validators.

(** ** Item expansion, and its fallback *)

Section ExpansionFacts.
Import OpenAIScaleAdapter ScaleAssembler.

(** X12. The item ids of an expanded scale are pairwise distinct, across
    all its dimensions. *)
Theorem expandWithRubrics_ids_distinct (gptDimensions : list GptDimension)
    (scaleId : string) (sourceDimensions : list Dimension) :
  NoDup (item_id <$>
           concat (map items (expandWithRubrics gptDimensions scaleId sourceDimensions))).
Proof.
  destruct (expand_dimensions_spec scaleId sourceDimensions gptDimensions 1 0)
    as (_ & _ & H3).
  apply NoDup_alt. intros i j x Hi Hj.
  rewrite list_lookup_fmap in Hi, Hj.
  apply fmap_Some in Hi as (a & Ha & ->). apply fmap_Some in Hj as (b & Hb & Hab).
  apply H3 in Ha, Hb. rewrite Ha, Hb in Hab.
  apply (inj (String.append scaleId)) in Hab.
  apply (inj (String.append "-item-")) in Hab.
  apply (inj pretty) in Hab. lia.
Qed.

(** X13. Expansion keeps the shape of the adaptation: the dimension at
    each position keeps its name and its number of items, each item keeps
    its text and is tagged with the name of its dimension, and its
    [baseline_rubric] is that of the source item at the same position,
    or the mock rubric when the source has none there; so an expanded
    item has no current tags only when the source item has no baseline
    tags. *)
Theorem expandWithRubrics_shape (gptDimensions : list GptDimension) (scaleId : string)
    (sourceDimensions : list Dimension) (d j : nat) (gd : GptDimension) (gi : GptItem) :
  gptDimensions !! d = Some gd →
  gpt_items gd !! j = Some gi →
  ∃ od oi,
    expandWithRubrics gptDimensions scaleId sourceDimensions !! d = Some od ∧
    items od !! j = Some oi ∧
    name od = gpt_name gd ∧
    length (items od) = length (gpt_items gd) ∧
    text oi = gpt_text gi ∧
    dimension oi = gpt_name gd ∧
    baseline_rubric oi
    = match source_item sourceDimensions d j with
      | Some si => baseline_rubric si
      | None => ["Mock Rubric"]
      end ∧
    (current_rubric oi = [] →
       ∃ si, source_item sourceDimensions d j = Some si ∧ baseline_rubric si = []).
Proof.
  intros Hd Hj.
  destruct (expandWithRubrics_lookup gptDimensions scaleId sourceDimensions d j gd gi Hd Hj)
    as (od & c & Hod & Hname & Hlen & Hoi).
  eexists od, _. split; [exact Hod |]. split; [exact Hoi |].
  split; [exact Hname |]. split; [exact Hlen |].
  unfold expand_item, source_item.
  cbn [fst text dimension baseline_rubric current_rubric].
  split; [done |]. split; [done |].
  destruct (sourceDimensions !! d) as [sd |]; simpl.
  - destruct (items sd !! j) as [si |]; simpl.
    + split; [done |]. destruct (gpt_current_rubric gi) as [[| t ts] |]; [| done |]; eauto.
    + split; [done |]. destruct (gpt_current_rubric gi) as [[| t ts] |]; done.
  - split; [done |].
    destruct (gpt_current_rubric gi) as [[| t ts] |]; done.
Qed.

Lemma expandWithRubrics_shape_witness :
  ∃ od oi,
    expandWithRubrics example_adaptation "skala-asli-branch-1" example_source !! 0%nat
    = Some od ∧
    items od !! 1%nat = Some oi ∧
    name od = "Optimisme" ∧
    length (items od) = 3%nat ∧
    text oi = "Aku punya tujuan hidup" ∧
    dimension oi = "Optimisme" ∧
    baseline_rubric oi
    = match source_item example_source 0 1 with
      | Some si => baseline_rubric si
      | None => ["Mock Rubric"]
      end ∧
    (current_rubric oi = [] →
       ∃ si, source_item example_source 0 1 = Some si ∧ baseline_rubric si = []).
Proof.
  apply (expandWithRubrics_shape example_adaptation "skala-asli-branch-1" example_source
           0 1 _ _ eq_refl eq_refl).
Defined.





End ExpansionFacts.

(** ** The store: what a removal counts and clears *)

Section StoreFacts.
Context {V : Type}.

Lemma Map_delete_facts (m : list (string * V)) (id : string) :
  let m' := (Map_delete String.eqb m id).1 in
  (∀ k, Map_has String.eqb m' k = negb (String.eqb id k) && Map_has String.eqb m k) ∧
  (NoDup (Map_keys m) →
     NoDup (Map_keys m') ∧
     (length m' + (if Map_has String.eqb m id then 1 else 0) = length m)%nat).
Proof.
  unfold Map_delete. cbn [fst]. induction m as [| [k v] m [IH1 IH2]].
  - split; [intros k; by destruct (String.eqb id k) | intros _; split; [constructor | done]].
  - rewrite filter_cons. cbn [fst].
    change (Map_has String.eqb ((k, v) :: m) id)
      with (String.eqb id k || Map_has String.eqb m id).
    destruct (decide (String.eqb id k = false)) as [Hk | Hk].
    + split.
      * intros k'.
        change (Map_has String.eqb ((k, v) :: ?l) k')
          with (String.eqb k' k || Map_has String.eqb l k').
        rewrite IH1.
        destruct (String.eqb k' k) eqn:Hk'; [| done]. simpl.
        apply String.eqb_eq in Hk'. subst k'. by rewrite Hk.
      * intros Hnd. apply NoDup_cons in Hnd as [Hfresh Hnd].
        destruct (IH2 Hnd) as [Hnd' Hlen]. rewrite Hk. simpl. split; [| lia].
        apply NoDup_cons. split; [| done]. intros Hin. apply Hfresh.
        apply Map_has_keys in Hin. rewrite IH1 in Hin.
        apply andb_true_iff in Hin as [_ Hin]. by apply Map_has_keys.
    + apply not_false_iff_true in Hk. apply String.eqb_eq in Hk as Heq. subst k.
      split.
      * intros k'.
        change (Map_has String.eqb ((id, v) :: m) k')
          with (String.eqb k' id || Map_has String.eqb m k').
        rewrite IH1. rewrite (String.eqb_sym k' id).
        by destruct (String.eqb id k').
      * intros Hnd. apply NoDup_cons in Hnd as [Hfresh Hnd].
        destruct (IH2 Hnd) as [Hnd' Hlen]. rewrite Hk. simpl. split; [done |].
        destruct (Map_has String.eqb m id) eqn:Hhas; [| lia].
        exfalso. apply Hfresh. by apply Map_has_keys.
Qed.

Lemma remove_one_parts (cs : CanvasState string V) (c : nat) (id : string) :
  ScaleStore.remove_one String.eqb (cs, c) id
  = ({| scales := (Map_delete String.eqb (scales cs) id).1;
        activeScaleId :=
          match activeScaleId cs with
          | Some a =>
              if Map_has String.eqb (scales cs) id && String.eqb a id
              then None else Some a
          | None => None
          end |},
     (c + (if Map_has String.eqb (scales cs) id then 1 else 0))%nat).
Proof.
  unfold ScaleStore.remove_one, Map_delete. cbn [fst].
  destruct (Map_has String.eqb (scales cs) id); simpl.
  - f_equal. lia.
  - f_equal; [| lia]. by destruct (activeScaleId cs).
Qed.

Lemma remove_fold_count (ids : list string) :
  ∀ (cs : CanvasState string V) (c : nat),
    NoDup ids → NoDup (Map_keys (scales cs)) →
    let r := fold_left (ScaleStore.remove_one String.eqb) ids (cs, c) in
    let n := length (List.filter (Map_has String.eqb (scales cs)) ids) in
    r.2 = (c + n)%nat ∧
    (length (scales r.1) + n = length (scales cs))%nat ∧
    NoDup (Map_keys (scales r.1)) ∧
    activeScaleId r.1
    = match activeScaleId cs with
      | Some a =>
          if Set_has String.eqb ids a && Map_has String.eqb (scales cs) a
          then None else Some a
      | None => None
      end.
Proof.
  induction ids as [| id ids IH]; intros cs c Hids Hkeys; cbn [fold_left].
  - simpl. split; [lia |]. split; [lia |]. split; [done |].
    by destruct (activeScaleId cs).
  - apply NoDup_cons in Hids as [Hfresh Hids].
    rewrite remove_one_parts.
    destruct (Map_delete_facts (scales cs) id) as [Hhas Hnd].
    destruct (Hnd Hkeys) as [Hkeys' Hlen]. cbv zeta in Hhas, Hlen, Hkeys'.
    set (cs1 := {| scales := (Map_delete String.eqb (scales cs) id).1;
                   activeScaleId := _ |}).
    specialize (IH cs1 (c + (if Map_has String.eqb (scales cs) id then 1 else 0))%nat
                  Hids Hkeys').
    cbv zeta in IH. destruct IH as (I1 & I2 & I3 & I4).
    assert (List.filter (Map_has String.eqb (scales cs1)) ids
            = List.filter (Map_has String.eqb (scales cs)) ids) as Hsame.
    { apply List.filter_ext_in. intros k Hk. simpl. rewrite Hhas.
      assert (String.eqb id k = false) as ->; [| done].
      apply String.eqb_neq. intros ->. apply Hfresh. by apply list_elem_of_In. }
    rewrite Hsame in I1, I2. cbv zeta. cbn [List.filter].
    split; [| split; [| split; [done |]]].
    + rewrite I1. destruct (Map_has String.eqb (scales cs) id); simpl; lia.
    + subst cs1. cbn [scales] in I2. revert I2 Hlen.
      destruct (Map_has String.eqb (scales cs) id); cbn [length]; lia.
    + rewrite I4. simpl. destruct (activeScaleId cs) as [a |]; [| done].
      change (Set_has String.eqb (id :: ids) a)
        with (String.eqb a id || Set_has String.eqb ids a).
      destruct (String.eqb a id) eqn:Ha.
      * apply String.eqb_eq in Ha. subst a.
        destruct (Map_has String.eqb (scales cs) id) eqn:Hid; simpl; [done |].
        rewrite Hhas, Hid, andb_false_r, andb_false_r. done.
      * rewrite andb_false_r. simpl. rewrite Hhas.
        rewrite String.eqb_sym, Ha. done.
Qed.

(** X15. [removeScalesCascade] counts the ids it finds: for unique keys
    and a set of ids, the count it returns and logs is the number of
    ids that were keys, the store shrinks by exactly that many entries,
    and the active scale is cleared exactly when it is one of the ids
    and was stored. *)
Theorem removeScalesCascade_count (collection : list (string * V))
    (ids : list string) (active : option string) (out : list string) :
  NoDup (Map_keys collection) →
  NoDup ids →
  ∃ cs' n,
    ScaleStore.removeScalesCascade String.eqb (IdSet ids)
      {| _canvasState := Some {| scales := collection; activeScaleId := active |};
         console := out |}
    = ({| _canvasState := Some cs';
          console := out ++ ["[ScaleStore] Removed " +:+ pretty n +:+ " scales"] |}, n) ∧
    n = length (List.filter (Map_has String.eqb collection) ids) ∧
    (length (scales cs') + n = length collection)%nat ∧
    NoDup (Map_keys (scales cs')) ∧
    activeScaleId cs'
    = match active with
      | Some a =>
          if Set_has String.eqb ids a && Map_has String.eqb collection a
          then None else Some a
      | None => None
      end.
Proof.
  intros Hkeys Hids.
  pose proof (remove_fold_count ids {| scales := collection; activeScaleId := active |}
                O Hids Hkeys) as H.
  cbv zeta in H. unfold ScaleStore.removeScalesCascade. cbn [_canvasState console].
  destruct (fold_left (ScaleStore.remove_one String.eqb) ids
              ({| scales := collection; activeScaleId := active |}, O))
    as [cs' n].
  cbn [fst snd scales activeScaleId] in H. destruct H as (H1 & H2 & H3 & H4).
  exists cs', n. split; [done |]. rewrite H1. simpl. done.
Qed.

(** Removing ids one at a time with [removeScale] leaves the canvas
    state [removeScalesCascade] leaves. *)
Lemma removeScale_fold (ids : list string) (st : StoreState string V) :
  _canvasState (fold_left (λ s id, (ScaleStore.removeScale String.eqb id s).1) ids st)
  = _canvasState (ScaleStore.removeScalesCascade String.eqb (IdSet ids) st).1.
Proof.
  unfold ScaleStore.removeScalesCascade.
  destruct (_canvasState st) as [cs |] eqn:Hcs.
  - assert (∀ ids (st : StoreState string V) cs c,
              _canvasState st = Some cs →
              _canvasState
                (fold_left (λ s id, (ScaleStore.removeScale String.eqb id s).1) ids st)
              = Some (fold_left (ScaleStore.remove_one String.eqb) ids (cs, c)).1) as Hfold.
    { clear. induction ids as [| id ids IH]; intros st cs c Hcs; [done |].
      cbn [fold_left]. rewrite remove_one_parts.
      apply IH. unfold ScaleStore.removeScale, Map_delete. rewrite Hcs. cbn [fst snd].
      simpl. do 2 f_equal. }
    rewrite (Hfold ids st cs O Hcs).
    by destruct (fold_left (ScaleStore.remove_one String.eqb) ids (cs, O)).
  - simpl. revert st Hcs. induction ids as [| id ids IH]; intros st Hcs; [done |].
    cbn [fold_left].
    assert ((ScaleStore.removeScale String.eqb id st).1 = st) as ->; [| by apply IH].
    unfold ScaleStore.removeScale. by rewrite Hcs.
Qed.

End StoreFacts.

Lemma removeScalesCascade_count_witness :
  ∃ cs' n,
    ScaleStore.removeScalesCascade String.eqb (IdSet ["B"; "missing"])
      {| _canvasState := Some {| scales := example_chain; activeScaleId := Some "B" |};
         console := [] |}
    = ({| _canvasState := Some cs';
          console := [] ++ ["[ScaleStore] Removed " +:+ pretty n +:+ " scales"] |}, n) ∧
    n = length (List.filter (Map_has String.eqb example_chain) ["B"; "missing"]) ∧
    (length (scales cs') + n = length example_chain)%nat ∧
    NoDup (Map_keys (scales cs')) ∧
    activeScaleId cs'
    = match Some "B" with
      | Some a =>
          if Set_has String.eqb ["B"; "missing"] a && Map_has String.eqb example_chain a
          then None else Some a
      | None => None
      end.
Proof.
  apply (removeScalesCascade_count example_chain ["B"; "missing"] (Some "B") []).
  - refine (bool_decide_unpack _ _). exact I.
  - refine (bool_decide_unpack _ _). exact I.
Defined.

(** ** The delete flows, once the user has answered *)

Section DeleteFlow.
Import ScaleGraph.


Lemma fallback_fold (ids : list string) (c : CanvasState string Scale) :
  fold_left
    (λ c id,
       {| scales := (Map_delete String.eqb (scales c) id).1;
          activeScaleId :=
            match activeScaleId c with
            | Some a => if String.eqb a id then None else Some a
            | None => None
            end |})
    ids c
  = {| scales := fold_left (λ m id, (Map_delete String.eqb m id).1) ids (scales c);
       activeScaleId :=
         match activeScaleId c with
         | Some a => if Set_has String.eqb ids a then None else Some a
         | None => None
         end |}.
Proof.
  revert c. induction ids as [| id ids IH]; intros c; cbn [fold_left].
  - destruct c as [m [a |]]; done.
  - rewrite IH. cbn [scales activeScaleId]. f_equal.
    destruct (activeScaleId c) as [a |]; [| done].
    change (Set_has String.eqb (id :: ids) a)
      with (String.eqb a id || Set_has String.eqb ids a).
    by destruct (String.eqb a id).
Qed.

(** X16. [executeDelete] does the same through [CanvasStateOps] and
    through its fallback loop, unless the active id is the empty string:
    either way the map is the one [CanvasStateOps.removeScales] leaves
    for [toDelete], the active id is cleared exactly when it is in
    [toDelete], one line is logged and the canvas is rendered when a
    render callback is given. *)
Theorem executeDelete_paths_agree (w : Window) (toDelete : list string)
    (cs : CanvasState string Scale) (renderFn : bool) :
  activeScaleId cs ≠ Some "" →
  FlowEditorController.executeDelete w toDelete cs renderFn
  = mkRun
      (Log ("[FlowEditorController] Deleted " +:+ pretty (length toDelete) +:+
            " scales via cascade.")
       :: if renderFn then [Render] else [])
      (Some (Return
         {| scales := CanvasStateOps.removeScales (scales cs) (IdSet toDelete);
            activeScaleId :=
              match activeScaleId cs with
              | Some a => if Set_has String.eqb toDelete a then None else Some a
              | None => None
              end |})).
Proof.
  intros Hactive. unfold FlowEditorController.executeDelete.
  rewrite fallback_fold.
  assert (CanvasStateOps.clearActiveScaleIfDeleted (activeScaleId cs) (IdSet toDelete)
          = match activeScaleId cs with
            | Some a => if Set_has String.eqb toDelete a then None else Some a
            | None => None
            end) as ->.
  { unfold CanvasStateOps.clearActiveScaleIfDeleted.
    destruct (activeScaleId cs) as [a |]; [| done].
    assert (truthy_string a = true) as ->; [| done].
    apply truthy_string_true. by intros ->. }
  unfold CanvasStateOps.removeScales.
  destruct (window_CanvasStateOps w), renderFn; reflexivity.
Qed.

Lemma executeDelete_paths_agree_witness :
  FlowEditorController.executeDelete
    {| window_ScaleGraph := true; window_Invariants := true;
       window_CanvasStateOps := false; window_FlowEditorController := true |}
    ["B"; "C"] {| scales := example_chain; activeScaleId := Some "C" |} true
  = mkRun
      (Log ("[FlowEditorController] Deleted " +:+ pretty (length ["B"; "C"]) +:+
            " scales via cascade.")
       :: [Render])
      (Some (Return
         {| scales := CanvasStateOps.removeScales example_chain (IdSet ["B"; "C"]);
            activeScaleId :=
              match Some "C" with
              | Some a => if Set_has String.eqb ["B"; "C"] a then None else Some a
              | None => None
              end |})).
Proof.
  apply (executeDelete_paths_agree _ ["B"; "C"]
           {| scales := example_chain; activeScaleId := Some "C" |} true).
  discriminate.
Defined.

(** X17. A declined confirmation changes nothing: whatever is loaded and
    whatever the id, when the user answers no the delete flow of the
    editor returns, leaves the canvas state as it was, closes no popup
    and renders nothing. *)
Theorem handleDeleteScale_declined (w : Window) (confirm : string → bool)
    (scaleId : string) (cs : CanvasState string Scale) :
  (∀ message, confirm message = false) →
  ∃ fx,
    FlowEditor.handleDeleteScale w confirm scaleId cs = mkRun fx (Some (Return cs)) ∧
    Forall (λ e, e ≠ ClosePopup ∧ e ≠ Render ∧ ∀ m, e ≠ Log m) fx.
Proof.
  intros Hno. unfold FlowEditor.handleDeleteScale.
  destruct (truthy_string scaleId) eqn:Hid; cbn [negb].
  2: { exists []. split; [done | constructor]. }
  destruct (window_FlowEditorController w).
  2: { exists []. split; [done | constructor]. }
  unfold FlowEditorController.prepareDelete. rewrite Hid. cbn [negb].
  destruct (Map_get String.eqb (scales cs) scaleId) as [scale |].
  2: { exists []. split; [done | constructor]. }
  destruct (is_root scale).
  { eexists. split; [reflexivity |]. repeat constructor; done. }
  destruct (window_ScaleGraph w).
  - destruct (buildCascadeDeleteSet_returns (scales cs) scaleId) as (ids & Hids & _).
    unfold call_buildCascadeDeleteSet. rewrite Hids.
    eexists. split.
    + unfold mbind, Run_bind, mret, Run_ret, emit. cbn. rewrite Hno. cbn. reflexivity.
    + repeat constructor; done.
  - eexists. split.
    + unfold mbind, Run_bind, mret, Run_ret, emit. cbn. rewrite Hno. cbn. reflexivity.
    + repeat constructor; done.
Qed.

Lemma handleDeleteScale_declined_witness :
  ∃ fx,
    FlowEditor.handleDeleteScale window_loaded (λ _, false) "A"
      {| scales := example_chain; activeScaleId := Some "B" |}
    = mkRun fx (Some (Return {| scales := example_chain; activeScaleId := Some "B" |})) ∧
    Forall (λ e, e ≠ ClosePopup ∧ e ≠ Render ∧ ∀ m, e ≠ Log m) fx.
Proof.
  apply (handleDeleteScale_declined window_loaded (λ _, false) "A"
           {| scales := example_chain; activeScaleId := Some "B" |}).
  reflexivity.
Defined.



(** X19. The deletion [FlowController.handleDeleteScale] hands back for
    a stored scale that is not flagged as root, run with the store's
    [removeScale] as the mutation, leaves the canvas state
    [removeScalesCascade] leaves for the cascade set, and reports the
    size of that set. *)
Theorem handleDeleteScale_execute (w : Window) (scaleId : string)
    (collection : list (string * Scale)) (scale : Scale) :
  window_ScaleGraph w = true →
  scaleId ≠ "" →
  Map_get String.eqb collection scaleId = Some scale →
  is_root scale = false →
  ∃ ids execute,
    buildCascadeDeleteSet collection scaleId = Some ids ∧
    FlowController.handleDeleteScale w scaleId collection
      (λ id (st : StoreState string Scale), (ScaleStore.removeScale String.eqb id st).1)
      None
    = mkRun [CascadeSetBuilt scaleId]
            (Some (Return (FlowController.DeletePending (length ids) ids execute))) ∧
    ∀ st,
      _canvasState (execute st).1
      = _canvasState (ScaleStore.removeScalesCascade String.eqb (IdSet ids) st).1 ∧
      (execute st).2 = (true, length ids).
Proof.
  intros Hw Hid Hget Hroot. apply truthy_string_true in Hid.
  destruct (buildCascadeDeleteSet_returns collection scaleId) as (ids & Hids & _).
  unfold FlowController.handleDeleteScale. rewrite Hid, Hget, Hroot, Hw. cbn [negb].
  unfold call_buildCascadeDeleteSet. rewrite Hids.
  eexists ids, _. split; [done |]. split.
  { unfold mbind, Run_bind, mret, Run_ret. cbn. reflexivity. }
  intros st. cbn [fst snd]. split; [| done]. apply removeScale_fold.
Qed.

Lemma handleDeleteScale_execute_witness :
  ∃ ids execute,
    buildCascadeDeleteSet example_chain "A" = Some ids ∧
    FlowController.handleDeleteScale window_loaded "A" example_chain
      (λ id (st : StoreState string Scale), (ScaleStore.removeScale String.eqb id st).1)
      None
    = mkRun [CascadeSetBuilt "A"]
            (Some (Return (FlowController.DeletePending (length ids) ids execute))) ∧
    ∀ st,
      _canvasState (execute st).1
      = _canvasState (ScaleStore.removeScalesCascade String.eqb (IdSet ids) st).1 ∧
      (execute st).2 = (true, length ids).
Proof.
  apply (handleDeleteScale_execute window_loaded "A" example_chain
           (example_scale "A" (Some "root") false 650 46)).
  - reflexivity.
  - discriminate.
  - reflexivity.
  - reflexivity.
Defined.

End DeleteFlow.

(** ** Branching: assembling a child and adding it *)

Section Branching.
Import ScaleGraph.

Lemma Map_get_app {V : Type} (m m' : list (string * V)) (k : string) :
  Map_get String.eqb (m ++ m') k
  = match Map_get String.eqb m k with
    | Some v => Some v
    | None => Map_get String.eqb m' k
    end.
Proof.
  unfold Map_get. induction m as [| [a b] m IH]; simpl; [done |].
  by destruct (String.eqb k a).
Qed.

Lemma Map_set_fresh {V : Type} (m : list (string * V)) (k : string) (v : V) :
  k ∉ Map_keys m → Map_set String.eqb m k v = m ++ [(k, v)].
Proof.
  intros Hk. unfold Map_set.
  destruct (Map_has String.eqb m k) eqn:Hhas; [| done].
  exfalso. by apply Hk, Map_has_keys.
Qed.

Lemma branch_id_truthy (a b : string) : truthy_string (a +:+ "-branch-" +:+ b) = true.
Proof. by destruct a. Qed.

Lemma countBranches_snoc (l : list (string * Scale)) (e : string * Scale) (p : string) :
  countBranches (l ++ [e]) p None
  = (countBranches l p None
     + if bool_decide (parent_scale_id e.2 = Some p) then 1 else 0)%nat.
Proof.
  unfold countBranches. rewrite fold_left_app. simpl.
  destruct (bool_decide (parent_scale_id e.2 = Some p)); lia.
Qed.

(** X20. [assembleBranch] makes a child of the source, and adding it
    makes it one: for a source stored under its own id, the assembled
    scale names the source as its parent, is not flagged as root, is
    position-locked, and takes the number of existing children as its
    branch index (0 when the source has no position) and, plus one, in
    its id; and when that id is not in
    use, [CanvasStateOps.addScale] appends it, after which it is the last
    child of the source, the source has one branch more, [getParent]
    finds the source from it, and a collection in which every non-root
    names a stored parent stays so. *)
Theorem assembleBranch_adds_child (adapterLoaded : bool) (sourceScaleId : string)
    (gptResult : ScaleAssembler.GptResult) (collection : list (string * Scale))
    (sourceScale : Scale) :
  Map_get String.eqb collection sourceScaleId = Some sourceScale →
  ∃ newScale,
    FlowController.assembleBranch adapterLoaded sourceScaleId gptResult collection
    = Some newScale ∧
    scale_id newScale
    = sourceScaleId +:+ "-branch-" +:+
      pretty (countBranches collection sourceScaleId None + 1)%nat ∧
    parent_scale_id newScale = Some (scale_id sourceScale) ∧
    is_root newScale = false ∧
    positionLocked newScale = Some true ∧
    branch_index newScale
    = Some (match position sourceScale with
            | Some _ => Z.of_nat (countBranches collection sourceScaleId None)
            | None => 0%Z
            end) ∧
    (scale_id sourceScale = sourceScaleId →
     scale_id newScale ∉ Map_keys collection →
     let collection' := (CanvasStateOps.addScale collection (Some newScale)).1 in
     collection' = collection ++ [(scale_id newScale, newScale)] ∧
     getChildren collection' sourceScaleId
     = getChildren collection sourceScaleId ++ [scale_id newScale] ∧
     countBranches collection' sourceScaleId None
     = S (countBranches collection sourceScaleId None) ∧
     (sourceScaleId ≠ "" →
      getParent collection' (scale_id newScale) = Some sourceScale) ∧
     (parent_closed collection = true → parent_closed collection' = true)).
Proof.
  intros Hget. unfold FlowController.assembleBranch. rewrite Hget. cbv zeta.
  eexists. split; [reflexivity |].
  unfold ScaleAssembler.assembleNewScale.
  cbn [scale_id parent_scale_id is_root positionLocked branch_index].
  split; [done |]. split; [done |]. split; [done |]. split; [done |].
  split.
  { unfold BranchPositioning.getNextBranchPosition. by destruct (position sourceScale). }
  set (newId := sourceScaleId +:+ "-branch-" +:+
                pretty (countBranches collection sourceScaleId None + 1)%nat).
  set (newScale := {| scale_id := newId |}).
  intros Hsrc Hfresh. cbv zeta. unfold CanvasStateOps.addScale.
  change (scale_id newScale) with newId.
  assert (truthy_string newId = true) as -> by apply branch_id_truthy.
  cbn [fst].
  rewrite (Map_set_fresh collection newId newScale Hfresh).
  assert (parent_scale_id newScale = Some sourceScaleId) as Hparent
    by (by rewrite <- Hsrc).
  split; [done |]. split; [| split; [| split]].
  - rewrite getChildren_snoc. cbn [fst snd].
    by rewrite Hparent, bool_decide_eq_true_2.
  - rewrite countBranches_snoc. cbn [snd].
    rewrite Hparent, bool_decide_eq_true_2 by done. lia.
  - intros Hne. unfold getParent. rewrite Map_get_app.
    rewrite (proj2 (Map_get_None collection newId) Hfresh).
    unfold Map_get at 1. cbn [find fst]. rewrite (proj2 (String.eqb_eq newId newId) eq_refl).
    cbn [fmap option_fmap option_map snd]. rewrite Hparent.
    rewrite (proj2 (truthy_string_true sourceScaleId) Hne).
    by rewrite Map_get_app, Hget.
  - intros Hclosed. apply parent_closed_spec. intros e He.
    assert (∀ k, k ∈ Map_keys collection →
                 k ∈ Map_keys (collection ++ [(newId, newScale)])) as Hkeys.
    { intros k Hk. unfold Map_keys. rewrite map_app.
      apply elem_of_app. by left. }
    apply elem_of_app in He as [He | He].
    + destruct (proj1 (parent_closed_spec collection) Hclosed e He)
        as [Hr | (q & Hq & Hk)]; [by left | right].
      exists q. split; [done | by apply Hkeys].
    + apply list_elem_of_singleton in He. subst e. right.
      exists sourceScaleId. split; [done |]. apply Hkeys.
      apply Map_get_elem in Hget.
      apply list_elem_of_In, in_map_iff. exists (sourceScaleId, sourceScale).
      split; [done | by apply list_elem_of_In].
Qed.

Lemma assembleBranch_adds_child_witness :
  ∃ newScale,
    FlowController.assembleBranch true "A"
      {| ScaleAssembler.gpt_scale_name := "Versi santai";
         ScaleAssembler.gpt_dimensions := example_adaptation |} example_chain
    = Some newScale ∧
    scale_id newScale
    = "A" +:+ "-branch-" +:+ pretty (countBranches example_chain "A" None + 1)%nat ∧
    parent_scale_id newScale
    = Some (scale_id (example_scale "A" (Some "root") false 650 46)) ∧
    is_root newScale = false ∧
    positionLocked newScale = Some true ∧
    branch_index newScale
    = Some (match position (example_scale "A" (Some "root") false 650 46) with
            | Some _ => Z.of_nat (countBranches example_chain "A" None)
            | None => 0%Z
            end) ∧
    (scale_id (example_scale "A" (Some "root") false 650 46) = "A" →
     scale_id newScale ∉ Map_keys example_chain →
     let collection' := (CanvasStateOps.addScale example_chain (Some newScale)).1 in
     collection' = example_chain ++ [(scale_id newScale, newScale)] ∧
     getChildren collection' "A" = getChildren example_chain "A" ++ [scale_id newScale] ∧
     countBranches collection' "A" None = S (countBranches example_chain "A" None) ∧
     ("A" ≠ "" → getParent collection' (scale_id newScale)
                 = Some (example_scale "A" (Some "root") false 650 46)) ∧
     (parent_closed example_chain = true → parent_closed collection' = true)).
Proof.
  apply (assembleBranch_adds_child true "A" _ example_chain
           (example_scale "A" (Some "root") false 650 46)).
  reflexivity.
Defined.

End Branching.

(** ** Adding a leaf and deleting it again *)

Section AddThenDelete.
Import ScaleGraph.

Lemma Map_delete_absent {V : Type} (m : list (string * V)) (k : string) :
  k ∉ Map_keys m → (Map_delete String.eqb m k).1 = m.
Proof.
  unfold Map_delete, Map_keys. cbn [fst]. induction m as [| [a b] m IH]; [done |].
  simpl. intros Hk. apply not_elem_of_cons in Hk as [Hne Hk].
  rewrite filter_cons. cbn [fst].
  destruct (decide (String.eqb k a = false)) as [_ | Heq].
  - f_equal. by apply IH.
  - exfalso. apply Heq. by apply String.eqb_neq.
Qed.

Lemma Map_delete_last {V : Type} (m : list (string * V)) (k : string) (v : V) :
  k ∉ Map_keys m → (Map_delete String.eqb (m ++ [(k, v)]) k).1 = m.
Proof.
  intros Hk. pose proof (Map_delete_absent m k Hk) as Hm.
  unfold Map_delete in *. cbn [fst] in *. rewrite filter_app, Hm.
  rewrite filter_cons. cbn [fst].
  destruct (decide (String.eqb k k = false)) as [Heq | _].
  - rewrite (proj2 (String.eqb_eq k k) eq_refl) in Heq. done.
  - rewrite filter_nil. apply app_nil_r.
Qed.

Lemma singleton_set (ids : list string) (k : string) :
  NoDup ids → (∀ x, x ∈ ids ↔ x = k) → ids = [k].
Proof.
  intros Hnd Hm. destruct ids as [| a [| b l]].
  - exfalso. assert (k ∈ @nil string) as H by (by apply Hm). by apply elem_of_nil in H.
  - f_equal. apply Hm. apply list_elem_of_here.
  - exfalso. assert (a = k) as -> by (apply Hm; apply list_elem_of_here).
    assert (b = k) as -> by (apply Hm; apply list_elem_of_further, list_elem_of_here).
    apply NoDup_cons in Hnd as [Hfresh _]. apply Hfresh, list_elem_of_here.
Qed.

Lemma no_descendant (collection : list (string * Scale)) (k x : string) :
  (∀ e, e ∈ collection → parent_scale_id e.2 ≠ Some k) →
  ¬ descendant collection k x.
Proof.
  intros Hleaf Hd. induction Hd as [x s Hin Hl | x s p Hin Hl Hd IH]; [| done].
  apply parent_link_Some in Hl as [Hp _]. by apply (Hleaf (x, s) Hin).
Qed.

(** X21. Adding a leaf and deleting it again restores the collection:
    for a scale with a non-empty id that is not in use, not flagged as
    root and named by no scale as its parent, [CanvasStateOps.addScale]
    followed by a confirmed run of the delete flow of the editor gives
    back the collection as it was, entry for entry, and clears the
    active id only if it was that of the leaf. *)
Theorem add_then_delete_restores (confirm : string → bool)
    (collection : list (string * Scale)) (leaf : Scale) (active : option string) :
  scale_id leaf ≠ "" →
  is_root leaf = false →
  scale_id leaf ∉ Map_keys collection →
  (∀ e, e ∈ collection → parent_scale_id e.2 ≠ Some (scale_id leaf)) →
  parent_scale_id leaf ≠ Some (scale_id leaf) →
  (∀ message, confirm message = true) →
  completion
    (FlowEditor.handleDeleteScale window_loaded confirm (scale_id leaf)
       {| scales := (CanvasStateOps.addScale collection (Some leaf)).1;
          activeScaleId := active |})
  = Some (Return
      {| scales := collection;
         activeScaleId :=
           match active with
           | Some a => if String.eqb a (scale_id leaf) then None else Some a
           | None => None
           end |}).
Proof.
  intros Hid Hroot Hfresh Hleaf Hself Hyes.
  set (k := scale_id leaf) in *.
  pose proof (proj2 (truthy_string_true k) Hid) as Htruthy.
  unfold CanvasStateOps.addScale. fold k. rewrite Htruthy. cbn [fst].
  rewrite (Map_set_fresh collection k leaf Hfresh).
  set (collection' := collection ++ [(k, leaf)]).
  assert (Map_get String.eqb collection' k = Some leaf) as Hget.
  { unfold collection'. rewrite Map_get_app.
    rewrite (proj2 (Map_get_None collection k) Hfresh).
    unfold Map_get. cbn [find fst]. by rewrite (proj2 (String.eqb_eq k k) eq_refl). }
  destruct (buildCascadeDeleteSet_returns collection' k) as (ids & Hids & Hnd & Hm).
  assert (ids = [k]) as ->.
  { apply singleton_set; [done |]. intros x. rewrite Hm. unfold in_cascade.
    split; [| by left]. intros [-> | Hd]; [done |]. exfalso.
    revert Hd. apply no_descendant. intros e [He | He]%elem_of_app.
    - by apply Hleaf.
    - apply list_elem_of_singleton in He. by subst e. }
  unfold FlowEditor.handleDeleteScale, FlowEditorController.prepareDelete.
  cbn [scales]. rewrite Htruthy, Hget, Hroot.
  cbn [negb window_loaded window_FlowEditorController window_ScaleGraph].
  unfold call_buildCascadeDeleteSet. rewrite Hids.
  unfold FlowEditorController.executeDelete, mbind, Run_bind, mret, Run_ret, emit.
  cbn [completion effects fmap option_fmap option_map length Nat.ltb Nat.leb].
  rewrite Hyes. cbn [negb completion effects window_loaded window_CanvasStateOps
                     scales activeScaleId].
  do 2 f_equal. unfold CanvasStateOps.removeScales,
    CanvasStateOps.clearActiveScaleIfDeleted. cbn [fold_left].
  unfold collection'. rewrite (Map_delete_last collection k leaf Hfresh).
  f_equal. destruct active as [a |]; [| done].
  change (Set_has String.eqb [k] a) with (String.eqb a k || false).
  rewrite orb_false_r. destruct (String.eqb a k) eqn:Ha; [| by rewrite andb_false_r].
  apply String.eqb_eq in Ha. subst a. by rewrite Htruthy.
Qed.

Lemma add_then_delete_restores_witness :
  completion
    (FlowEditor.handleDeleteScale window_loaded (λ _, true)
       (scale_id (example_scale "A-branch-2" (Some "A") false 1200 250))
       {| scales :=
            (CanvasStateOps.addScale example_chain
               (Some (example_scale "A-branch-2" (Some "A") false 1200 250))).1;
          activeScaleId := Some "A-branch-2" |})
  = Some (Return
      {| scales := example_chain;
         activeScaleId :=
           match Some "A-branch-2" with
           | Some a =>
               if String.eqb a
                    (scale_id (example_scale "A-branch-2" (Some "A") false 1200 250))
               then None else Some a
           | None => None
           end |}).
Proof.
  apply (add_then_delete_restores (λ _, true) example_chain
           (example_scale "A-branch-2" (Some "A") false 1200 250) (Some "A-branch-2")).
  - discriminate.
  - reflexivity.
  - refine (bool_decide_unpack _ _). exact I.
  - intros e He. revert e He. apply Forall_forall.
    repeat constructor; discriminate.
  - discriminate.
  - reflexivity.
Defined.

End AddThenDelete.

(** ** CSV: what is exported parses back *)

Section Csv.
Import CsvIngest CsvExport.

Lemma append_cons (c : Ascii.ascii) (s t : string) :
  String c s +:+ t = String c (s +:+ t).
Proof. reflexivity. Qed.

Lemma append_empty_l (t : string) : EmptyString +:+ t = t.
Proof. reflexivity. Qed.

Lemma append_empty_r (s : string) : s +:+ EmptyString = s.
Proof. induction s as [| c s IH]; [done |]. rewrite append_cons. by f_equal. Qed.

Lemma append_char (a b : string) (c : Ascii.ascii) :
  (a +:+ String c EmptyString) +:+ b = a +:+ String c b.
Proof. induction a as [| x a IH]; [done |]. rewrite !append_cons. by f_equal. Qed.

Lemma parse_quote_open (d : Ascii.ascii) (rest : string) (result : list string)
    (current : string) :
  parse_chars d (String quote_char rest) result current false
  = parse_chars d rest result current true.
Proof. destruct rest; reflexivity. Qed.

(** The inside of a quoted cell, up to and including the closing quote. *)
Lemma parse_quoted_body (d : Ascii.ascii) (cell : string) :
  ∀ (tail : string) (result : list string) (current : string),
    match tail with
    | String c _ => Ascii.eqb c quote_char = false
    | EmptyString => True
    end →
    parse_chars d (double_quotes cell +:+ String quote_char tail) result current true
    = parse_chars d tail result (current +:+ cell) false.
Proof.
  induction cell as [| c cell IH]; intros tail result current Htail.
  - rewrite append_empty_r. cbn [double_quotes]. rewrite append_empty_l.
    cbn [parse_chars].
    change (Ascii.eqb quote_char quote_char) with true. cbv iota.
    destruct tail as [| next rest]; [done |]. by rewrite Htail.
  - cbn [double_quotes]. destruct (Ascii.eqb c quote_char) eqn:Hc.
    + apply Ascii.eqb_eq in Hc. subst c.
      rewrite !append_cons. cbn [parse_chars].
      change (Ascii.eqb quote_char quote_char) with true. cbv iota.
      cbn [andb]. rewrite IH by done. by rewrite append_char.
    + rewrite append_cons. cbn [parse_chars]. rewrite Hc. rewrite andb_false_r.
      rewrite IH by done. by rewrite append_char.
Qed.

(** A cell written as it is, without quote or delimiter. *)
Lemma parse_plain (d : Ascii.ascii) (cell : string) :
  includes quote_char cell = false →
  includes d cell = false →
  ∀ (tail : string) (result : list string) (current : string),
    parse_chars d (cell +:+ tail) result current false
    = parse_chars d tail result (current +:+ cell) false.
Proof.
  induction cell as [| c cell IH]; intros Hq Hd tail result current.
  - by rewrite append_empty_r, append_empty_l.
  - cbn [includes] in Hq, Hd.
    apply orb_false_iff in Hq as [Hq1 Hq2]. apply orb_false_iff in Hd as [Hd1 Hd2].
    rewrite append_cons. cbn [parse_chars]. rewrite Hq1, Hd1. cbn [andb].
    rewrite IH by done. by rewrite append_char.
Qed.

Lemma parse_cell (d : Ascii.ascii) (cell encoded tail : string)
    (result : list string) (current : string) :
  Ascii.eqb d quote_char = false →
  written d cell encoded →
  tail = EmptyString ∨ (∃ rest, tail = String d rest) →
  parse_chars d (encoded +:+ tail) result current false
  = parse_chars d tail result (current +:+ cell) false.
Proof.
  intros Hd [-> | (-> & Hq & Hc)] Htail; [| by apply parse_plain].
  unfold quoted. rewrite append_cons, append_char, parse_quote_open.
  apply parse_quoted_body. destruct Htail as [-> | [rest ->]]; done.
Qed.

Lemma parse_row (d : Ascii.ascii) (cells encoded : list string) :
  Ascii.eqb d quote_char = false →
  Forall2 (written d) cells encoded →
  cells ≠ [] →
  ∀ result,
    parse_chars d (join (String d EmptyString) encoded) result EmptyString false
    = result ++ cells.
Proof.
  intros Hd Hall. induction Hall as [| cell enc cells encs Hok Hrest IH]; [done |].
  intros _ result. destruct Hrest as [| cell2 enc2 cells' encs' Hok2 Hrest'].
  - cbn [join]. rewrite <- (append_empty_r enc).
    rewrite (parse_cell d cell enc EmptyString result EmptyString Hd Hok) by (by left).
    by rewrite append_empty_l.
  - change (join (String d EmptyString) (enc :: enc2 :: encs'))
      with (enc +:+ String d (join (String d EmptyString) (enc2 :: encs'))).
    rewrite (parse_cell d cell enc _ result EmptyString Hd Hok) by (right; by eexists).
    cbn [parse_chars]. rewrite Hd.
    rewrite (proj2 (Ascii.eqb_eq d d) eq_refl). cbn [andb negb].
    rewrite append_empty_l, IH by done. by rewrite <- app_assoc.
Qed.

(** X22. What the application exports, [parseCSVLine] reads back: for a
    row of at least one cell, whatever the cells hold (commas, quotes,
    line feeds), the line [downloadCSV] writes for it and the line
    [convertToCSV] writes for it both parse, with the comma as
    delimiter, into the cells of the row. *)
Theorem exported_row_parses_back (row : list string) :
  row ≠ [] →
  parseCSVLine (downloadCSV_row row) comma = row ∧
  parseCSVLine (convertToCSV_row row) comma = row.
Proof.
  intros Hne. unfold parseCSVLine, downloadCSV_row, convertToCSV_row.
  change "," with (String comma EmptyString).
  split.
  - apply (parse_row comma row (map quoted row) eq_refl); [| done].
    clear Hne. induction row as [| cell row IH]; constructor; [by left | done].
  - apply (parse_row comma row _ eq_refl); [| done].
    clear Hne. induction row as [| cell row IH]; constructor; [| done].
    destruct (includes comma cell) eqn:Hc; [by left |].
    destruct (includes quote_char cell) eqn:Hq; [by left |].
    destruct (includes line_feed cell); [by left |]. right. done.
Qed.

Lemma exported_row_parses_back_witness :
  let row := ["8"; "Optimisme, harapan";
              "Saya " +:+ String quote_char "yakin" +:+ String quote_char EmptyString] in
  parseCSVLine (downloadCSV_row row) comma = row ∧
  parseCSVLine (convertToCSV_row row) comma = row.
Proof.
  apply exported_row_parses_back. discriminate.
Defined.

(** X23. [inferItemText] answers the longest string value of the row
    when that is longer than 10 characters, and the empty string when no
    string value is, lengths being counted as the code counts them, in
    UTF-16 code units: its answer is at least as long as every string
    value longer than 10, and is either empty or one of those values.
    Accented text counts one unit a letter: a value of 9 letters is not
    taken, and a value of 11 plain letters is kept against one of 7
    accented letters. *)
Theorem inferItemText_longest (values : list JValue) :
  let answer := inferItemText values in
  (∀ s, JStr s ∈ values → (10 < utf16_length s)%nat →
        (utf16_length s ≤ utf16_length answer)%nat) ∧
  (answer = EmptyString ∨
   (JStr answer ∈ values ∧ (10 < utf16_length answer)%nat)) ∧
  (answer = EmptyString ↔
   ∀ s, JStr s ∈ values → (utf16_length s ≤ 10)%nat) ∧
  inferItemText [JStr "déjà vécu"] = EmptyString ∧
  inferItemText [JStr "sebelas kar"; JStr "ééééééé"] = "sebelas kar".
Proof.
  assert (∀ l acc,
    let answer :=
      fold_left
        (λ longestText value,
           match value with
           | JStr s =>
               if (utf16_length longestText <? utf16_length s)%nat
                  && (10 <? utf16_length s)%nat
               then s else longestText
           | _ => longestText
           end) l acc in
    (utf16_length acc ≤ utf16_length answer)%nat ∧
    (∀ s, JStr s ∈ l → (10 < utf16_length s)%nat →
          (utf16_length s ≤ utf16_length answer)%nat) ∧
    (answer = acc ∨ (JStr answer ∈ l ∧ (10 < utf16_length answer)%nat))) as Hfold.
  { induction l as [| v l IH]; intros acc; cbn [fold_left]; cbv zeta.
    - split; [lia |]. split; [| by left]. intros s Hs. by apply elem_of_nil in Hs.
    - set (acc' := match v with
                   | JStr s =>
                       if (utf16_length acc <? utf16_length s)%nat
                          && (10 <? utf16_length s)%nat
                       then s else acc
                   | _ => acc
                   end).
      destruct (IH acc') as (H1 & H2 & H3). cbv zeta in H1, H2, H3.
      assert ((utf16_length acc ≤ utf16_length acc')%nat ∧
              (∀ s, v = JStr s → (10 < utf16_length s)%nat →
                    (utf16_length s ≤ utf16_length acc')%nat) ∧
              (acc' = acc ∨ (v = JStr acc' ∧ (10 < utf16_length acc')%nat)))
        as (A1 & A2 & A3).
      { unfold acc'. destruct v as [| | b | n | s | elems | fields];
          try (split; [lia |]; split; [done | by left]).
        destruct (Nat.ltb_spec (utf16_length acc) (utf16_length s)) as [Hlt | Hlt];
          destruct (Nat.ltb_spec 10 (utf16_length s)) as [H10 | H10]; cbn [andb].
        - split; [lia |]. split; [by intros ? [= <-] | by right].
        - split; [lia |]. split; [intros ? [= <-]; lia | by left].
        - split; [lia |]. split; [intros ? [= <-]; lia | by left].
        - split; [lia |]. split; [intros ? [= <-]; lia | by left]. }
      split; [lia |]. split.
      + intros s [Heq | Hs]%elem_of_cons Hlen; [| by apply H2].
        specialize (A2 s (eq_sym Heq) Hlen). lia.
      + destruct H3 as [H3 | [H3 H4]].
        * rewrite H3. destruct A3 as [A3 | [A3 A4]]; [by left | right].
          split; [| done]. apply elem_of_cons. left. by symmetry.
        * right. split; [by apply list_elem_of_further | done]. }
  intros answer. destruct (Hfold values EmptyString) as (_ & H2 & H3).
  cbv zeta in H2, H3. fold (inferItemText values) in H2, H3. fold answer in H2, H3.
  split; [exact H2 |]. split; [exact H3 |]. split; [| split; reflexivity]. split.
  - intros He s Hs. specialize (H2 s Hs). rewrite He in H2. simpl in H2. lia.
  - intros Hall. destruct H3 as [H3 | [H3 H4]]; [done |].
    specialize (Hall answer H3). lia.
Qed.

End Csv.

(** ** The store of unchecked objects: adding, then looking up *)

Section AddThenGet.

Lemma svz_string (s : string) (a : JValue) :
  same_value_zero (JStr s) a = true ↔ a = JStr s.
Proof.
  destruct a; simpl; try (split; [done | by intros [=]]).
  rewrite String.eqb_eq. split; [by intros -> | by intros [= ->]].
Qed.

Lemma svz_Map_get_None (m : list (JValue * JValue)) (k : JValue) :
  Map_has same_value_zero m k = false → Map_get same_value_zero m k = None.
Proof.
  unfold Map_has, Map_get. induction m as [| [a b] m IH]; simpl; [done |].
  destruct (same_value_zero k a); simpl; [done | exact IH].
Qed.

(** What a lookup under a string key finds after [Map.set] under a
    string key. *)
Lemma svz_Map_get_set (m : list (JValue * JValue)) (s s' : string) (v : JValue) :
  Map_get same_value_zero (Map_set same_value_zero m (JStr s) v) (JStr s')
  = if String.eqb s s' then Some v else Map_get same_value_zero m (JStr s').
Proof.
  assert (∀ l,
    Map_get same_value_zero
      (map (λ e, if same_value_zero (JStr s) e.1 then (e.1, v) else e) l) (JStr s')
    = if String.eqb s s'
      then (if Map_has same_value_zero l (JStr s) then Some v else None)
      else Map_get same_value_zero l (JStr s')) as Hmap.
  { unfold Map_get, Map_has. induction l as [| [a b] l IH]; cbn [map find existsb fst].
    - by destruct (String.eqb s s').
    - destruct (same_value_zero (JStr s) a) eqn:Hka; cbn [find fst orb].
      + apply svz_string in Hka. subst a.
        change (same_value_zero (JStr s') (JStr s)) with (String.eqb s' s).
        rewrite (String.eqb_sym s' s). destruct (String.eqb s s') eqn:Hkk; [done |].
        exact IH.
      + destruct (same_value_zero (JStr s') a) eqn:Hk'a.
        * apply svz_string in Hk'a. subst a.
          change (same_value_zero (JStr s) (JStr s')) with (String.eqb s s') in Hka.
          by rewrite Hka.
        * exact IH. }
  assert (∀ l,
    Map_get same_value_zero (l ++ [(JStr s, v)]) (JStr s')
    = match Map_get same_value_zero l (JStr s') with
      | Some x => Some x
      | None => if String.eqb s s' then Some v else None
      end) as Happ.
  { unfold Map_get. induction l as [| [a b] l IH]; cbn [app find fst].
    - change (same_value_zero (JStr s') (JStr s)) with (String.eqb s' s).
      rewrite (String.eqb_sym s' s). by destruct (String.eqb s s').
    - destruct (same_value_zero (JStr s') a); [done | exact IH]. }
  unfold Map_set. destruct (Map_has same_value_zero m (JStr s)) eqn:Hhas.
  - rewrite Hmap, Hhas. done.
  - rewrite Happ. destruct (String.eqb s s') eqn:Hkk.
    + apply String.eqb_eq in Hkk. subst s'. by rewrite (svz_Map_get_None m (JStr s) Hhas).
    + by destruct (Map_get same_value_zero m (JStr s')).
Qed.

(** What [validateScale] lets through has an id. *)
Lemma validateScale_accepts (scale : JValue) :
  Invariants.validateScale scale = Return tt →
  ∃ s, prop scale "scale_id" = Return (JStr s) ∧ s ≠ "" ∧
       typeof (field scale "scale_name") = "string" ∧
       isArray (field scale "dimensions") = true ∧
       truthy (field scale "position") = true.
Proof.
  unfold Invariants.validateScale, field.
  change (negb Invariants.DEV) with false. cbv iota.
  destruct scale as [| | b | n | s | elems | fields]; try done.
  rewrite (assert_holds _ "Scale must be an object") by done. rewrite bind_Return.
  destruct (prop (JObj fields) "scale_id") as [sid | e] eqn:Hsid; [| done].
  rewrite bind_Return.
  destruct (nonempty_string sid) eqn:Hne.
  2: { by rewrite (assert_fails _ "Scale must have scale_id"). }
  rewrite (assert_holds _ "Scale must have scale_id") by done. rewrite bind_Return.
  destruct (prop (JObj fields) "scale_name") as [sname | e] eqn:Hsname; [| done].
  rewrite bind_Return.
  destruct (String.eqb (typeof sname) "string") eqn:Hty.
  2: { by rewrite (assert_fails _ "Scale must have scale_name"). }
  rewrite (assert_holds _ "Scale must have scale_name") by done. rewrite bind_Return.
  destruct (prop (JObj fields) "dimensions") as [dims | e] eqn:Hdims; [| done].
  rewrite bind_Return.
  destruct (isArray dims) eqn:Harr.
  2: { by rewrite (assert_fails _ "Scale must have dimensions array"). }
  rewrite (assert_holds _ "Scale must have dimensions array") by done.
  rewrite bind_Return.
  destruct (prop (JObj fields) "position") as [pos | e] eqn:Hpos; [| done].
  rewrite bind_Return. intros Hrest.
  destruct sid as [| | | | s | |]; try done. simpl in Hne.
  exists s. split; [done |]. split; [by apply truthy_string_true |].
  split; [by apply String.eqb_eq |]. split; [done |].
  destruct (truthy pos); [done |]. simpl in Hrest.
  by rewrite (assert_fails _ "Scale must have position {x, y}") in Hrest.
Qed.

(** X24. What [addScale] has stored, [getScale] finds: when the store's
    [addScale] answers true, the scale is stored under its [scale_id];
    with the invariant checks loaded that id is a non-empty string and
    the scale has passed [validateScale]; and whenever the id is a
    string, [getScale] of that id answers the scale just added, and the
    answer for every other string id is what it was. *)
Theorem addScale_then_getScale (w : Window) (scale : JValue)
    (st st' : StoreState JValue JValue) :
  ScaleStore.addScale w scale st = (st', Return true) →
  ∃ key,
    prop scale "scale_id" = Return key ∧
    console st' = console st ∧
    (window_Invariants w = true →
       nonempty_string key = true ∧ Invariants.validateScale scale = Return tt) ∧
    (∀ s, key = JStr s →
       ScaleStore.getScale same_value_zero st' (JStr s) = Some scale ∧
       ∀ k, k ≠ s →
         ScaleStore.getScale same_value_zero st' (JStr k)
         = ScaleStore.getScale same_value_zero st (JStr k)).
Proof.
  unfold ScaleStore.addScale. destruct (_canvasState st) as [cs |] eqn:Hcs; [| done].
  destruct (window_Invariants w) eqn:Hw.
  - destruct (Invariants.validateScale scale) as [[] | e] eqn:Hv; [| done].
    destruct (validateScale_accepts scale Hv) as (s & Hsid & Hne & _).
    rewrite bind_Return.
    destruct (root ← prop scale "is_root";
              if truthy root then Return tt else Invariants.validateBranchedScale scale)
      as [[] | e]; [| done].
    rewrite bind_Return, Hsid. intros [= <-].
    exists (JStr s). split; [done |]. split; [done |]. split.
    { intros _. split; [| done]. simpl. by apply truthy_string_true. }
    intros s' [= <-]. unfold ScaleStore.getScale. rewrite Hcs.
    cbn [_canvasState mbind option_bind scales].
    rewrite svz_Map_get_set, (proj2 (String.eqb_eq s s) eq_refl). split; [done |].
    intros k Hk. rewrite svz_Map_get_set.
    by rewrite (proj2 (String.eqb_neq s k)) by (by intros ->).
  - rewrite bind_Return.
    destruct (prop scale "scale_id") as [key | e] eqn:Hsid; [| done].
    intros [= <-]. exists key. split; [done |]. split; [done |]. split; [done |].
    intros s ->. unfold ScaleStore.getScale. rewrite Hcs.
    cbn [_canvasState mbind option_bind scales].
    rewrite svz_Map_get_set, (proj2 (String.eqb_eq s s) eq_refl). split; [done |].
    intros k Hk. rewrite svz_Map_get_set.
    by rewrite (proj2 (String.eqb_neq s k)) by (by intros ->).
Qed.

Lemma addScale_then_getScale_witness :
  let scale :=
    JObj [("scale_id", JStr "skala-asli"); ("scale_name", JStr "Skala Asli");
          ("dimensions", JArr []); ("is_root", JBool true);
          ("position", JObj [("x", JNum 100); ("y", JNum 250)])] in
  let st' := (ScaleStore.addScale window_loaded scale example_store).1 in
  ∃ key,
    prop scale "scale_id" = Return key ∧
    console st' = console example_store ∧
    (window_Invariants window_loaded = true →
       nonempty_string key = true ∧ Invariants.validateScale scale = Return tt) ∧
    (∀ s, key = JStr s →
       ScaleStore.getScale same_value_zero st' (JStr s) = Some scale ∧
       ∀ k, k ≠ s →
         ScaleStore.getScale same_value_zero st' (JStr k)
         = ScaleStore.getScale same_value_zero example_store (JStr k)).
Proof.
  intros scale st'.
  apply (addScale_then_getScale window_loaded scale example_store st').
  reflexivity.
Defined.

End AddThenGet.

(** ** The root scale *)

Section RootScale.
Import ScaleGraph.

(** X25. [getRootScale] answers the scale stored under the first id of
    [findRoots]: [null] exactly when [findRoots] lists nothing, and
    otherwise a scale that [isRoot] classes as a root and that the
    collection holds under the first listed id. *)
Theorem getRootScale_first_root (scales : list (string * Scale)) :
  match findRoots scales with
  | [] => getRootScale scales = None
  | first :: _ =>
      ∃ root,
        getRootScale scales = Some root ∧
        isRoot (Some root) = true ∧
        (first, root) ∈ scales ∧
        (NoDup (Map_keys scales) → Map_get String.eqb scales first = Some root)
  end.
Proof.
  unfold findRoots. rewrite findRoots_from. cbn [app]. unfold getRootScale.
  induction scales as [| [k s] l IH]; [done |].
  cbn [List.filter find snd fst].
  change (is_root s || negb (truthy_id (parent_scale_id s))) with (isRoot (Some s)).
  destruct (isRoot (Some s)) eqn:Hroot.
  - cbn [map fst]. exists s. split; [done |]. split; [done |].
    split; [apply list_elem_of_here |]. intros _.
    unfold Map_get. cbn [find fst]. by rewrite (proj2 (String.eqb_eq k k) eq_refl).
  - destruct (map fst (List.filter (λ e, isRoot (Some e.2)) l)) as [| first rest];
      [exact IH |].
    destruct IH as (root & Hget & Hr & Hin & Hmap).
    exists root. split; [done |]. split; [done |].
    split; [by apply list_elem_of_further |].
    intros Hnd. apply Map_get_unique; [done | by apply list_elem_of_further].
Qed.

End RootScale.
